(** * hogtyped (Python): schema resolution, loading order and the generated
      wrapper's validation, as a shallow embedding of
      [packages/python/hogtyped/codegen.py].

    The embedding follows the Python source function by function:
    - a JSON value ([json.load]'s result) is the inductive [json]; a Python
      [dict] is an association list in insertion order with distinct keys;
    - an exception is a value of [exn] carried by [Raise]; unbounded
      recursion is made explicit by a fuel argument and the outcome
      [OutOfFuel];
    - the file system ([open] + [json.load]), path arithmetic
      ([Path(p).parent / q]), the iteration order of a Python [set],
      Python's [str()], the warnings filter and the wrapped SDK are
      parameters of the model. *)

From Stdlib Require Import String Ascii List ZArith Bool Lia Arith DecimalString.
From Stdlib Require Import Permutation Sorted OrderedTypeEx.
Import ListNotations.
Open Scope string_scope.

Set Warnings "-register-all".

(* ================================================================== *)
(** * Values *)

(** A parsed JSON document.  Numbers are integers: no claim below depends on
    a number's value.  Python's [None] is [JNull]. *)
Inductive json : Type :=
| JNull
| JBool (b : bool)
| JNum (n : Z)
| JStr (s : string)
| JArr (items : list json)
| JObj (fields : list (string * json)).

(** A Python [dict] with string keys, in insertion order. *)
Definition dict := list (string * json).

(** The exceptions the modelled code can raise.  [NonStringKey] is not an
    exception of Python: it marks the one place where the code goes on
    with a value that [json] cannot hold, a dict with a key that is not a
    string, which [dict.update] builds from a list of pairs such as
    [[[1, 2]]].  The model stops there, and no statement below draws a
    conclusion from it. *)
Inductive exn : Type :=
| AttributeError            (* [x.get], [x.startswith], [x.items] on a value without it *)
| TypeError                 (* not iterable, unhashable, bad index, bad [update] argument *)
| PyValueError (msg : string) (* [raise ValueError(msg)], and [dict.update] on a bad pair *)
| KeyError                  (* [d[k]] on a dict without [k] *)
| OSError                   (* [open] or [json.load] failed *)
| UserWarning (msg : string) (* [warnings.warn(msg)] under a filter with the action ['error'] *)
| NonStringKey.             (* outside the model: see above *)

Inductive outcome (A : Type) : Type :=
| Ok (a : A)
| Raise (e : exn)
| OutOfFuel.
Arguments Ok {A} a.
Arguments Raise {A} e.
Arguments OutOfFuel {A}.

Definition bind {A B} (m : outcome A) (k : A -> outcome B) : outcome B :=
  match m with
  | Ok a => k a
  | Raise e => Raise e
  | OutOfFuel => OutOfFuel
  end.

Notation "x <- m ;; k" := (bind m (fun x => k))
  (at level 61, m at next level, right associativity).

(** Left-to-right evaluation of a comprehension: the first exception wins. *)
Fixpoint mapM {A B} (f : A -> outcome B) (l : list A) : outcome (list B) :=
  match l with
  | [] => Ok []
  | x :: xs => y <- f x ;; ys <- mapM f xs ;; Ok (y :: ys)
  end.

(** A loop with an accumulator whose body can raise. *)
Fixpoint foldM {A S} (f : S -> A -> outcome S) (l : list A) (s : S) : outcome S :=
  match l with
  | [] => Ok s
  | x :: xs => s' <- f s x ;; foldM f xs s'
  end.

(* ================================================================== *)
(** * Python primitives on strings *)

(** [s.startswith(p)] *)
Definition startswith (p s : string) : bool := String.prefix p s.

(** [s[n:]] *)
Fixpoint drop (n : nat) (s : string) : string :=
  match n, s with
  | O, _ => s
  | S _, EmptyString => EmptyString
  | S n', String _ s' => drop n' s'
  end.

(** [s.split(c)] for a one-character separator: never empty, [""] gives [[""]]. *)
Fixpoint split (c : ascii) (s : string) : list string :=
  match s with
  | EmptyString => [EmptyString]
  | String a s' =>
      if Ascii.eqb a c then EmptyString :: split c s'
      else match split c s' with
           | [] => [String a EmptyString]
           | w :: ws => String a w :: ws
           end
  end.

(** [p in s] on strings: [p] occurs in [s]. *)
Fixpoint is_substring (p s : string) : bool :=
  String.prefix p s ||
  match s with
  | EmptyString => false
  | String _ s' => is_substring p s'
  end.

(** The characters of a string, each as a one-character string. *)
Fixpoint chars (s : string) : list string :=
  match s with
  | EmptyString => []
  | String a s' => String a EmptyString :: chars s'
  end.

(* ================================================================== *)
(** * Python primitives on values *)

(** Truthiness: [not schema] is [negb (truthy schema)]. *)
Definition truthy (j : json) : bool :=
  match j with
  | JNull => false
  | JBool b => b
  | JNum n => negb (n =? 0)%Z
  | JStr s => negb (s =? "")
  | JArr l => match l with [] => false | _ => true end
  | JObj d => match d with [] => false | _ => true end
  end.

(** [d.get(k)]: the value bound to [k], if any. *)
Fixpoint dict_get (k : string) (d : dict) : option json :=
  match d with
  | [] => None
  | (k', v) :: d' => if k' =? k then Some v else dict_get k d'
  end.

(** [k in d] *)
Definition has_key (k : string) (d : dict) : bool :=
  match dict_get k d with Some _ => true | None => false end.

(** [d[k] = v]: an existing key keeps its position, a new key goes last. *)
Fixpoint dict_set (k : string) (v : json) (d : dict) : dict :=
  match d with
  | [] => [(k, v)]
  | (k', v') :: d' => if k' =? k then (k, v) :: d' else (k', v') :: dict_set k v d'
  end.

(** [d.update(e)] for a dict [e]. *)
Definition dict_update (d e : dict) : dict :=
  fold_left (fun acc kv => dict_set (fst kv) (snd kv) acc) e d.

(** [for x in v]: a list gives its items, a dict its keys, a string its
    characters; the other values are not iterable. *)
Definition py_iter (v : json) : outcome (list json) :=
  match v with
  | JArr l => Ok l
  | JObj d => Ok (map (fun kv => JStr (fst kv)) d)
  | JStr s => Ok (map JStr (chars s))
  | _ => Raise TypeError
  end.

(** [str(n)] for a count. *)
Definition py_decimal (n : nat) : string := NilEmpty.string_of_uint (Nat.to_uint n).

(** One element, at index [i], of a sequence given to [dict.update].  The
    element is taken as a sequence itself (a list as its items, a string as
    its characters, a dict as its keys), which must have length 2: the key
    and the value.  The key is hashed when the pair is stored. *)
Definition update_pair (i : nat) (element : json) : outcome (string * json) :=
  pair <- py_iter element ;;
  match pair with
  | [key; value] =>
      match key with
      | JStr k => Ok (k, value)
      | JArr _ | JObj _ => Raise TypeError
      | _ => Raise NonStringKey
      end
  | _ => Raise (PyValueError ("dictionary update sequence element #" ++ py_decimal i
                              ++ " has length " ++ py_decimal (List.length pair)
                              ++ "; 2 is required"))
  end.

Fixpoint update_pairs (i : nat) (elements : list json) : outcome dict :=
  match elements with
  | [] => Ok []
  | element :: rest =>
      kv <- update_pair i element ;;
      kvs <- update_pairs (S i) rest ;;
      Ok (kv :: kvs)
  end.

(** The argument of [dict.update]: a dict gives its items; any other
    iterable is a sequence of key/value pairs, stored one after the other.
    So an empty list or string gives nothing, a non-empty string fails on
    its first character (length 1, 2 required), and [None], booleans and
    numbers are not iterable. *)
Definition update_items (v : json) : outcome dict :=
  match v with
  | JObj e => Ok e
  | _ => elements <- py_iter v ;; update_pairs 0 elements
  end.

(** Hashable values, up to Python's equality on them ([True == 1]). *)
Inductive hkey : Type :=
| HNone
| HInt (n : Z)
| HStr (s : string).

Definition hash_key (v : json) : option hkey :=
  match v with
  | JNull => Some HNone
  | JBool b => Some (HInt (if b then 1 else 0))
  | JNum n => Some (HInt n)
  | JStr s => Some (HStr s)
  | JArr _ | JObj _ => None
  end.

Definition hkey_eqb (a b : hkey) : bool :=
  match a, b with
  | HNone, HNone => true
  | HInt n, HInt m => (n =? m)%Z
  | HStr s, HStr t => s =? t
  | _, _ => false
  end.

(** Python's [==] on values: lists pointwise, dicts as unordered maps. *)
Fixpoint py_eq (a b : json) {struct a} : bool :=
  match a, b with
  | JArr l, JArr m =>
      (fix go (l m : list json) : bool :=
         match l, m with
         | [], [] => true
         | x :: l', y :: m' => py_eq x y && go l' m'
         | _, _ => false
         end) l m
  | JObj d, JObj e =>
      (List.length d =? List.length e)%nat &&
      (fix go (d : dict) : bool :=
         match d with
         | [] => true
         | (k, v) :: d' =>
             match dict_get k e with
             | Some w => py_eq v w && go d'
             | None => false
             end
         end) d
  | JArr _, _ | JObj _, _ | _, JArr _ | _, JObj _ => false
  | _, _ =>
      match hash_key a, hash_key b with
      | Some x, Some y => hkey_eqb x y
      | _, _ => false
      end
  end.

(** [set(l)]: every element must be hashable; of several equal elements the
    first one inserted stays.  The elements are kept here in insertion
    order; the order in which Python iterates over the set is a parameter
    of the resolver below. *)
Definition same_key (x y : json) : bool :=
  match hash_key x, hash_key y with
  | Some a, Some b => hkey_eqb a b
  | _, _ => false
  end.

Fixpoint py_set_from (l : list json) (s : list json) : outcome (list json) :=
  match l with
  | [] => Ok s
  | x :: l' =>
      match hash_key x with
      | None => Raise TypeError
      | Some _ => py_set_from l' (if existsb (same_key x) s then s else s ++ [x])
      end
  end.

Definition py_set (l : list json) : outcome (list json) := py_set_from l [].

(* ================================================================== *)
(** * The reference resolver *)

(** The walk of an internal reference:
    [for part in ref_path: resolved = resolved.get(part); if resolved is None: break]. *)
Fixpoint walk_internal (resolved : json) (ref_path : list string) : outcome json :=
  match ref_path with
  | [] => Ok resolved
  | part :: rest =>
      match resolved with
      | JObj d =>
          match dict_get part d with
          | None | Some JNull => Ok JNull
          | Some v => walk_internal v rest
          end
      | _ => Raise AttributeError
      end
  end.

(** The walk of the fragment of an external reference, which has no test for
    [None]: [for part in ref_fragment: resolved = resolved.get(part)]. *)
Fixpoint walk_external (resolved : json) (ref_fragment : list string) : outcome json :=
  match ref_fragment with
  | [] => Ok resolved
  | part :: rest =>
      match resolved with
      | JObj d =>
          walk_external (match dict_get part d with Some v => v | None => JNull end) rest
      | _ => Raise AttributeError
      end
  end.

(** The dict [merged] of the [allOf] branch: its keys are fixed, so it is a
    record; [merged_json] gives the dict back, in the order Python inserts
    the keys. *)
Record merged : Type := {
  m_properties : dict;
  m_required : list json;
  m_additional : option json
}.

Definition merged_init : merged :=
  {| m_properties := []; m_required := []; m_additional := None |}.

(** [d.get(k, default)] *)
Definition get_default (k : string) (d : dict) (default : json) : json :=
  match dict_get k d with Some v => v | None => default end.

(** The body of the [allOf] loop once the member is resolved. *)
Definition merge_member (m : merged) (resolved : json) : outcome merged :=
  match resolved with
  | JObj r =>
      ps <- update_items (get_default "properties" r (JObj [])) ;;
      rs <- py_iter (get_default "required" r (JArr [])) ;;
      Ok {| m_properties := dict_update (m_properties m) ps;
            m_required := m_required m ++ rs;
            m_additional := match dict_get "additionalProperties" r with
                            | Some a => Some a
                            | None => m_additional m
                            end |}
  | _ => Ok m
  end.

Definition merged_json (m : merged) (required : list json) : json :=
  JObj ([("type", JStr "object");
         ("properties", JObj (m_properties m));
         ("required", JArr required)]
        ++ match m_additional m with
           | Some a => [("additionalProperties", a)]
           | None => []
           end).

Section Resolver.

(** [open(p)] followed by [json.load]: the parsed document, or [None] when
    either fails. *)
Variable read_json : string -> option json.

(** [str(Path(file_path).parent / rel)] *)
Variable sibling : string -> string -> string.

(** The order in which [list(s)] enumerates the elements of a set, given
    in insertion order. *)
Variable set_order : list json -> list json.

(** [list(set(l))] *)
Definition list_set (l : list json) : outcome (list json) :=
  s <- py_set l ;; Ok (set_order s).

Fixpoint resolve_refs (fuel : nat) (schema root_schema : json) (file_path : string)
  : outcome json :=
  match fuel with
  | O => OutOfFuel
  | S fuel' =>
    if negb (truthy schema) then Ok schema else
    match schema with
    | JObj d =>
      match dict_get "$ref" d with
      | Some (JStr ref) =>
          if startswith "#/" ref then
            resolved <- walk_internal root_schema (split "/" (drop 2 ref)) ;;
            resolve_refs fuel' resolved root_schema file_path
          else if startswith "./" ref then
            let ref_parts := split "#" ref in
            let ref_file := sibling file_path (hd "" ref_parts) in
            match read_json ref_file with
            | None => Raise OSError
            | Some ref_content =>
                match ref_parts with
                | _ :: String c frag :: _ =>
                    resolved <- walk_external ref_content (split "/" frag) ;;
                    resolve_refs fuel' resolved ref_content ref_file
                | _ => Ok ref_content
                end
            end
          else Ok schema
      | Some _ => Raise AttributeError
      | None =>
        match dict_get "allOf" d with
        | Some members =>
            subs <- py_iter members ;;
            m <- foldM (fun m sub_schema =>
                          resolved <- resolve_refs fuel' sub_schema root_schema file_path ;;
                          merge_member m resolved)
                       subs merged_init ;;
            required <- list_set (m_required m) ;;
            Ok (merged_json m required)
        | None =>
            fields <- mapM (fun kv =>
                              v <- resolve_refs fuel' (snd kv) root_schema file_path ;;
                              Ok (fst kv, v))
                           d ;;
            Ok (JObj fields)
        end
      end
    | JArr items =>
        items' <- mapM (fun item => resolve_refs fuel' item root_schema file_path) items ;;
        Ok (JArr items')
    | _ => Ok schema
    end
  end.

End Resolver.

(* ================================================================== *)
(** * The schema loader *)

(** [sorted(l, key=key, reverse=reverse)].  Python's sort is stable, also
    with [reverse=True]; a stable sort is determined by the order, so the
    insertion sort below computes the same list.  Python compares strings
    by code point, which on UTF-8 encoded strings is the byte order of
    [String.ltb]. *)
Fixpoint insert_by {A} (key : A -> string) (reverse : bool) (x : A) (l : list A) : list A :=
  match l with
  | [] => [x]
  | y :: ys =>
      if (if reverse then String.ltb (key x) (key y) else String.ltb (key y) (key x))
      then y :: insert_by key reverse x ys
      else x :: y :: ys
  end.

Fixpoint sorted {A} (key : A -> string) (reverse : bool) (l : list A) : list A :=
  match l with
  | [] => []
  | x :: xs => insert_by key reverse x (sorted key reverse xs)
  end.

(** [str.upper] and [str.lower] on one ASCII character (other bytes are
    left as they are). *)
Definition upper (c : ascii) : ascii :=
  let n := nat_of_ascii c in
  if (97 <=? n)%nat && (n <=? 122)%nat then ascii_of_nat (n - 32) else c.

Definition lower (c : ascii) : ascii :=
  let n := nat_of_ascii c in
  if (65 <=? n)%nat && (n <=? 90)%nat then ascii_of_nat (n + 32) else c.

Fixpoint map_string (f : ascii -> ascii) (s : string) : string :=
  match s with
  | EmptyString => EmptyString
  | String a s' => String (f a) (map_string f s')
  end.

(** [word.capitalize()] *)
Definition capitalize (word : string) : string :=
  match word with
  | EmptyString => EmptyString
  | String a s' => String (upper a) (map_string lower s')
  end.

(** [''.join(word.capitalize() for word in event_name.replace('-', '_').split('_')) + 'Properties'] *)
Definition event_name_to_type (event_name : string) : string :=
  let replaced := map_string (fun c => if Ascii.eqb c "-" then "_"%char else c) event_name in
  String.concat "" (map capitalize (split "_" replaced)) ++ "Properties".

(** The dict appended to [schemas] for each event. *)
Record ResolvedEvent : Type := {
  event_name : string;
  type_name : string;
  schema : json;
  properties : json;
  required : json
}.

(** [x in container] *)
Definition py_contains (container x : json) : outcome bool :=
  match container with
  | JObj d =>
      match hash_key x with
      | None => Raise TypeError
      | Some _ => Ok (match x with JStr k => has_key k d | _ => false end)
      end
  | JArr l => Ok (existsb (py_eq x) l)
  | JStr s =>
      match x with
      | JStr p => Ok (is_substring p s)
      | _ => Raise TypeError
      end
  | _ => Raise TypeError
  end.

(** [container[k]] for a string [k] *)
Definition py_index (container : json) (k : string) : outcome json :=
  match container with
  | JObj d =>
      match dict_get k d with
      | Some v => Ok v
      | None => Raise KeyError
      end
  | _ => Raise TypeError
  end.

(** [content['events'].items()] under [if 'events' in content], nothing
    otherwise. *)
Definition events_of (content : json) : outcome dict :=
  present <- py_contains content (JStr "events") ;;
  if present then
    events <- py_index content "events" ;;
    match events with
    | JObj evs => Ok evs
    | _ => Raise AttributeError
    end
  else Ok [].

Section Loader.

Variable read_json : string -> option json.
Variable sibling : string -> string -> string.
Variable set_order : list json -> list json.

(** [glob.glob(pattern, recursive=True)]: the matching paths, in the
    order the file system enumerates them. *)
Variable glob : string -> list string.

(** The body of the loop over the events of one file. *)
Definition load_event (fuel : nat) (content : json) (file_path : string)
           (item : string * json) : outcome ResolvedEvent :=
  resolved <- resolve_refs read_json sibling set_order fuel (snd item) content file_path ;;
  match resolved with
  | JObj r =>
      Ok {| event_name := fst item;
            type_name := event_name_to_type (fst item);
            schema := resolved;
            properties := get_default "properties" r (JObj []);
            required := get_default "required" r (JArr []) |}
  | _ => Raise AttributeError
  end.

(** The body of the loop over the files. *)
Definition load_file (fuel : nat) (file_path : string) : outcome (list ResolvedEvent) :=
  match read_json file_path with
  | None => Raise OSError
  | Some content =>
      events <- events_of content ;;
      mapM (load_event fuel content file_path) events
  end.

Definition load_schemas (fuel : nat) (pattern : string) : outcome (list ResolvedEvent) :=
  let schema_files := sorted (fun p => p) false (glob pattern) in
  per_file <- mapM (load_file fuel) schema_files ;;
  Ok (sorted event_name true (concat per_file)).

End Loader.

(** The keys of the [SCHEMAS] literal, and the members of [EventName], in
    the order [generate_python_code] writes them: one for each element of
    [schemas], in the order of the list. *)
Definition schema_table_keys (schemas : list ResolvedEvent) : list string :=
  map event_name schemas.

(* ================================================================== *)
(** * The generated wrapper *)

Inductive ValidationMode : Type := STRICT | WARNING | DISABLED.

(** One call [posthog.capture(distinct_id=, event=, properties=, **kwargs)]
    received by the wrapped SDK. *)
Record sdk_call : Type := {
  c_distinct_id : string;
  c_event : string;
  c_properties : json;
  c_kwargs : dict
}.

(** What a call of the wrapper can change: the calls the SDK has received
    and the warnings given to [warnings.warn], oldest first. *)
Record world : Type := {
  sdk_calls : list sdk_call;
  warned : list string
}.

(** The f-strings of [_validate]:
    [f"Missing required field: {field}"] and
    [f"Invalid enum value for {field}: {value}"]. *)
Definition missing_required (py_str : json -> string) (field : json) : string :=
  "Missing required field: " ++ py_str field.

Definition invalid_enum (py_str : json -> string) (field : string) (value : json) : string :=
  "Invalid enum value for " ++ field ++ ": " ++ py_str value.

Arguments missing_required : simpl never.
Arguments invalid_enum : simpl never.

Section Wrapper.

(** Python's [str(v)], used by the f-strings. *)
Variable py_str : json -> string.

(** The collaborators of the wrapper.  [warnings.warn(msg)] returns after
    the warning is reported or ignored, or raises when the warnings filter
    has the action ['error'] for it; [posthog.capture(...)] returns or
    raises.  Neither is decided by the wrapper: [warn_raises] and
    [sdk_raises] give the exception, if any, from the warnings given and
    the calls received so far. *)
Variable warn_raises : list string -> string -> option exn.
Variable sdk_raises : list sdk_call -> sdk_call -> option exn.

(** The table [SCHEMAS] and the mode chosen at construction. *)
Variable schemas : dict.
Variable validation_mode : ValidationMode.

(** [if field not in properties: errors.append(...)] *)
Definition check_required (properties : dict) (errors : list string) (field : json)
  : outcome (list string) :=
  present <- py_contains (JObj properties) field ;;
  if present then Ok errors
  else Ok (List.app errors [missing_required py_str field]).

(** The body of the loop over [properties.items()]. *)
Definition check_property (schema : dict) (errors : list string) (item : string * json)
  : outcome (list string) :=
  let field := fst item in
  let value := snd item in
  declared <- py_contains (get_default "properties" schema (JObj [])) (JStr field) ;;
  if declared then
    props <- py_index (JObj schema) "properties" ;;
    prop_schema <- py_index props field ;;
    has_enum <- py_contains prop_schema (JStr "enum") ;;
    if has_enum then
      enum <- py_index prop_schema "enum" ;;
      allowed <- py_contains enum value ;;
      if allowed then Ok errors
      else Ok (List.app errors [invalid_enum py_str field value])
    else Ok errors
  else Ok errors.

Definition _validate (event_name : string) (properties : dict)
  : outcome (option (list string)) :=
  match validation_mode with
  | DISABLED => Ok None
  | _ =>
      match dict_get event_name schemas with
      | None => Ok None
      | Some schema =>
          if negb (truthy schema) then Ok None else
          match schema with
          | JObj sd =>
              required <- py_iter (get_default "required" sd (JArr [])) ;;
              errors <- foldM (check_required properties) required [] ;;
              errors <- foldM (check_property sd) properties errors ;;
              Ok (match errors with [] => None | _ => Some errors end)
          | _ => Raise AttributeError
          end
      end
  end.

(** [properties or {}] *)
Definition or_empty (properties : option dict) : dict :=
  match properties with
  | Some p => p
  | None => []
  end.

(** [posthog.capture(distinct_id=, event=, properties=, **kwargs)]: the
    SDK receives the call, and returns or raises. *)
Definition posthog_capture (w : world) (c : sdk_call) : outcome unit * world :=
  (match sdk_raises (sdk_calls w) c with
   | Some e => Raise e
   | None => Ok tt
   end,
   {| sdk_calls := (sdk_calls w ++ [c])%list; warned := warned w |}).

(** [warnings.warn(msg)] *)
Definition warnings_warn (w : world) (msg : string) : outcome unit * world :=
  (match warn_raises (warned w) msg with
   | Some e => Raise e
   | None => Ok tt
   end,
   {| sdk_calls := sdk_calls w; warned := (warned w ++ [msg])%list |}).

(** Two statements in sequence: the second runs in the world the first
    leaves, unless the first raised. *)
Definition and_then (first : outcome unit * world)
           (second : world -> outcome unit * world) : outcome unit * world :=
  match first with
  | (Ok _, w) => second w
  | (Raise e, w) => (Raise e, w)
  | (OutOfFuel, w) => (OutOfFuel, w)
  end.

(** [capture]: the outcome of the call and the world it leaves. *)
Definition capture (w : world) (distinct_id event : string)
           (properties : option dict) (kwargs : dict) : outcome unit * world :=
  let properties := or_empty properties in
  match _validate event properties with
  | Ok errors =>
      and_then
        match errors with
        | Some (e :: es) =>
            let errors := e :: es in
            let error_msg := "Validation failed for event '" ++ event ++ "': "
                             ++ py_str (JArr (map JStr errors)) in
            match validation_mode with
            | STRICT => (Raise (PyValueError error_msg), w)
            | WARNING =>
                and_then
                  (warnings_warn w error_msg)
                  (fun w =>
                     posthog_capture w
                       {| c_distinct_id := distinct_id;
                          c_event := "$schema_validation_warning";
                          c_properties := JObj [("event", JStr event);
                                                ("errors", JArr (map JStr errors));
                                                ("properties", JObj properties)];
                          c_kwargs := [] |})
            | DISABLED => (Ok tt, w)
            end
        | _ => (Ok tt, w)
        end
        (fun w =>
           posthog_capture w
             {| c_distinct_id := distinct_id; c_event := event;
                c_properties := JObj properties; c_kwargs := kwargs |})
  | Raise e => (Raise e, w)
  | OutOfFuel => (OutOfFuel, w)
  end.

End Wrapper.

(* ================================================================== *)
(** * Notions used by the statements *)

(** No dict reachable in [j] has a ['$ref'] or an ['allOf'] key. *)
Fixpoint ref_free (j : json) : bool :=
  match j with
  | JArr items => forallb ref_free items
  | JObj d =>
      negb (has_key "$ref" d) && negb (has_key "allOf" d)
      && forallb (fun kv => ref_free (snd kv)) d
  | _ => true
  end.

(** The nesting depth of a value: the recursion depth [resolve_refs] needs
    on a value without references. *)
Fixpoint depth (j : json) : nat :=
  match j with
  | JArr items => S (fold_right (fun x acc => Nat.max (depth x) acc) 0 items)
  | JObj d => S (fold_right (fun kv acc => Nat.max (depth (snd kv)) acc) 0 d)
  | _ => 1
  end.

(** The last entry named [k] in a list of entries. *)
Fixpoint last_binding (k : string) (entries : dict) : option json :=
  match entries with
  | [] => None
  | (k', v) :: rest =>
      match last_binding k rest with
      | Some w => Some w
      | None => if k' =? k then Some v else None
      end
  end.

(** The entries of the ['properties'] of a resolved [allOf] member (a member
    that is not a dict takes no part in the merge). *)
Definition member_properties (resolved : json) : dict :=
  match resolved with
  | JObj r =>
      match dict_get "properties" r with
      | Some (JObj e) => e
      | _ => []
      end
  | _ => []
  end.

(** The names under ['required'] of a resolved [allOf] member. *)
Definition member_required (resolved : json) : list json :=
  match resolved with
  | JObj r =>
      match py_iter (get_default "required" r (JArr [])) with
      | Ok l => l
      | _ => []
      end
  | _ => []
  end.

(** The ['additionalProperties'] of the last member that defines it. *)
Fixpoint last_additional (members : list json) : option json :=
  match members with
  | [] => None
  | r :: rest =>
      match last_additional rest with
      | Some a => Some a
      | None =>
          match r with
          | JObj d => dict_get "additionalProperties" d
          | _ => None
          end
      end
  end.

(** A resolved member the merge accepts: not a dict, or a dict whose
    ['properties'], if any, is an object and whose ['required'], if any, is
    an array of strings. *)
Definition is_name (v : json) : bool :=
  match v with JStr _ => true | _ => false end.

Definition mergeable (resolved : json) : bool :=
  match resolved with
  | JObj r =>
      match dict_get "properties" r with
      | None | Some (JObj _) => true
      | Some _ => false
      end
      && match dict_get "required" r with
         | None => true
         | Some (JArr l) => forallb is_name l
         | Some _ => false
         end
  | _ => true
  end.

(** The schema of a property as JSON Schema has it: an object whose
    ['enum'], if any, is an array. *)
Definition property_schema_ok (prop_schema : json) : bool :=
  match prop_schema with
  | JObj p =>
      match dict_get "enum" p with
      | None | Some (JArr _) => true
      | Some _ => false
      end
  | _ => false
  end.

(** A well-formed event schema, as far as [_validate] reads it:
    ['required'], if any, is an array of strings and ['properties'], if
    any, is an object of property schemas. *)
Definition well_formed_schema (sd : dict) : bool :=
  match dict_get "required" sd with
  | None => true
  | Some (JArr l) => forallb is_name l
  | Some _ => false
  end
  && match dict_get "properties" sd with
     | None => true
     | Some (JObj props) => forallb (fun kv => property_schema_ok (snd kv)) props
     | Some _ => false
     end.

(** The required fields of an event schema. *)
Definition required_fields (sd : dict) : list json :=
  match dict_get "required" sd with
  | Some (JArr l) => l
  | _ => []
  end.

(** A reference that the resolver follows and whose target it resolves: an
    internal pointer, or a file with a fragment. *)
Definition followed_ref (ref : string) : bool :=
  startswith "#/" ref
  || (startswith "./" ref
      && match split "#" ref with
         | _ :: String _ _ :: _ => true
         | _ => false
         end).

(** Every ['$ref'] string reachable in [j] is of that kind. *)
Fixpoint refs_followed (j : json) : bool :=
  match j with
  | JArr items => forallb refs_followed items
  | JObj d =>
      match dict_get "$ref" d with
      | Some (JStr ref) => followed_ref ref
      | _ => true
      end
      && forallb (fun kv => refs_followed (snd kv)) d
  | _ => true
  end.

(** Neither ['$ref'] nor ['allOf'] occurs in [j] as a string value, which
    a list of pairs under ['properties'] would turn into a key. *)
Definition is_keyword (s : string) : bool := (s =? "$ref") || (s =? "allOf").

Fixpoint no_keyword_value (j : json) : bool :=
  match j with
  | JStr s => negb (is_keyword s)
  | JArr items => forallb no_keyword_value items
  | JObj d => forallb (fun kv => no_keyword_value (snd kv)) d
  | _ => true
  end.

(** A document the resolver leaves no reference of: its references are of
    the two kinds, and it holds no such string. *)
Definition resolvable (j : json) : bool := refs_followed j && no_keyword_value j.

(** A value without references that holds no such string either. *)
Definition tidy (j : json) : bool := ref_free j && no_keyword_value j.

(** An entry that may stand in a dict without references. *)
Definition plain_entry (kv : string * json) : Prop :=
  fst kv <> "$ref" /\ fst kv <> "allOf" /\ ref_free (snd kv) = true.

Definition tidy_entry (kv : string * json) : Prop :=
  fst kv <> "$ref" /\ fst kv <> "allOf" /\ tidy (snd kv) = true.

(** A state of the merge that holds no reference. *)
Definition merged_tidy (m : merged) : Prop :=
  Forall tidy_entry (m_properties m)
  /\ Forall (fun x => tidy x = true) (m_required m)
  /\ (forall a, m_additional m = Some a -> tidy a = true).

(** [r'] is [r] unless [r] is the lack of fuel. *)
Definition settles_as {A} (r r' : outcome A) : Prop :=
  r <> OutOfFuel -> r' = r.

(** The order of the sort: ascending, or descending under [reverse]. *)
Definition in_order (reverse : bool) (a b : string) : Prop :=
  if reverse then String.leb b a = true else String.leb a b = true.

Definition keys_in_order {A} (key : A -> string) (reverse : bool) (x y : A) : Prop :=
  in_order reverse (key x) (key y).

Section References.

Variable read_json : string -> option json.
Variable sibling : string -> string -> string.

(** A state of the resolution: the fragment, the root document and the
    path of the file it is resolved against. *)
Definition rstate : Type := (json * json * string)%type.

(** One step along a chain of references: the fragment a ['$ref'] points
    to, with the root and the file the resolver continues in. *)
Definition ref_step (st : rstate) : option rstate :=
  match st with
  | (JObj d, root_schema, file_path) =>
      match dict_get "$ref" d with
      | Some (JStr ref) =>
          if startswith "#/" ref then
            match walk_internal root_schema (split "/" (drop 2 ref)) with
            | Ok resolved => Some (resolved, root_schema, file_path)
            | _ => None
            end
          else if startswith "./" ref then
            let ref_parts := split "#" ref in
            let ref_file := sibling file_path (hd "" ref_parts) in
            match read_json ref_file, ref_parts with
            | Some ref_content, _ :: String c frag :: _ =>
                match walk_external ref_content (split "/" frag) with
                | Ok resolved => Some (resolved, ref_content, ref_file)
                | _ => None
                end
            | _, _ => None
            end
          else None
      | _ => None
      end
  | _ => None
  end.

(** [n] steps along the chain. *)
Fixpoint ref_steps (n : nat) (st : rstate) : option rstate :=
  match n with
  | O => Some st
  | S n' =>
      match ref_step st with
      | Some st' => ref_steps n' st'
      | None => None
      end
  end.

(** The recursive calls of [resolve_refs] on a state, in the order in
    which it makes them: the target of a reference, the members of an
    ['allOf'], the values of a dict, the items of a list. *)
Definition resolve_calls (st : rstate) : list rstate :=
  match st with
  | (schema, root_schema, file_path) =>
      if negb (truthy schema) then [] else
      match schema with
      | JObj d =>
          match dict_get "$ref" d with
          | Some _ =>
              match ref_step st with
              | Some st' => [st']
              | None => []
              end
          | None =>
              match dict_get "allOf" d with
              | Some members =>
                  match py_iter members with
                  | Ok subs => map (fun sub_schema => (sub_schema, root_schema, file_path)) subs
                  | _ => []
                  end
              | None => map (fun kv => (snd kv, root_schema, file_path)) d
              end
          end
      | JArr items => map (fun item => (item, root_schema, file_path)) items
      | _ => []
      end
  end.

(** The state reached from [st] by a path of calls: at each state the call
    with the given index. *)
Fixpoint follow_calls (path : list nat) (st : rstate) : option rstate :=
  match path with
  | [] => Some st
  | i :: path' =>
      match nth_error (resolve_calls st) i with
      | Some st' => follow_calls path' st'
      | None => None
      end
  end.

End References.

(* ================================================================== *)
(** * The type projector and the typed-dict section of the emitter *)

(** The line feed and the double quote of the emitted text. *)
Definition nl : string := String "010"%char EmptyString.
Definition dq : string := String "034"%char EmptyString.

(** A replacement field of an f-string: [str(v)], which for a string is the
    string itself. *)
Definition fstr (py_str : json -> string) (v : json) : string :=
  match v with
  | JStr s => s
  | _ => py_str v
  end.

(** [len(v)]; the length of a string is counted in bytes, which is Python's
    count for ASCII text. *)
Definition py_len (v : json) : outcome nat :=
  match v with
  | JObj d => Ok (List.length d)
  | JArr l => Ok (List.length l)
  | JStr s => Ok (String.length s)
  | _ => Raise TypeError
  end.

Section Projector.

Variable py_str : json -> string.

(** The member [f'"{v}"'] of a literal type. *)
Definition quoted (v : json) : string := dq ++ fstr py_str v ++ dq.

(** [json_schema_to_python_type].  The recursive call is on
    [schema.get('items', {})]: the inner loop looks ['items'] up, and the
    default [{}] projects to ['Any']. *)
Fixpoint json_schema_to_python_type (schema : json) : outcome string :=
  if negb (truthy schema) then Ok "Any" else
  match schema with
  | JObj d =>
      let schema_type := get_default "type" d JNull in
      if py_eq schema_type (JStr "string") then
        if truthy (get_default "enum" d JNull) then
          values <- py_iter (get_default "enum" d JNull) ;;
          Ok ("Literal[" ++ String.concat ", " (map quoted values) ++ "]")
        else Ok "str"
      else if py_eq schema_type (JStr "number") then Ok "float"
      else if py_eq schema_type (JStr "integer") then Ok "int"
      else if py_eq schema_type (JStr "boolean") then Ok "bool"
      else if py_eq schema_type (JStr "array") then
        items_type <- (fix items_of (fields : dict) : outcome string :=
                         match fields with
                         | [] => Ok "Any"
                         | (k, v) :: fields' =>
                             if k =? "items" then json_schema_to_python_type v
                             else items_of fields'
                         end) d ;;
        Ok ("List[" ++ items_type ++ "]")
      else if py_eq schema_type (JStr "object") then
        if truthy (get_default "additionalProperties" d JNull) then Ok "Dict[str, Any]"
        else if truthy (get_default "properties" d JNull) then Ok "Dict[str, Any]"
        else Ok "Dict[str, Any]"
      else Ok "Any"
  | _ => Raise AttributeError
  end.

(** [len(schema['properties']) > len(schema['required'])] *)
Definition has_optional (ev : ResolvedEvent) : outcome bool :=
  n_properties <- py_len (properties ev) ;;
  n_required <- py_len (required ev) ;;
  Ok (n_required <? n_properties)%nat.

(** The body of the loop over [schema['properties'].items()]: the lines the
    property adds to the class. *)
Definition typed_dict_field (required : json) (item : string * json) : outcome string :=
  let prop_name := fst item in
  let prop_schema := snd item in
  is_required <- py_contains required (JStr prop_name) ;;
  prop_type <- json_schema_to_python_type prop_schema ;;
  description <- match prop_schema with
                 | JObj p => Ok (get_default "description" p (JStr ""))
                 | _ => Raise AttributeError
                 end ;;
  let doc := if truthy description
             then "    " ++ dq ++ dq ++ dq ++ fstr py_str description ++ dq ++ dq ++ dq ++ nl
             else "" in
  let prop_type := if is_required then prop_type else "Optional[" ++ prop_type ++ "]" in
  Ok (doc ++ "    " ++ prop_name ++ ": " ++ prop_type ++ nl).

(** The body of the loop over [schemas]: the class of one event. *)
Definition typed_dict_class (ev : ResolvedEvent) : outcome string :=
  optional <- has_optional ev ;;
  let header := "class " ++ type_name ev ++ "(TypedDict"
                ++ (if optional then ", total=False" else "") ++ "):" ++ nl in
  if negb (truthy (properties ev)) then Ok (header ++ "    pass" ++ nl ++ nl) else
  match properties ev with
  | JObj props =>
      lines <- mapM (typed_dict_field (required ev)) props ;;
      Ok (header ++ String.concat "" lines ++ nl)
  | _ => Raise AttributeError
  end.

(** The text [typed_dicts] of [generate_python_code]: the classes, then the
    type of the event names. *)
Definition typed_dicts (schemas : list ResolvedEvent) : outcome string :=
  classes <- mapM typed_dict_class schemas ;;
  Ok ("# ============ Event Types ============" ++ nl ++ nl
      ++ String.concat "" classes
      ++ "EventName = Literal["
      ++ String.concat ", " (map (fun ev => dq ++ event_name ev ++ dq) schemas)
      ++ "]" ++ nl ++ nl).

End Projector.

(** The type hints the projector writes. *)
Inductive type_hint (quoted_values : list string -> Prop) : string -> Prop :=
| hint_any : type_hint quoted_values "Any"
| hint_str : type_hint quoted_values "str"
| hint_float : type_hint quoted_values "float"
| hint_int : type_hint quoted_values "int"
| hint_bool : type_hint quoted_values "bool"
| hint_dict : type_hint quoted_values "Dict[str, Any]"
| hint_literal (members : list string) :
    quoted_values members ->
    type_hint quoted_values ("Literal[" ++ String.concat ", " members ++ "]")
| hint_list (t : string) :
    type_hint quoted_values t -> type_hint quoted_values ("List[" ++ t ++ "]").

(** A schema the projector can walk: an object whose ['enum'], if any, is
    an array and whose ['items'], if any, is such a schema again; or a
    falsy value. *)
Fixpoint projectable (schema : json) : bool :=
  negb (truthy schema)
  || match schema with
     | JObj d =>
         match dict_get "enum" d with
         | None | Some (JArr _) => true
         | Some _ => false
         end
         && (fix items_ok (fields : dict) : bool :=
               match fields with
               | [] => true
               | (k, v) :: fields' =>
                   if k =? "items" then projectable v else items_ok fields'
               end) d
     | _ => false
     end.

(** The stem of the type name: the words of the event name, capitalized and
    joined. *)
Definition pascal_case (event_name : string) : string :=
  String.concat ""
    (map capitalize
         (split "_" (map_string (fun c => if Ascii.eqb c "-" then "_"%char else c)
                                event_name))).

(** Every byte of the string is an ASCII character. *)
Fixpoint is_ascii (s : string) : bool :=
  match s with
  | EmptyString => true
  | String a s' => (nat_of_ascii a <? 128)%nat && is_ascii s'
  end.

(** The character [c] occurs in [s]. *)
Fixpoint occurs (c : ascii) (s : string) : bool :=
  match s with
  | EmptyString => false
  | String a s' => Ascii.eqb a c || occurs c s'
  end.

(** The names of the events of one file, in the order of the document. *)
Definition file_event_names (read_json : string -> option json) (file_path : string)
  : list string :=
  match read_json file_path with
  | Some content =>
      match events_of content with
      | Ok events => map fst events
      | _ => []
      end
  | None => []
  end.

(** What [load_event] derives from an event's name and resolved schema. *)
Definition derived_from_schema (ev : ResolvedEvent) : Prop :=
  type_name ev = event_name_to_type (event_name ev)
  /\ exists r, schema ev = JObj r
               /\ properties ev = get_default "properties" r (JObj [])
               /\ required ev = get_default "required" r (JArr []).

(** The errors a well-formed schema asks for: a required name that is not a
    key of the properties, and a value outside the ['enum'] of its
    property. *)
Definition is_absent (properties : dict) (field : json) : bool :=
  match field with
  | JStr name => negb (has_key name properties)
  | _ => true
  end.

Definition enum_of (sd : dict) (field : string) : option (list json) :=
  match dict_get "properties" sd with
  | Some (JObj props) =>
      match dict_get field props with
      | Some (JObj p) =>
          match dict_get "enum" p with
          | Some (JArr allowed) => Some allowed
          | _ => None
          end
      | _ => None
      end
  | _ => None
  end.

Definition outside_enum (sd : dict) (item : string * json) : bool :=
  match enum_of sd (fst item) with
  | Some allowed => negb (existsb (py_eq (snd item)) allowed)
  | None => false
  end.

Definition expected_errors (py_str : json -> string) (sd properties : dict) : list string :=
  map (missing_required py_str) (filter (is_absent properties) (required_fields sd))
  ++ map (fun item => invalid_enum py_str (fst item) (snd item))
         (filter (outside_enum sd) properties).

(** [errors if errors else None] *)
Definition errors_or_None (errors : list string) : option (list string) :=
  match errors with
  | [] => None
  | _ => Some errors
  end.

(** An event whose class the emitter can write: its properties are an
    object of projectable object schemas and its required names an array. *)
Definition emittable (ev : ResolvedEvent) : Prop :=
  exists props names,
    properties ev = JObj props
    /\ required ev = JArr names
    /\ Forall (fun kv => (exists p, snd kv = JObj p) /\ projectable (snd kv) = true) props.

(** Every property of the event has an object for its schema. *)
Definition property_schemas_are_objects (ev : ResolvedEvent) : Prop :=
  forall props, properties ev = JObj props ->
                Forall (fun kv => exists p, snd kv = JObj p) props.

(** No reference reachable in [j] names a file: every ['$ref'] string is an
    internal pointer or has a scheme the resolver does not follow. *)
Fixpoint no_file_ref (j : json) : bool :=
  match j with
  | JArr items => forallb no_file_ref items
  | JObj d =>
      match dict_get "$ref" d with
      | Some (JStr ref) => startswith "#/" ref || negb (startswith "./" ref)
      | _ => true
      end
      && forallb (fun kv => no_file_ref (snd kv)) d
  | _ => true
  end.

(* ================================================================== *)
(** * Example documents *)

(** Files of a schema directory: [str(Path(file_path).parent / "./x")] is
    ["schemas/x"] for every file directly in [schemas/]. *)
Definition ex_sibling (file_path rel : string) : string := "schemas/" ++ drop 2 rel.

(** A set enumerated in insertion order. *)
Definition ex_set_order (l : list json) : list json := l.

Definition ex_string : json := JObj [("type", JStr "string")].

(** [schemas/common.json]: a document that itself uses a reference. *)
Definition ex_common : json :=
  JObj [("type", JStr "object");
        ("properties", JObj [("user", JObj [("$ref", JStr "#/definitions/User")])]);
        ("definitions", JObj [("User", ex_string)])].

(** [schemas/whole.schema.json]: an event that refers to a whole file. *)
Definition ex_whole : json :=
  JObj [("events", JObj [("signed_up", JObj [("$ref", JStr "./common.json")])])].

(** [schemas/deep.schema.json]: an event that refers into [common.json],
    below a definition that is not there. *)
Definition ex_deep_ref : json :=
  JObj [("$ref", JStr "./common.json#/definitions/Missing/properties")].

(** A reference with a scheme the resolver does not know. *)
Definition ex_remote_ref : json :=
  JObj [("$ref", JStr "https://example.com/user.json")].

(** Two definitions that refer to each other, and an event that enters the
    cycle. *)
Definition ex_ref_A : json := JObj [("$ref", JStr "#/definitions/A")].
Definition ex_ref_B : json := JObj [("$ref", JStr "#/definitions/B")].
Definition ex_cyclic : json :=
  JObj [("definitions", JObj [("A", ex_ref_B); ("B", ex_ref_A)]);
        ("events", JObj [("looping", ex_ref_A)])].

(** A definition that refers to itself from inside its ['properties']. *)
Definition ex_ref_Node : json := JObj [("$ref", JStr "#/definitions/Node")].

Definition ex_linked : json :=
  JObj [("definitions",
         JObj [("Node", JObj [("type", JStr "object");
                              ("properties", JObj [("next", ex_ref_Node)])])]);
        ("events", JObj [("node_added", ex_ref_Node)])].

(** Two schema files with one event each, and a file system that
    enumerates them in the opposite order. *)
Definition ex_alpha : json :=
  JObj [("events", JObj [("alpha_event", JObj [("type", JStr "object")])])].

Definition ex_beta : json :=
  JObj [("events", JObj [("beta_event", JObj [("type", JStr "object")])])].

(** [schemas/typo.schema.json]: an event whose reference names a definition
    that is not there. *)
Definition ex_typo : json :=
  JObj [("definitions", JObj [("PageView", ex_string)]);
        ("events", JObj [("page_viewed", JObj [("$ref", JStr "#/definitions/PageVeiw")])])].

Definition ex_glob (pattern : string) : list string :=
  if pattern =? "schemas/events/*.schema.json"
  then ["schemas/events/b.schema.json"; "schemas/events/a.schema.json"]
  else if pattern =? "schemas/whole*.schema.json"
  then ["schemas/whole.schema.json"]
  else if pattern =? "schemas/typo*.schema.json"
  then ["schemas/typo.schema.json"]
  else [].

Definition ex_read_json (p : string) : option json :=
  if p =? "schemas/common.json" then Some ex_common
  else if p =? "schemas/events/a.schema.json" then Some ex_alpha
  else if p =? "schemas/events/b.schema.json" then Some ex_beta
  else if p =? "schemas/whole.schema.json" then Some ex_whole
  else if p =? "schemas/typo.schema.json" then Some ex_typo
  else if p =? "schemas/cyclic.schema.json" then Some ex_cyclic
  else None.

(** A composition of a shared base and an event's own properties. *)
Definition ex_base : json :=
  JObj [("type", JStr "object");
        ("properties", JObj [("id", ex_string); ("source", ex_string)]);
        ("required", JArr [JStr "id"]);
        ("additionalProperties", JBool true)].

Definition ex_own : json :=
  JObj [("properties", JObj [("id", JObj [("type", JStr "integer")]);
                             ("plan", JObj [("type", JStr "string");
                                            ("enum", JArr [JStr "free"; JStr "paid"])])]);
        ("required", JArr [JStr "plan"; JStr "id"]);
        ("additionalProperties", JBool false)].

Definition ex_allOf_members : list json :=
  [JObj [("$ref", JStr "#/definitions/Base")]; ex_own].

Definition ex_allOf : dict := [("allOf", JArr ex_allOf_members)].

Definition ex_allOf_root : json :=
  JObj [("definitions", JObj [("Base", ex_base)]);
        ("events", JObj [("plan_chosen", JObj ex_allOf)])].

(** A fragment with both a reference and a composition. *)
Definition ex_ref_and_allOf : dict :=
  [("$ref", JStr "#/definitions/User"); ("allOf", JArr [ex_own])].

(** A schema table with one event, and Python's [str] on the values the
    examples format: a string, and a list of strings that need no escape. *)
Definition ex_plan_schema : dict :=
  [("type", JStr "object");
   ("properties", JObj [("plan", JObj [("type", JStr "string");
                                       ("enum", JArr [JStr "free"; JStr "paid"])]);
                        ("seats", JObj [("type", JStr "integer")])]);
   ("required", JArr [JStr "plan"])].

Definition ex_schemas : dict := [("plan_chosen", JObj ex_plan_schema)].

Definition ex_py_str (v : json) : string :=
  match v with
  | JStr s => s
  | JArr items =>
      "[" ++ String.concat ", "
               (map (fun x => match x with
                              | JStr s => "'" ++ s ++ "'"
                              | _ => "?"
                              end) items)
          ++ "]"
  | _ => "?"
  end.

Definition ex_world : world := {| sdk_calls := []; warned := [] |}.

(** Collaborators that return: a warnings filter that reports the warning
    and an SDK that takes the call.  And a warnings filter with the action
    ['error'], as under [python -W error]. *)
Definition ex_default_filter (given : list string) (msg : string) : option exn := None.

Definition ex_sdk (received : list sdk_call) (c : sdk_call) : option exn := None.

Definition ex_error_filter (given : list string) (msg : string) : option exn :=
  Some (UserWarning msg).

(** A table with an event whose property has a string for its ['enum']. *)
Definition ex_flag_schema : dict :=
  [("type", JStr "object");
   ("properties", JObj [("flag", JObj [("enum", JStr "ab")])]);
   ("required", JArr [JStr "plan"])].

Definition ex_flag_schemas : dict := [("flag_set", JObj ex_flag_schema)].

(** A file system with [schemas/common.json] alone. *)
Definition ex_read_common (p : string) : option json :=
  if p =? "schemas/common.json" then Some ex_common else None.

(** A definition that refers to another one. *)
Definition ex_chain : json :=
  JObj [("definitions", JObj [("A", ex_ref_B); ("B", ex_string)])].

(** The event of [ex_plan_schema] as [load_schemas] returns it. *)
Definition ex_plan_event : ResolvedEvent :=
  {| event_name := "plan_chosen";
     type_name := event_name_to_type "plan_chosen";
     schema := JObj ex_plan_schema;
     properties := get_default "properties" ex_plan_schema (JObj []);
     required := get_default "required" ex_plan_schema (JArr []) |}.

(** A schema for a list of lists of tags. *)
Definition ex_tag_lists : json :=
  JObj [("type", JStr "array");
        ("items", JObj [("type", JStr "array");
                        ("items", JObj [("type", JStr "string");
                                        ("enum", JArr [JStr "new"; JStr "hot"])])])].

(* ================================================================== *)
(** * The outcome monad *)

Open Scope list_scope.

Lemma bind_Ok_inv {A B} (m : outcome A) (k : A -> outcome B) (b : B) :
  bind m k = Ok b -> exists a, m = Ok a /\ k a = Ok b.
Proof.
  destruct m as [a| |]; simpl; intros H; try discriminate.
  exists a; split; [reflexivity | exact H].
Qed.

Lemma mapM_Ok_inv {A B} (f : A -> outcome B) (l : list A) (r : list B) :
  mapM f l = Ok r -> Forall2 (fun x y => f x = Ok y) l r.
Proof.
  revert r; induction l as [|x xs IH]; simpl; intros r H.
  - inversion H; constructor.
  - apply bind_Ok_inv in H as (y & Hy & H).
    apply bind_Ok_inv in H as (ys & Hys & H).
    inversion H; subst; constructor; auto.
Qed.

Lemma mapM_Forall2 {A B} (f : A -> outcome B) (l : list A) (r : list B) :
  Forall2 (fun x y => f x = Ok y) l r -> mapM f l = Ok r.
Proof.
  induction 1 as [|x y l r Hxy _ IH]; simpl; [reflexivity|].
  rewrite Hxy; simpl; rewrite IH; reflexivity.
Qed.

Lemma mapM_id {A} (f : A -> outcome A) (l : list A) :
  (forall x, In x l -> f x = Ok x) -> mapM f l = Ok l.
Proof.
  induction l as [|x xs IH]; simpl; intros H; [reflexivity|].
  rewrite (H x (or_introl eq_refl)); simpl.
  rewrite IH by (intros y Hy; apply H; right; exact Hy).
  reflexivity.
Qed.

(** A comprehension or a loop that completes has completed every turn. *)
Lemma mapM_Ok_each {A B} (f : A -> outcome B) (l : list A) (r : list B) (x : A) :
  mapM f l = Ok r -> In x l -> exists y, f x = Ok y.
Proof.
  intros H. apply mapM_Ok_inv in H.
  induction H as [|x' y l r Hxy _ IH]; intros Hin; [contradiction|].
  destruct Hin as [<-|Hin]; [exists y; exact Hxy | exact (IH Hin)].
Qed.

Lemma foldM_Ok_each {A S R} (f : A -> outcome R) (g : S -> R -> outcome S)
      (l : list A) (x : A) :
  forall s0 s,
    foldM (fun s a => r <- f a ;; g s r) l s0 = Ok s -> In x l -> exists r, f x = Ok r.
Proof.
  induction l as [|a l IH]; simpl; intros s0 s H Hin; [contradiction|].
  apply bind_Ok_inv in H as (s1 & H1 & H).
  apply bind_Ok_inv in H1 as (r & Hr & _).
  destruct Hin as [<-|Hin]; [exists r; exact Hr | exact (IH _ _ H Hin)].
Qed.

Lemma settles_refl {A} (r : outcome A) : settles_as r r.
Proof. intros _; reflexivity. Qed.

Lemma bind_settles {A B} (m m' : outcome A) (k k' : A -> outcome B) :
  settles_as m m' ->
  (forall a, settles_as (k a) (k' a)) ->
  settles_as (bind m k) (bind m' k').
Proof.
  intros Hm Hk. destruct m as [a| |]; simpl; intros Hr.
  - rewrite Hm by discriminate. simpl. apply Hk; exact Hr.
  - rewrite Hm by discriminate. reflexivity.
  - congruence.
Qed.

(** A comprehension whose body settles with more fuel settles the same. *)
Lemma mapM_settles {A B} (f g : A -> outcome B) (l : list A) :
  (forall x, settles_as (f x) (g x)) ->
  settles_as (mapM f l) (mapM g l).
Proof.
  intros Hfg. induction l as [|x xs IH]; simpl; [apply settles_refl|].
  apply bind_settles; [apply Hfg|]. intros y.
  apply bind_settles; [exact IH|]. intros ys. apply settles_refl.
Qed.

Lemma foldM_settles {A S} (f g : S -> A -> outcome S) (l : list A) :
  (forall s x, settles_as (f s x) (g s x)) ->
  forall s, settles_as (foldM f l s) (foldM g l s).
Proof.
  intros Hfg. induction l as [|x xs IH]; simpl; intros s; [apply settles_refl|].
  apply bind_settles; [apply Hfg | exact IH].
Qed.

(* ================================================================== *)
(** * Chains of references *)

Lemma dict_get_Some_truthy (k : string) (d : dict) (v : json) :
  dict_get k d = Some v -> truthy (JObj d) = true.
Proof. destruct d; simpl; [discriminate | reflexivity]. Qed.

Section ReferenceChains.

Variable read_json : string -> option json.
Variable sibling : string -> string -> string.
Variable set_order : list json -> list json.

Local Abbreviation resolve := (resolve_refs read_json sibling set_order).
Local Abbreviation step := (ref_step read_json sibling).
Local Abbreviation steps := (ref_steps read_json sibling).

(** Following a reference costs one level of recursion and nothing else. *)
Lemma resolve_refs_ref_step (schema root_schema : json) (file_path : string)
      (st' : rstate) (fuel : nat) :
  step (schema, root_schema, file_path) = Some st' ->
  resolve (S fuel) schema root_schema file_path
  = resolve fuel (fst (fst st')) (snd (fst st')) (snd st').
Proof.
  unfold ref_step.
  destruct schema as [| | | |items|d]; try discriminate.
  destruct (dict_get "$ref" d) as [[| | |ref| |]|] eqn:Href; try discriminate.
  intros H. cbn [resolve_refs].
  rewrite (dict_get_Some_truthy _ _ _ Href), Href. simpl negb. cbv iota.
  destruct (startswith "#/" ref).
  - destruct (walk_internal root_schema (split "/" (drop 2 ref))) as [r| |];
      try discriminate.
    inversion H; subst; reflexivity.
  - destruct (startswith "./" ref); try discriminate.
    destruct (read_json (sibling file_path (hd "" (split "#" ref))))
      as [ref_content|]; try discriminate.
    destruct (split "#" ref) as [|p0 [|[|c frag] ps]]; try discriminate.
    destruct (walk_external ref_content (split "/" frag)) as [r| |];
      try discriminate.
    inversion H; subst; reflexivity.
Qed.

Lemma ref_steps_add (n m : nat) (st st' st'' : rstate) :
  steps n st = Some st' -> steps m st' = Some st'' -> steps (n + m) st = Some st''.
Proof.
  revert st; induction n as [|n IH]; simpl; intros st Hn Hm.
  - inversion Hn; subst; exact Hm.
  - destruct (step st) as [st1|]; [|discriminate].
    eapply IH; eauto.
Qed.

(** More recursion depth does not change an outcome that is a value or an
    exception: "the call returns [r]" does not depend on the fuel. *)
Lemma resolve_refs_more_fuel (n : nat) :
  forall m, n <= m ->
  forall schema root_schema file_path,
    settles_as (resolve n schema root_schema file_path)
               (resolve m schema root_schema file_path).
Proof.
  induction n as [|n IH]; intros m Hle schema root_schema file_path.
  - intros H. simpl in H. congruence.
  - destruct m as [|m]; [lia|]. apply le_S_n in Hle. specialize (IH m Hle).
    cbn [resolve_refs].
    destruct (negb (truthy schema)); [apply settles_refl|].
    destruct schema as [| | | |items|d]; try apply settles_refl.
    + apply bind_settles; [|intros; apply settles_refl].
      apply mapM_settles. intros item. apply IH.
    + destruct (dict_get "$ref" d) as [[| | |ref| |]|]; try apply settles_refl.
      * destruct (startswith "#/" ref).
        { apply bind_settles; [apply settles_refl | intros; apply IH]. }
        destruct (startswith "./" ref); [|apply settles_refl].
        destruct (read_json _); [|apply settles_refl].
        destruct (split "#" ref) as [|p0 [|[|c frag] ps]]; try apply settles_refl.
        apply bind_settles; [apply settles_refl | intros; apply IH].
      * destruct (dict_get "allOf" d) as [members|].
        -- apply bind_settles; [apply settles_refl|]. intros subs.
           apply bind_settles; [|intros; apply settles_refl].
           apply foldM_settles. intros acc sub_schema.
           apply bind_settles; [apply IH | intros; apply settles_refl].
        -- apply bind_settles; [|intros; apply settles_refl].
           apply mapM_settles. intros kv.
           apply bind_settles; [apply IH | intros; apply settles_refl].
Qed.

(** A state from which the chain reaches a state that lies on a cycle
    has a successor with the same property. *)
Lemma cycle_successor (n : nat) (st0 st : rstate) :
  steps (S n) st0 = Some st0 ->
  (exists m, steps m st = Some st0) ->
  exists st', step st = Some st' /\ exists m, steps m st' = Some st0.
Proof.
  intros Hcycle [m Hm]. destruct m as [|m].
  - simpl in Hm. inversion Hm; subst st.
    simpl in Hcycle. destruct (step st0) as [st'|]; [|discriminate].
    exists st'; split; [reflexivity | exists n; exact Hcycle].
  - simpl in Hm. destruct (step st) as [st'|]; [|discriminate].
    exists st'; split; [reflexivity | exists m; exact Hm].
Qed.

(** The resolver keeps no record of the references it has followed: on a
    chain that runs into a cycle every recursion depth is exhausted. *)
Lemma ref_cycle_exhausts_fuel (n : nat) (st0 : rstate) :
  steps (S n) st0 = Some st0 ->
  forall fuel schema root_schema file_path,
    (exists m, steps m (schema, root_schema, file_path) = Some st0) ->
    resolve fuel schema root_schema file_path = OutOfFuel.
Proof.
  intros Hcycle fuel; induction fuel as [|fuel IH];
    intros schema root_schema file_path Hreach; [reflexivity|].
  destruct (cycle_successor _ _ _ Hcycle Hreach) as ([[s' r'] p'] & Hstep & Hreach').
  erewrite resolve_refs_ref_step by exact Hstep. simpl.
  apply IH; exact Hreach'.
Qed.

Local Abbreviation calls := (resolve_calls read_json sibling).
Local Abbreviation follow := (follow_calls read_json sibling).

(** [resolve_refs] returns only after each of its recursive calls has. *)
Lemma resolve_refs_call_returns (fuel : nat) (schema root_schema : json)
      (file_path : string) (st' : rstate) (r : json) :
  In st' (calls (schema, root_schema, file_path)) ->
  resolve (S fuel) schema root_schema file_path = Ok r ->
  exists r', resolve fuel (fst (fst st')) (snd (fst st')) (snd st') = Ok r'.
Proof.
  intros Hin H. unfold resolve_calls in Hin.
  destruct (negb (truthy schema)) eqn:Htruthy; [contradiction|].
  destruct schema as [| | | |items|d]; try contradiction.
  - apply in_map_iff in Hin as (item & <- & Hitem). cbn [fst snd].
    cbn [resolve_refs] in H. rewrite Htruthy in H.
    apply bind_Ok_inv in H as (items' & Hitems & _).
    exact (mapM_Ok_each _ _ _ _ Hitems Hitem).
  - destruct (dict_get "$ref" d) as [v|] eqn:Href.
    + destruct (step (JObj d, root_schema, file_path)) as [st1|] eqn:Hstep;
        [|contradiction].
      destruct Hin as [<-|[]].
      rewrite (resolve_refs_ref_step _ _ _ _ fuel Hstep) in H. exists r; exact H.
    + cbn [resolve_refs] in H. rewrite Htruthy, Href in H.
      destruct (dict_get "allOf" d) as [members|].
      * destruct (py_iter members) as [subs| |]; try contradiction.
        apply in_map_iff in Hin as (sub & <- & Hsub). cbn [fst snd].
        cbn [bind] in H. apply bind_Ok_inv in H as (m & Hm & _).
        exact (foldM_Ok_each _ _ _ _ _ _ Hm Hsub).
      * apply in_map_iff in Hin as (kv & <- & Hkv). cbn [fst snd].
        apply bind_Ok_inv in H as (fields & Hfields & _).
        destruct (mapM_Ok_each _ _ _ _ Hfields Hkv) as [kv' Hkv'].
        apply bind_Ok_inv in Hkv' as (v & Hv & _). exists v; exact Hv.
Qed.

(** The first recursive call is made before anything else can fail: when
    it exhausts the recursion depth, so does the caller. *)
Lemma resolve_refs_first_call (fuel : nat) (schema root_schema : json)
      (file_path : string) (st' : rstate) :
  nth_error (calls (schema, root_schema, file_path)) 0 = Some st' ->
  resolve fuel (fst (fst st')) (snd (fst st')) (snd st') = OutOfFuel ->
  resolve (S fuel) schema root_schema file_path = OutOfFuel.
Proof.
  intros Hfirst H. unfold resolve_calls in Hfirst.
  destruct (negb (truthy schema)) eqn:Htruthy; [discriminate|].
  destruct schema as [| | | |items|d]; try discriminate.
  - destruct items as [|item items]; [discriminate|].
    inversion Hfirst; subst st'. cbn [fst snd] in H.
    cbn [resolve_refs]. rewrite Htruthy. cbn [mapM]. rewrite H. reflexivity.
  - destruct (dict_get "$ref" d) as [v|] eqn:Href.
    + destruct (step (JObj d, root_schema, file_path)) as [st1|] eqn:Hstep;
        [|discriminate].
      inversion Hfirst; subst st'.
      rewrite (resolve_refs_ref_step _ _ _ _ fuel Hstep). exact H.
    + cbn [resolve_refs]. rewrite Htruthy, Href.
      destruct (dict_get "allOf" d) as [members|].
      * destruct (py_iter members) as [[|sub subs]| |]; try discriminate.
        inversion Hfirst; subst st'. cbn [fst snd] in H.
        cbn [bind foldM]. rewrite H. reflexivity.
      * destruct d as [|kv d]; [discriminate|].
        inversion Hfirst; subst st'. cbn [fst snd] in H.
        cbn [mapM]. rewrite H. reflexivity.
Qed.

(** A state from which a path of calls leads to a state on a cycle makes a
    call to a state of the same kind. *)
Lemma cycle_next_call (cycle path : list nat) (st0 st : rstate) :
  cycle <> [] ->
  follow cycle st0 = Some st0 ->
  follow path st = Some st0 ->
  exists i st1 path1,
    nth_error (calls st) i = Some st1
    /\ follow path1 st1 = Some st0
    /\ (Forall (fun j => j = 0) (path ++ cycle) -> i = 0 /\ Forall (fun j => j = 0) path1).
Proof.
  intros Hne Hcycle Hpath. destruct path as [|i path].
  - simpl in Hpath. inversion Hpath; subst st.
    destruct cycle as [|i cycle]; [congruence|]. simpl in Hcycle.
    destruct (nth_error (calls st0) i) as [st1|] eqn:Hnth; [|discriminate].
    exists i, st1, cycle. split; [exact Hnth|]. split; [exact Hcycle|].
    simpl. intros Hzero. inversion Hzero; subst. split; [reflexivity | assumption].
  - simpl in Hpath.
    destruct (nth_error (calls st) i) as [st1|] eqn:Hnth; [|discriminate].
    exists i, st1, path. split; [exact Hnth|]. split; [exact Hpath|].
    simpl. intros Hzero. inversion Hzero as [|? ? Hi Hrest]; subst.
    split; [reflexivity|]. apply Forall_app in Hrest as [Hrest _]. exact Hrest.
Qed.

(** The resolver keeps no record of the calls it is in: from a state that
    leads to a cycle no recursion depth lets it return. *)
Lemma call_cycle_never_returns (cycle : list nat) (st0 : rstate) :
  cycle <> [] ->
  follow cycle st0 = Some st0 ->
  forall fuel path schema root_schema file_path r,
    follow path (schema, root_schema, file_path) = Some st0 ->
    resolve fuel schema root_schema file_path <> Ok r.
Proof.
  intros Hne Hcycle fuel. induction fuel as [|fuel IH];
    intros path schema root_schema file_path r Hpath H; [discriminate|].
  destruct (cycle_next_call cycle path st0 _ Hne Hcycle Hpath)
    as (i & [[s1 r1] f1] & path1 & Hnth & Hpath1 & _).
  destruct (resolve_refs_call_returns fuel _ _ _ _ r (nth_error_In _ _ Hnth) H)
    as [r' Hr'].
  exact (IH path1 s1 r1 f1 r' Hpath1 Hr').
Qed.

(** When each call on the way is the first its caller makes, every
    recursion depth is exhausted, and nothing is raised. *)
Lemma first_call_cycle_exhausts_fuel (cycle : list nat) (st0 : rstate) :
  cycle <> [] ->
  follow cycle st0 = Some st0 ->
  forall fuel path schema root_schema file_path,
    Forall (fun j => j = 0) (path ++ cycle) ->
    follow path (schema, root_schema, file_path) = Some st0 ->
    resolve fuel schema root_schema file_path = OutOfFuel.
Proof.
  intros Hne Hcycle fuel. induction fuel as [|fuel IH];
    intros path schema root_schema file_path Hzero Hpath; [reflexivity|].
  destruct (cycle_next_call cycle path st0 _ Hne Hcycle Hpath)
    as (i & [[s1 r1] f1] & path1 & Hnth & Hpath1 & Hfirst).
  destruct (Hfirst Hzero) as [-> Hzero1].
  apply (resolve_refs_first_call fuel _ _ _ _ Hnth). cbn [fst snd].
  apply (IH path1); [|exact Hpath1].
  apply Forall_app. split; [exact Hzero1|].
  apply Forall_app in Hzero as [_ Hzero]. exact Hzero.
Qed.

End ReferenceChains.

(* ================================================================== *)
(** * References the resolver does not follow *)

(** C6 (as amended): a fragment whose ['$ref'] string starts with neither
    ['#/'] nor ['./'] is returned by [resolve_refs] as it is, with its
    ['$ref'] key, and no error is raised. *)
Theorem unsupported_ref_returned_unchanged
        (read_json : string -> option json) (sibling : string -> string -> string)
        (set_order : list json -> list json)
        (fuel : nat) (d : dict) (ref : string) (root_schema : json) (file_path : string) :
  dict_get "$ref" d = Some (JStr ref) ->
  startswith "#/" ref = false ->
  startswith "./" ref = false ->
  resolve_refs read_json sibling set_order (S fuel) (JObj d) root_schema file_path
  = Ok (JObj d).
Proof.
  intros Href Hint Hext. cbn [resolve_refs].
  rewrite (dict_get_Some_truthy _ _ _ Href), Href, Hint, Hext. reflexivity.
Qed.

Lemma unsupported_ref_returned_unchanged_witness :
  resolve_refs ex_read_json ex_sibling ex_set_order 1 ex_remote_ref (JObj [])
               "schemas/events.schema.json"
  = Ok ex_remote_ref.
Proof.
  apply (unsupported_ref_returned_unchanged ex_read_json ex_sibling ex_set_order
           0 _ "https://example.com/user.json"); reflexivity.
Defined.

(** C6, as stated, fails: on a reference with an ['https://'] scheme no
    recursion depth makes [resolve_refs] raise. *)
Lemma unsupported_ref_raises_nothing :
  ~ (exists fuel e,
        resolve_refs ex_read_json ex_sibling ex_set_order fuel ex_remote_ref (JObj [])
                     "schemas/events.schema.json"
        = Raise e).
Proof.
  intros (fuel & e & H). destruct fuel; simpl in H; discriminate.
Qed.

(** C7: at an external reference whose fragment passes through a definition
    that is absent, [resolve_refs] raises [AttributeError]: the walk calls
    [.get] on the [None] it has just obtained. *)
Theorem external_ref_missing_segment_raises :
  forall fuel,
    resolve_refs ex_read_json ex_sibling ex_set_order (S fuel) ex_deep_ref (JObj [])
                 "schemas/deep.schema.json"
    = Raise AttributeError.
Proof. intros fuel. reflexivity. Qed.

(** The same pointer as an internal reference: the walk stops at the absent
    definition and the resolver returns [None]. *)
Example internal_ref_missing_segment_is_None :
  forall fuel,
    resolve_refs ex_read_json ex_sibling ex_set_order (S (S fuel))
                 (JObj [("$ref", JStr "#/definitions/Missing/properties")]) ex_common
                 "schemas/common.json"
    = Ok JNull.
Proof. intros fuel. reflexivity. Qed.

(** An event whose own internal reference names an absent definition:
    [resolve_refs] returns [None], and [load_schemas] raises when it calls
    [resolved.get]. *)
Example missing_event_ref_aborts_load :
  forall fuel,
    load_schemas ex_read_json ex_sibling ex_set_order ex_glob (S (S fuel))
                 "schemas/typo*.schema.json"
    = Raise AttributeError.
Proof. intros fuel. reflexivity. Qed.

(** C8 (as amended): when the recursive calls that [resolve_refs] makes
    from a fragment (on the target of a reference, on the members of an
    ['allOf'], on the values of a dict, on the items of a list) lead to a
    (fragment, document, file) state that they lead back to,
    [resolve_refs] returns at no recursion depth: it has no set of visited
    references and no cyclic-reference error.  When each call on the way
    is the first that its caller makes, as on a chain of references, it
    raises nothing either: every recursion depth is exhausted. *)
Theorem ref_cycle_never_returns
        (read_json : string -> option json) (sibling : string -> string -> string)
        (set_order : list json -> list json)
        (entry cycle : list nat) (schema root_schema : json) (file_path : string)
        (st : rstate) :
  follow_calls read_json sibling entry (schema, root_schema, file_path) = Some st ->
  cycle <> [] ->
  follow_calls read_json sibling cycle st = Some st ->
  forall fuel,
    (forall result,
        resolve_refs read_json sibling set_order fuel schema root_schema file_path
        <> Ok result)
    /\ (Forall (fun i => i = 0) (entry ++ cycle) ->
        resolve_refs read_json sibling set_order fuel schema root_schema file_path
        = OutOfFuel).
Proof.
  intros Hentry Hne Hcycle fuel. split.
  - intros result.
    exact (call_cycle_never_returns read_json sibling set_order cycle st Hne Hcycle
             fuel entry schema root_schema file_path result Hentry).
  - intros Hzero.
    exact (first_call_cycle_exhausts_fuel read_json sibling set_order cycle st Hne Hcycle
             fuel entry schema root_schema file_path Hzero Hentry).
Qed.

Lemma ref_cycle_never_returns_witness :
  (forall result,
      resolve_refs ex_read_json ex_sibling ex_set_order 1000 ex_ref_Node ex_linked
                   "schemas/linked.schema.json"
      <> Ok result)
  /\ resolve_refs ex_read_json ex_sibling ex_set_order 1000 ex_ref_A ex_cyclic
                  "schemas/cyclic.schema.json"
     = OutOfFuel.
Proof.
  split.
  - apply (ref_cycle_never_returns ex_read_json ex_sibling ex_set_order [] [0; 1; 0]
             ex_ref_Node ex_linked "schemas/linked.schema.json"
             (ex_ref_Node, ex_linked, "schemas/linked.schema.json"%string)
             eq_refl); [discriminate | reflexivity].
  - apply (ref_cycle_never_returns ex_read_json ex_sibling ex_set_order [0] [0; 0]
             ex_ref_A ex_cyclic "schemas/cyclic.schema.json"
             (ex_ref_B, ex_cyclic, "schemas/cyclic.schema.json"%string)
             eq_refl); [discriminate | reflexivity | repeat constructor].
Defined.

(** C8, as stated, fails: on two definitions that refer to each other the
    resolver raises no error, whatever the recursion depth. *)
Lemma ref_cycle_raises_nothing :
  ~ (exists fuel e,
        resolve_refs ex_read_json ex_sibling ex_set_order fuel ex_ref_A ex_cyclic
                     "schemas/cyclic.schema.json"
        = Raise e).
Proof.
  intros (fuel & e & H).
  rewrite (ref_cycle_exhausts_fuel ex_read_json ex_sibling ex_set_order 1
             (ex_ref_B, ex_cyclic, "schemas/cyclic.schema.json") eq_refl) in H.
  - discriminate.
  - exists 1; reflexivity.
Qed.

(* ================================================================== *)
(** * Resolution of a fragment without references *)

Lemma depth_item (x : json) (items : list json) :
  In x items -> depth x <= fold_right (fun y acc => Nat.max (depth y) acc) 0 items.
Proof.
  induction items as [|y ys IH]; simpl; intros H; [contradiction|].
  destruct H as [->|H]; [lia|]. specialize (IH H). lia.
Qed.

Lemma depth_field (kv : string * json) (d : dict) :
  In kv d -> depth (snd kv) <= fold_right (fun y acc => Nat.max (depth (snd y)) acc) 0 d.
Proof.
  induction d as [|y ys IH]; simpl; intros H; [contradiction|].
  destruct H as [->|H]; [lia|]. specialize (IH H). lia.
Qed.

Lemma has_key_false (k : string) (d : dict) :
  has_key k d = false -> dict_get k d = None.
Proof. unfold has_key. destruct (dict_get k d); [discriminate | reflexivity]. Qed.

(** C9: resolving a fragment that has no ['$ref'] and no ['allOf'] key at
    any depth returns the fragment itself, keys and order included, as soon
    as the recursion depth covers the fragment's nesting. *)
Theorem resolve_refs_idempotent
        (read_json : string -> option json) (sibling : string -> string -> string)
        (set_order : list json -> list json)
        (schema root_schema : json) (file_path : string) (fuel : nat) :
  ref_free schema = true ->
  depth schema <= fuel ->
  resolve_refs read_json sibling set_order fuel schema root_schema file_path = Ok schema.
Proof.
  revert schema. induction fuel as [|fuel IH]; intros schema Hfree Hdepth.
  - destruct schema; simpl in Hdepth; lia.
  - cbn [resolve_refs]. destruct (negb (truthy schema)); [reflexivity|].
    destruct schema as [| | | |items|d]; try reflexivity.
    + simpl in Hfree, Hdepth. rewrite forallb_forall in Hfree.
      rewrite mapM_id; [reflexivity|].
      intros x Hx. apply IH; [apply Hfree; exact Hx|].
      pose proof (depth_item x items Hx). lia.
    + simpl in Hfree, Hdepth.
      apply andb_prop in Hfree as [Hkeys Hvals].
      apply andb_prop in Hkeys as [Href Hall].
      apply negb_true_iff in Href, Hall.
      rewrite (has_key_false _ _ Href), (has_key_false _ _ Hall).
      rewrite forallb_forall in Hvals.
      rewrite mapM_id; [reflexivity|].
      intros [key v] Hkv. simpl. rewrite IH; [reflexivity | exact (Hvals _ Hkv) |].
      pose proof (depth_field (key, v) d Hkv). simpl in *. lia.
Qed.

Lemma resolve_refs_idempotent_witness :
  resolve_refs ex_read_json ex_sibling ex_set_order 5 (JObj ex_plan_schema) (JObj [])
               "schemas/plans.schema.json"
  = Ok (JObj ex_plan_schema).
Proof.
  apply (resolve_refs_idempotent ex_read_json ex_sibling ex_set_order
           (JObj ex_plan_schema) (JObj []) "schemas/plans.schema.json" 5).
  - reflexivity.
  - cbv. lia.
Defined.


(* ================================================================== *)
(** * Dicts and sets *)

Lemma dict_get_dict_set (k k' : string) (v : json) (d : dict) :
  dict_get k (dict_set k' v d) = if k' =? k then Some v else dict_get k d.
Proof.
  induction d as [|[k0 v0] d IH]; simpl.
  - reflexivity.
  - destruct (k0 =? k') eqn:E0; simpl.
    + apply String.eqb_eq in E0; subst k0.
      destruct (k' =? k); reflexivity.
    + destruct (k0 =? k) eqn:E1.
      * apply String.eqb_eq in E1; subst k0.
        rewrite String.eqb_sym, E0. reflexivity.
      * exact IH.
Qed.

Lemma dict_get_dict_update (k : string) (e d : dict) :
  dict_get k (dict_update d e)
  = match last_binding k e with
    | Some v => Some v
    | None => dict_get k d
    end.
Proof.
  unfold dict_update. revert d; induction e as [|[k' v] e IH]; intros d; simpl.
  - reflexivity.
  - rewrite IH, dict_get_dict_set.
    destruct (last_binding k e); [reflexivity|].
    destruct (k' =? k); reflexivity.
Qed.

Lemma last_binding_app (k : string) (l1 l2 : dict) :
  last_binding k (l1 ++ l2)
  = match last_binding k l2 with
    | Some v => Some v
    | None => last_binding k l1
    end.
Proof.
  induction l1 as [|[k' v] l1 IH]; simpl.
  - destruct (last_binding k l2); reflexivity.
  - rewrite IH. destruct (last_binding k l2); reflexivity.
Qed.

Lemma dict_set_keys (k k' : string) (v : json) (d : dict) :
  In k (map fst (dict_set k' v d)) <-> k = k' \/ In k (map fst d).
Proof.
  induction d as [|[k0 v0] d IH]; simpl.
  - intuition.
  - destruct (k0 =? k') eqn:E0; simpl.
    + apply String.eqb_eq in E0; subst k0. intuition.
    + rewrite IH. intuition.
Qed.

Lemma dict_set_NoDup (k : string) (v : json) (d : dict) :
  NoDup (map fst d) -> NoDup (map fst (dict_set k v d)).
Proof.
  induction d as [|[k0 v0] d IH]; simpl; intros H.
  - constructor; [intros [] | constructor].
  - inversion H as [|? ? Hnotin Hd]; subst.
    destruct (k0 =? k) eqn:E0; simpl.
    + apply String.eqb_eq in E0; subst k0. constructor; assumption.
    + constructor; [|apply IH; exact Hd].
      rewrite dict_set_keys. intros [->|Hin]; [|contradiction].
      rewrite String.eqb_refl in E0; discriminate.
Qed.

Lemma dict_update_NoDup (e d : dict) :
  NoDup (map fst d) -> NoDup (map fst (dict_update d e)).
Proof.
  unfold dict_update. revert d; induction e as [|[k v] e IH]; intros d H; simpl.
  - exact H.
  - apply IH, dict_set_NoDup, H.
Qed.

Lemma hkey_eqb_eq (a b : hkey) : hkey_eqb a b = true <-> a = b.
Proof.
  destruct a, b; simpl; split; intros H; try discriminate; try reflexivity.
  - apply Z.eqb_eq in H; subst; reflexivity.
  - inversion H; apply Z.eqb_refl.
  - apply String.eqb_eq in H; subst; reflexivity.
  - inversion H; apply String.eqb_refl.
Qed.

Lemma same_key_hash (x y : json) (h : hkey) :
  hash_key x = Some h -> (same_key x y = true <-> hash_key y = Some h).
Proof.
  intros Hx. unfold same_key. rewrite Hx.
  destruct (hash_key y) as [h'|]; split; intros H; try discriminate.
  - apply hkey_eqb_eq in H; subst; reflexivity.
  - inversion H; subst. apply hkey_eqb_eq; reflexivity.
Qed.

Lemma existsb_same_key (x : json) (h : hkey) (s : list json) :
  hash_key x = Some h ->
  (existsb (same_key x) s = true <-> In (Some h) (map hash_key s)).
Proof.
  intros Hx. rewrite existsb_exists, in_map_iff. split.
  - intros (y & Hy & Hsame). exists y; split; [|exact Hy].
    apply (same_key_hash x y h Hx); exact Hsame.
  - intros (y & Hkey & Hy). exists y; split; [exact Hy|].
    apply (same_key_hash x y h Hx); exact Hkey.
Qed.

(** What [set(l)] holds once every element of [l] is added to [s]: no two
    elements equal for Python, nothing that was not given, and an element
    equal to each one given. *)
Lemma py_set_from_spec (l : list json) :
  forall s s',
    py_set_from l s = Ok s' ->
    NoDup (map hash_key s) ->
    NoDup (map hash_key s')
    /\ (forall y, In y s' -> In y s \/ In y l)
    /\ (forall x, In x s \/ In x l -> In (hash_key x) (map hash_key s')).
Proof.
  induction l as [|x l IH]; simpl; intros s s' H Hnodup.
  - inversion H; subst. repeat split; auto.
    intros x [Hx|[]]. apply in_map; exact Hx.
  - destruct (hash_key x) as [h|] eqn:Hx; [|discriminate].
    destruct (existsb (same_key x) s) eqn:Hmem.
    + destruct (IH _ _ H Hnodup) as (Hn & Hsub & Hall).
      repeat split; auto.
      * intros y Hy. destruct (Hsub y Hy); auto.
      * intros z [Hz|[<-|Hz]]; auto.
        rewrite Hx. apply (existsb_same_key x h s Hx) in Hmem.
        apply in_map_iff in Hmem as (y & Hkey & Hy).
        rewrite <- Hkey. apply Hall. left; exact Hy.
    + assert (Hnodup' : NoDup (map hash_key (s ++ [x]))).
      { rewrite map_app. simpl. rewrite Hx.
        apply Permutation_NoDup with (l := Some h :: map hash_key s).
        - apply Permutation_cons_append.
        - constructor; [|exact Hnodup].
          intros Hin. apply (existsb_same_key x h s Hx) in Hin. congruence. }
      destruct (IH _ _ H Hnodup') as (Hn & Hsub & Hall).
      repeat split; auto.
      * intros y Hy. destruct (Hsub y Hy) as [Hin|Hin]; auto.
        apply in_app_or in Hin as [Hin|[<-|[]]]; auto.
      * intros z [Hz|[<-|Hz]]; apply Hall; auto.
        -- left; apply in_or_app; auto.
        -- left; apply in_or_app; right; left; reflexivity.
Qed.

Lemma py_set_from_names (l : list json) :
  forallb is_name l = true -> forall s, exists s', py_set_from l s = Ok s'.
Proof.
  induction l as [|x l IH]; simpl; intros H s.
  - exists s; reflexivity.
  - apply andb_prop in H as [Hx Hl].
    destruct x; try discriminate. simpl. apply IH; exact Hl.
Qed.

Lemma hash_key_name (name : string) (l : list json) :
  In (hash_key (JStr name)) (map hash_key l) -> In (JStr name) l.
Proof.
  intros H. apply in_map_iff in H as (y & Hkey & Hy).
  destruct y as [|b|n|s|items|d]; simpl in Hkey; try discriminate.
  inversion Hkey; subst; exact Hy.
Qed.

(* ================================================================== *)
(** * The merge of [allOf] *)

(** The merge of a member it accepts: the loop body completes, with the
    member's properties stored over those it had, its required names
    appended, and its ['additionalProperties'], if any, taken. *)
Lemma merge_member_mergeable (m : merged) (r : json) :
  mergeable r = true ->
  merge_member m r
  = Ok {| m_properties := dict_update (m_properties m) (member_properties r);
          m_required := m_required m ++ member_required r;
          m_additional := match last_additional [r] with
                          | Some a => Some a
                          | None => m_additional m
                          end |}
  /\ forallb is_name (member_required r) = true.
Proof.
  destruct r as [| | | |items|d]; simpl; intros H;
    try (split; [destruct m; simpl; rewrite app_nil_r; reflexivity | reflexivity]).
  apply andb_prop in H as [Hp Hr]. unfold get_default.
  destruct (dict_get "required" d) as [[| | | |names|]|]; try discriminate;
    destruct (dict_get "properties" d) as [[| | | | |e]|]; try discriminate;
    simpl; (split; [reflexivity | try exact Hr; reflexivity]).
Qed.

Lemma foldM_merge_spec (rs : list json) :
  forallb mergeable rs = true ->
  forall m0,
  exists m,
    foldM merge_member rs m0 = Ok m
    /\ (forall k, dict_get k (m_properties m)
                  = match last_binding k (concat (map member_properties rs)) with
                    | Some v => Some v
                    | None => dict_get k (m_properties m0)
                    end)
    /\ m_required m = m_required m0 ++ concat (map member_required rs)
    /\ m_additional m = match last_additional rs with
                        | Some a => Some a
                        | None => m_additional m0
                        end
    /\ (NoDup (map fst (m_properties m0)) -> NoDup (map fst (m_properties m)))
    /\ forallb is_name (concat (map member_required rs)) = true.
Proof.
  induction rs as [|r rs IH]; intros Hok m0.
  - exists m0. simpl. rewrite app_nil_r. repeat split; auto.
  - simpl in Hok. apply andb_prop in Hok as [Hr Hrs].
    destruct (merge_member_mergeable m0 r Hr) as [H1 Hnames].
    destruct (IH Hrs {| m_properties := dict_update (m_properties m0) (member_properties r);
                        m_required := m_required m0 ++ member_required r;
                        m_additional := match last_additional [r] with
                                        | Some a => Some a
                                        | None => m_additional m0
                                        end |})
      as (m & Hm & IHp & IHr & IHa & IHn & IHnames).
    exists m. cbn [foldM]. rewrite H1. cbn [bind]. split; [exact Hm|].
    cbn [m_properties m_required m_additional] in IHp, IHr, IHa, IHn.
    repeat split.
    + intros k. rewrite IHp, dict_get_dict_update.
      cbn [map concat]. rewrite last_binding_app.
      destruct (last_binding k (concat (map member_properties rs))); reflexivity.
    + rewrite IHr. cbn [map concat]. rewrite app_assoc. reflexivity.
    + rewrite IHa. cbn [last_additional].
      destruct (last_additional rs); reflexivity.
    + intros Hn. apply IHn. apply dict_update_NoDup, Hn.
    + cbn [map concat]. rewrite forallb_app, Hnames, IHnames. reflexivity.
Qed.

(** The loop resolves a member and merges it before it turns to the next
    one; when it completes, every member has been resolved. *)
Lemma foldM_resolve_merge {A} (f : A -> outcome json) (members : list A) :
  forall m0 m,
    foldM (fun m s => r <- f s ;; merge_member m r) members m0 = Ok m <->
    exists rs, Forall2 (fun s r => f s = Ok r) members rs
               /\ foldM merge_member rs m0 = Ok m.
Proof.
  induction members as [|s members IH]; intros m0 m; simpl.
  - split.
    + intros H. exists []. split; [constructor | exact H].
    + intros (rs & Hrs & H). inversion Hrs; subst. exact H.
  - split.
    + intros H. apply bind_Ok_inv in H as (m1 & H1 & H).
      apply bind_Ok_inv in H1 as (r & Hr & H1).
      apply IH in H as (rs & Hrs & H).
      exists (r :: rs). split; [constructor; assumption|].
      simpl. rewrite H1. exact H.
    + intros (rs & Hrs & H). inversion Hrs as [|? r ? rs' Hr Hrs']; subst.
      simpl in H. apply bind_Ok_inv in H as (m1 & H1 & H).
      rewrite Hr. simpl. rewrite H1. simpl. apply IH.
      exists rs'; split; assumption.
Qed.

Section AllOf.

Variable read_json : string -> option json.
Variable sibling : string -> string -> string.
Variable set_order : list json -> list json.

(** Whatever the order in which Python enumerates a set, it enumerates
    its elements, each once. *)
Hypothesis set_order_perm : forall l, Permutation (set_order l) l.

Local Abbreviation resolve := (resolve_refs read_json sibling set_order).

Lemma list_set_spec (l R : list json) :
  list_set set_order l = Ok R ->
  NoDup R
  /\ (forall x, In x R -> In x l)
  /\ (forall name, In (JStr name) l -> In (JStr name) R).
Proof.
  unfold list_set, py_set. intros H.
  apply bind_Ok_inv in H as (s & Hs & H). inversion H; subst R.
  destruct (py_set_from_spec l [] s Hs (NoDup_nil _)) as (Hn & Hsub & Hall).
  assert (Hperm := set_order_perm s).
  repeat split.
  - apply Permutation_NoDup with (l := s); [symmetry; exact Hperm|].
    apply NoDup_map_inv with (f := hash_key); exact Hn.
  - intros x Hx. apply (Permutation_in _ Hperm) in Hx.
    destruct (Hsub x Hx) as [[]|Hin]; exact Hin.
  - intros name Hin. apply (Permutation_in _ (Permutation_sym Hperm)).
    apply hash_key_name, Hall. right; exact Hin.
Qed.

Lemma resolve_refs_allOf (fuel : nat) (d : dict) (members : json)
      (root_schema : json) (file_path : string) :
  dict_get "$ref" d = None ->
  dict_get "allOf" d = Some members ->
  resolve (S fuel) (JObj d) root_schema file_path
  = (subs <- py_iter members ;;
     m <- foldM (fun m sub_schema =>
                   resolved <- resolve fuel sub_schema root_schema file_path ;;
                   merge_member m resolved)
                subs merged_init ;;
     required <- list_set set_order (m_required m) ;;
     Ok (merged_json m required)).
Proof.
  intros Href Hall. cbn [resolve_refs].
  rewrite (dict_get_Some_truthy _ _ _ Hall), Href, Hall. reflexivity.
Qed.

End AllOf.

(** C4 (as amended): for a fragment with an ['allOf'] list and no ['$ref']
    key, whose members, each resolved against the same root document and
    file path, give fragments the merge accepts (a fragment that is not an
    object, which is skipped, or an object whose ['properties'], if any, is
    an object and whose ['required'], if any, is an array of strings),
    [resolve_refs] returns the merge of the members: an object with
    ['type'], ['properties'] and ['required'], where ['properties'] binds
    each name once, to the last entry of that name among the members'
    properties in array order, ['required'] holds the required names of
    the members, each once, and ['additionalProperties'] is the one of the
    last member that has it. *)
Theorem allOf_merged_in_array_order
        (read_json : string -> option json) (sibling : string -> string -> string)
        (set_order : list json -> list json)
        (fuel : nat) (d : dict) (members resolved : list json)
        (root_schema : json) (file_path : string) :
  (forall l, Permutation (set_order l) l) ->
  dict_get "$ref" d = None ->
  dict_get "allOf" d = Some (JArr members) ->
  Forall2 (fun m r => resolve_refs read_json sibling set_order fuel m
                                   root_schema file_path = Ok r)
          members resolved ->
  forallb mergeable resolved = true ->
  exists P R,
    resolve_refs read_json sibling set_order (S fuel) (JObj d) root_schema file_path
    = Ok (JObj ([("type", JStr "object"); ("properties", JObj P); ("required", JArr R)]
                ++ match last_additional resolved with
                   | Some a => [("additionalProperties", a)]
                   | None => []
                   end))
    /\ NoDup (map fst P)
    /\ (forall k, dict_get k P
                  = last_binding k (concat (map member_properties resolved)))
    /\ NoDup R
    /\ (forall x, In x R <-> exists r, In r resolved /\ In x (member_required r)).
Proof.
  intros Hperm Href Hall Hres Hok.
  destruct (foldM_merge_spec resolved Hok merged_init)
    as (m & Hm & Hp & Hr & Ha & Hn & Hnames).
  simpl in Hp, Hr, Ha, Hn.
  assert (Hloop : foldM (fun m sub_schema =>
                           resolved <- resolve_refs read_json sibling set_order fuel
                                                    sub_schema root_schema file_path ;;
                           merge_member m resolved)
                        members merged_init = Ok m).
  { apply foldM_resolve_merge. exists resolved; split; assumption. }
  destruct (py_set_from_names (m_required m)) with (s := @nil json) as [s' Hs'].
  { rewrite Hr. exact Hnames. }
  assert (HR : list_set set_order (m_required m) = Ok (set_order s')).
  { unfold list_set, py_set. rewrite Hs'. reflexivity. }
  destruct (list_set_spec set_order Hperm _ _ HR) as (HnR & Hsub & Hin).
  exists (m_properties m), (set_order s').
  rewrite (resolve_refs_allOf _ _ _ _ _ _ _ _ Href Hall). cbn [py_iter bind].
  rewrite Hloop. cbn [bind]. rewrite HR. cbn [bind].
  repeat split.
  - unfold merged_json. rewrite Ha. destruct (last_additional resolved); reflexivity.
  - apply Hn. constructor.
  - intros k. rewrite Hp.
    destruct (last_binding k (concat (map member_properties resolved))); reflexivity.
  - exact HnR.
  - intros Hx. apply Hsub in Hx. rewrite Hr in Hx.
    apply in_concat in Hx as (l & Hl & Hx).
    apply in_map_iff in Hl as (r & <- & Hr'). exists r; split; assumption.
  - intros (r & Hr' & Hx).
    assert (Hxl : In x (m_required m)).
    { rewrite Hr. apply in_concat. exists (member_required r); split; [|exact Hx].
      apply in_map; exact Hr'. }
    assert (Hname : is_name x = true).
    { rewrite Hr in Hxl. rewrite forallb_forall in Hnames. exact (Hnames x Hxl). }
    destruct x as [| | |name| |]; try discriminate.
    apply Hin. exact Hxl.
Qed.

Lemma allOf_merged_in_array_order_witness :
  exists P R,
    resolve_refs ex_read_json ex_sibling ex_set_order 6 (JObj ex_allOf) ex_allOf_root
                 "schemas/plans.schema.json"
    = Ok (JObj [("type", JStr "object"); ("properties", JObj P); ("required", JArr R);
                ("additionalProperties", JBool false)])
    /\ dict_get "id" P = Some (JObj [("type", JStr "integer")])
    /\ dict_get "source" P = Some ex_string
    /\ (In (JStr "id") R /\ In (JStr "plan") R /\ NoDup R).
Proof.
  destruct (allOf_merged_in_array_order ex_read_json ex_sibling ex_set_order
              5 ex_allOf ex_allOf_members [ex_base; ex_own] ex_allOf_root
              "schemas/plans.schema.json"
              (fun l => Permutation_refl l) eq_refl eq_refl)
    as (P & R & Hresult & _ & Hprops & HnoDup & Hrequired).
  - repeat constructor.
  - reflexivity.
  - exists P, R. split; [exact Hresult|].
    split; [rewrite Hprops; reflexivity|].
    split; [rewrite Hprops; reflexivity|].
    split; [|split; [|exact HnoDup]].
    + apply Hrequired. exists ex_base. split; [left; reflexivity | left; reflexivity].
    + apply Hrequired. exists ex_own.
      split; [right; left; reflexivity | left; reflexivity].
Defined.

(** C4, as stated, fails on a fragment that has an ['allOf'] list next to a
    ['$ref']: the reference is followed, the list is not looked at, and the
    result is the definition the reference names, not a merge. *)
Lemma ref_takes_precedence_over_allOf :
  dict_get "allOf" ex_ref_and_allOf = Some (JArr [ex_own])
  /\ resolve_refs ex_read_json ex_sibling ex_set_order 3 (JObj ex_ref_and_allOf)
                  ex_common "schemas/common.json"
     = Ok ex_string
  /\ ~ (exists fuel P R rest,
           resolve_refs ex_read_json ex_sibling ex_set_order fuel (JObj ex_ref_and_allOf)
                        ex_common "schemas/common.json"
           = Ok (JObj (("type", JStr "object") :: ("properties", JObj P)
                       :: ("required", JArr R) :: rest))).
Proof.
  split; [reflexivity|]. split; [reflexivity|].
  intros (fuel & P & R & rest & H).
  destruct fuel as [|[|[|fuel]]]; simpl in H; discriminate.
Qed.

(* ================================================================== *)
(** * The order of the loaded events *)

Lemma ltb_leb (a b : string) : String.ltb a b = negb (String.leb b a).
Proof.
  unfold String.ltb, String.leb. rewrite (String.compare_antisym a b).
  destruct (String.compare b a); reflexivity.
Qed.

Lemma leb_lt_or_eq (a b : string) :
  String.leb a b = true <-> a = b \/ String_as_OT.lt a b.
Proof.
  unfold String.leb. split.
  - destruct (String.compare a b) eqn:E; intros H; try discriminate.
    + left. apply String_as_OT.cmp_eq; exact E.
    + right. apply String_as_OT.cmp_lt; exact E.
  - intros [->|Hlt].
    + assert (E : String_as_OT.cmp b b = Eq) by (apply String_as_OT.cmp_eq; reflexivity).
      unfold String_as_OT.cmp in E. rewrite E. reflexivity.
    + apply String_as_OT.cmp_lt in Hlt. unfold String_as_OT.cmp in Hlt.
      rewrite Hlt. reflexivity.
Qed.

Lemma leb_trans (a b c : string) :
  String.leb a b = true -> String.leb b c = true -> String.leb a c = true.
Proof.
  rewrite !leb_lt_or_eq. intros [->|Hab] [->|Hbc]; auto.
  right. eapply String_as_OT.lt_trans; eassumption.
Qed.

Lemma in_order_trans (reverse : bool) (a b c : string) :
  in_order reverse a b -> in_order reverse b c -> in_order reverse a c.
Proof.
  unfold in_order. destruct reverse; intros Hab Hbc; eapply leb_trans; eassumption.
Qed.

Lemma in_order_antisym (reverse : bool) (a b : string) :
  in_order reverse a b -> in_order reverse b a -> a = b.
Proof.
  unfold in_order. destruct reverse; intros Hab Hba;
    apply String.leb_antisym; assumption.
Qed.

Section Sorting.

Context {A : Type}.
Variable key : A -> string.
Variable reverse : bool.

Local Abbreviation keys_ordered := (keys_in_order key reverse).

(** The test of [insert_by]: [y] stays in front of [x]. *)
Lemma insert_test (x y : A) :
  (if reverse then String.ltb (key x) (key y) else String.ltb (key y) (key x)) = true
  -> keys_ordered y x.
Proof.
  unfold keys_in_order, in_order. destruct reverse; rewrite ltb_leb;
    intros H; apply negb_true_iff in H.
  - destruct (String.leb_total (key x) (key y)) as [E|E]; [exact E | congruence].
  - destruct (String.leb_total (key y) (key x)) as [E|E]; [exact E | congruence].
Qed.

Lemma insert_test_false (x y : A) :
  (if reverse then String.ltb (key x) (key y) else String.ltb (key y) (key x)) = false
  -> keys_ordered x y.
Proof.
  unfold keys_in_order, in_order. destruct reverse; rewrite ltb_leb;
    intros H; apply negb_false_iff in H; exact H.
Qed.

Lemma insert_by_perm (x : A) (l : list A) :
  Permutation (insert_by key reverse x l) (x :: l).
Proof.
  induction l as [|y ys IH]; simpl; [reflexivity|].
  destruct (if reverse then _ else _); [|reflexivity].
  rewrite IH. apply perm_swap.
Qed.

Lemma sorted_perm (l : list A) : Permutation (sorted key reverse l) l.
Proof.
  induction l as [|x xs IH]; simpl; [reflexivity|].
  rewrite insert_by_perm. constructor; exact IH.
Qed.

Lemma insert_by_sorted (x : A) (l : list A) :
  StronglySorted keys_ordered l ->
  StronglySorted keys_ordered (insert_by key reverse x l).
Proof.
  induction 1 as [|y ys Hs IH Hall]; simpl.
  - repeat constructor.
  - destruct (if reverse then _ else _) eqn:Htest.
    + constructor; [exact IH|].
      apply (Permutation_Forall (Permutation_sym (insert_by_perm x ys))).
      constructor; [apply insert_test; exact Htest | exact Hall].
    + apply insert_test_false in Htest.
      constructor; [constructor; assumption|].
      constructor; [exact Htest|].
      eapply Forall_impl; [|exact Hall].
      intros z Hz. unfold keys_in_order in *.
      eapply in_order_trans; eassumption.
Qed.

Lemma sorted_sorted (l : list A) : StronglySorted keys_ordered (sorted key reverse l).
Proof.
  induction l as [|x xs IH]; simpl; [constructor | apply insert_by_sorted, IH].
Qed.

End Sorting.

Lemma StronglySorted_map {A} (key : A -> string) (reverse : bool) (l : list A) :
  StronglySorted (keys_in_order key reverse) l ->
  StronglySorted (in_order reverse) (map key l).
Proof.
  induction 1 as [|x xs Hs IH Hall]; simpl; constructor; [exact IH|].
  apply Forall_map. exact Hall.
Qed.

(** A list of strings has one arrangement that is in order. *)
Lemma in_order_unique (reverse : bool) (l1 : list string) :
  forall l2,
    StronglySorted (in_order reverse) l1 ->
    StronglySorted (in_order reverse) l2 ->
    Permutation l1 l2 ->
    l1 = l2.
Proof.
  induction l1 as [|a l1 IH]; intros l2 H1 H2 Hperm.
  - apply Permutation_nil in Hperm. symmetry; exact Hperm.
  - destruct l2 as [|b l2].
    { apply Permutation_sym, Permutation_nil in Hperm. discriminate. }
    apply StronglySorted_inv in H1 as [H1 Ha].
    apply StronglySorted_inv in H2 as [H2 Hb].
    rewrite Forall_forall in Ha, Hb.
    assert (a = b) as <-.
    { assert (Hin_a : In a (b :: l2))
        by (apply (Permutation_in _ Hperm); left; reflexivity).
      assert (Hin_b : In b (a :: l1))
        by (apply (Permutation_in _ (Permutation_sym Hperm)); left; reflexivity).
      destruct Hin_a as [->|Hin_a]; [reflexivity|].
      destruct Hin_b as [->|Hin_b]; [reflexivity|].
      apply (in_order_antisym reverse); [apply Ha | apply Hb]; assumption. }
    f_equal. apply IH; try assumption.
    apply Permutation_cons_inv in Hperm. exact Hperm.
Qed.

Lemma sorted_permutation (reverse : bool) (l1 l2 : list string) :
  Permutation l1 l2 ->
  sorted (fun p => p) reverse l1 = sorted (fun p => p) reverse l2.
Proof.
  intros Hperm. apply (in_order_unique reverse).
  - exact (sorted_sorted (fun p => p) reverse l1).
  - exact (sorted_sorted (fun p => p) reverse l2).
  - rewrite !sorted_perm. exact Hperm.
Qed.

(** C5: the events that [load_schemas] returns, and so the keys of the
    embedded schema table, are in descending order of event name; the order
    in which the file system enumerates the files does not change the
    result; and two runs that load the same event names return them in the
    same order, wherever the files and the documents list them. *)
Theorem load_schemas_descending
        (read_json : string -> option json) (sibling : string -> string -> string)
        (set_order : list json -> list json) (glob : string -> list string)
        (fuel : nat) (pattern : string) (events : list ResolvedEvent) :
  load_schemas read_json sibling set_order glob fuel pattern = Ok events ->
  StronglySorted (fun a b => String.leb (event_name b) (event_name a) = true) events
  /\ StronglySorted (fun a b => String.leb b a = true) (schema_table_keys events)
  /\ (forall glob',
         Permutation (glob pattern) (glob' pattern) ->
         load_schemas read_json sibling set_order glob' fuel pattern = Ok events)
  /\ (forall read_json' sibling' set_order' glob' fuel' pattern' events',
         load_schemas read_json' sibling' set_order' glob' fuel' pattern' = Ok events' ->
         Permutation (map event_name events) (map event_name events') ->
         map event_name events = map event_name events').
Proof.
  assert (Hsorted : forall rj sb so gl fl pt evs,
             load_schemas rj sb so gl fl pt = Ok evs ->
             StronglySorted (keys_in_order event_name true) evs).
  { intros rj sb so gl fl pt evs H. unfold load_schemas in H.
    apply bind_Ok_inv in H as (per_file & _ & H). inversion H; subst.
    apply sorted_sorted. }
  intros H. repeat split.
  - exact (Hsorted _ _ _ _ _ _ _ H).
  - exact (StronglySorted_map event_name true events (Hsorted _ _ _ _ _ _ _ H)).
  - intros glob' Hperm. unfold load_schemas in *.
    rewrite <- (sorted_permutation false _ _ Hperm). exact H.
  - intros rj sb so gl fl pt events' H' Hperm.
    apply (in_order_unique true).
    + apply StronglySorted_map. exact (Hsorted _ _ _ _ _ _ _ H).
    + apply StronglySorted_map. exact (Hsorted _ _ _ _ _ _ _ H').
    + exact Hperm.
Qed.

Lemma load_schemas_descending_witness :
  exists events,
    load_schemas ex_read_json ex_sibling ex_set_order ex_glob 3
                 "schemas/events/*.schema.json" = Ok events
    /\ map event_name events = ["beta_event"; "alpha_event"]
    /\ StronglySorted (fun a b => String.leb (event_name b) (event_name a) = true) events.
Proof.
  eexists. split; [reflexivity|]. split; [reflexivity|].
  apply (load_schemas_descending ex_read_json ex_sibling ex_set_order ex_glob 3
           "schemas/events/*.schema.json").
  reflexivity.
Defined.

(* ================================================================== *)
(** * The wrapper's validation *)

Lemma dict_get_In (k : string) (d : dict) (v : json) :
  dict_get k d = Some v -> In (k, v) d.
Proof.
  induction d as [|[k' v'] d IH]; simpl; [discriminate|].
  destruct (k' =? k)%string eqn:E.
  - apply String.eqb_eq in E; subst. intros H; inversion H; left; reflexivity.
  - intros H; right; apply IH; exact H.
Qed.

Section Validation.

Variable py_str : json -> string.
Variable warn_raises : list string -> string -> option exn.
Variable sdk_raises : list sdk_call -> sdk_call -> option exn.
Variable schemas : dict.

Local Abbreviation missing := (missing_required py_str).

(** The loop over ['required'] when the names are strings: it completes,
    keeps the errors it was given and reports every absent name. *)
Lemma check_required_names (properties : dict) (names : list json) :
  forallb is_name names = true ->
  forall errors,
  exists more,
    foldM (check_required py_str properties) names errors = Ok (errors ++ more)
    /\ forall name, In (JStr name) names -> has_key name properties = false ->
                    In (missing (JStr name)) more.
Proof.
  induction names as [|x names IH]; simpl; intros Hnames errors.
  - exists []. rewrite app_nil_r. split; [reflexivity | intros ? []].
  - apply andb_prop in Hnames as [Hx Hnames].
    destruct x as [| | |name| |]; try discriminate.
    unfold check_required at 1. simpl.
    destruct (has_key name properties) eqn:Hkey; simpl.
    + destruct (IH Hnames errors) as (more & Hfold & Hmissing).
      exists more. split; [exact Hfold|].
      intros n [Hn|Hn] Habsent; [inversion Hn; subst; congruence|].
      apply Hmissing; assumption.
    + destruct (IH Hnames (errors ++ [missing (JStr name)])) as (more & Hfold & Hmissing).
      exists (missing (JStr name) :: more). split.
      * rewrite Hfold, <- app_assoc. reflexivity.
      * intros n [Hn|Hn] Habsent; [inversion Hn; subst; left; reflexivity|].
        right; apply Hmissing; assumption.
Qed.

(** The check of one property against a well-formed schema completes and
    keeps the errors it was given. *)
Lemma check_property_well_formed (sd : dict) (errors : list string)
      (item : string * json) :
  well_formed_schema sd = true ->
  exists more, check_property py_str sd errors item = Ok (errors ++ more).
Proof.
  intros Hwf. unfold well_formed_schema in Hwf.
  apply andb_prop in Hwf as [_ Hprops].
  unfold check_property, get_default.
  destruct (dict_get "properties" sd) as [[| | | | |props]|] eqn:Hget;
    try discriminate.
  - simpl. unfold has_key at 1.
    destruct (dict_get (fst item) props) as [prop_schema|] eqn:Hfield; simpl.
    + rewrite Hget. simpl. rewrite Hfield. simpl.
      rewrite forallb_forall in Hprops.
      specialize (Hprops _ (dict_get_In _ _ _ Hfield)). simpl in Hprops.
      destruct prop_schema as [| | | | |p]; try discriminate. simpl.
      unfold has_key. simpl in Hprops.
      destruct (dict_get "enum" p) as [[| | | |allowed|]|]; try discriminate; simpl.
      * destruct (existsb (py_eq (snd item)) allowed);
          [exists []; rewrite app_nil_r; reflexivity | eexists; reflexivity].
      * exists []; rewrite app_nil_r; reflexivity.
    + exists []; rewrite app_nil_r; reflexivity.
  - simpl. exists []; rewrite app_nil_r; reflexivity.
Qed.

Lemma check_properties_well_formed (sd : dict) (properties : dict) :
  well_formed_schema sd = true ->
  forall errors,
  exists more, foldM (check_property py_str sd) properties errors = Ok (errors ++ more).
Proof.
  intros Hwf. induction properties as [|item properties IH]; simpl; intros errors.
  - exists []; rewrite app_nil_r; reflexivity.
  - destruct (check_property_well_formed sd errors item Hwf) as (more1 & ->). simpl.
    destruct (IH (errors ++ more1)) as (more2 & ->).
    exists (more1 ++ more2). rewrite app_assoc. reflexivity.
Qed.

(** What [_validate] returns is [None] or a list that is not empty. *)
Lemma validate_Some_nonempty (mode : ValidationMode) (event : string)
      (properties : dict) (errors : list string) :
  _validate py_str schemas mode event properties = Ok (Some errors) ->
  errors <> [].
Proof.
  unfold _validate. intros H.
  assert (Hbody : forall schema,
             (if negb (truthy schema) then Ok None else
                match schema with
                | JObj sd =>
                    required <- py_iter (get_default "required" sd (JArr [])) ;;
                    errors <- foldM (check_required py_str properties) required [] ;;
                    errors <- foldM (check_property py_str sd) properties errors ;;
                    Ok (match errors with [] => None | _ => Some errors end)
                | _ => Raise AttributeError
                end) = Ok (Some errors) -> errors <> []).
  { intros schema Hs. destruct (negb (truthy schema)); [discriminate|].
    destruct schema as [| | | | |sd]; try discriminate.
    apply bind_Ok_inv in Hs as (required & _ & Hs).
    apply bind_Ok_inv in Hs as (errs1 & _ & Hs).
    apply bind_Ok_inv in Hs as (errs2 & _ & Hs).
    destruct errs2; inversion Hs; subst; discriminate. }
  destruct mode; try discriminate;
    destruct (dict_get event schemas) as [schema|]; try discriminate;
    exact (Hbody schema H).
Qed.

(** [capture] once [_validate] has returned errors. *)
Lemma capture_errors (mode : ValidationMode) (w : world) (distinct_id event : string)
      (properties : option dict) (kwargs : dict) (errors : list string) :
  _validate py_str schemas mode event (or_empty properties) = Ok (Some errors) ->
  capture py_str warn_raises sdk_raises schemas mode w distinct_id event properties kwargs
  = and_then
      match mode with
      | STRICT =>
          (Raise (PyValueError ("Validation failed for event '" ++ event ++ "': "
                                ++ py_str (JArr (map JStr errors)))%string), w)
      | WARNING =>
          and_then
            (warnings_warn warn_raises w
               ("Validation failed for event '" ++ event ++ "': "
                ++ py_str (JArr (map JStr errors)))%string)
            (fun w1 =>
               posthog_capture sdk_raises w1
                 {| c_distinct_id := distinct_id;
                    c_event := "$schema_validation_warning";
                    c_properties := JObj [("event", JStr event);
                                          ("errors", JArr (map JStr errors));
                                          ("properties", JObj (or_empty properties))]%string;
                    c_kwargs := [] |})
      | DISABLED => (Ok tt, w)
      end
      (fun w' =>
         posthog_capture sdk_raises w'
           {| c_distinct_id := distinct_id; c_event := event;
              c_properties := JObj (or_empty properties); c_kwargs := kwargs |}).
Proof.
  intros H. pose proof (validate_Some_nonempty _ _ _ _ H) as Hne.
  unfold capture. rewrite H.
  destruct errors as [|e es]; [congruence|]. reflexivity.
Qed.

(** [capture] once [_validate] has returned [None]. *)
Lemma capture_valid (mode : ValidationMode) (w : world) (distinct_id event : string)
      (properties : option dict) (kwargs : dict) :
  _validate py_str schemas mode event (or_empty properties) = Ok None ->
  capture py_str warn_raises sdk_raises schemas mode w distinct_id event properties kwargs
  = posthog_capture sdk_raises w
      {| c_distinct_id := distinct_id; c_event := event;
         c_properties := JObj (or_empty properties); c_kwargs := kwargs |}.
Proof. intros H. unfold capture. rewrite H. reflexivity. Qed.

End Validation.

Section Capture.

Variable py_str : json -> string.
Variable schemas : dict.

Lemma validate_missing_required (mode : ValidationMode) (event : string)
      (properties sd : dict) (field : string) :
  mode <> DISABLED ->
  dict_get event schemas = Some (JObj sd) ->
  well_formed_schema sd = true ->
  In (JStr field) (required_fields sd) ->
  has_key field properties = false ->
  exists errors,
    _validate py_str schemas mode event properties = Ok (Some errors)
    /\ In (missing_required py_str (JStr field)) errors.
Proof.
  intros Hmode Hget Hwf Hin Habsent.
  assert (Hwf' := Hwf). unfold well_formed_schema in Hwf'.
  apply andb_prop in Hwf' as [Hreq _]. unfold required_fields in Hin.
  destruct (dict_get "required" sd) as [[| | | |names|]|] eqn:Hrequired;
    try contradiction; try discriminate.
  destruct (check_required_names py_str properties names Hreq [])
    as (more1 & Hfold1 & Hmissing).
  destruct (check_properties_well_formed py_str sd properties Hwf ([] ++ more1))
    as (more2 & Hfold2).
  exists (more1 ++ more2). split.
  - unfold _validate. rewrite Hget, (dict_get_Some_truthy _ _ _ Hrequired).
    unfold get_default. rewrite Hrequired. simpl negb. cbv iota. simpl py_iter.
    cbn [bind]. rewrite Hfold1. cbn [bind]. rewrite Hfold2. cbn [bind app].
    specialize (Hmissing _ Hin Habsent).
    destruct more1 as [|e more1]; [contradiction|].
    destruct mode; try reflexivity. congruence.
  - apply in_or_app; left. apply Hmissing; assumption.
Qed.

(** Whatever the schema, the loop over ['required'] raises or keeps the
    errors it was given and reports every absent name. *)
Lemma check_required_any (properties : dict) (names : list json) :
  forall errors,
    (exists e, foldM (check_required py_str properties) names errors = Raise e)
    \/ exists more,
        foldM (check_required py_str properties) names errors = Ok (errors ++ more)
        /\ forall name, In (JStr name) names -> has_key name properties = false ->
                        In (missing_required py_str (JStr name)) more.
Proof.
  induction names as [|x names IH]; intros errors; simpl.
  - right. exists []. rewrite app_nil_r. split; [reflexivity | intros ? []].
  - unfold check_required at 1 3. simpl.
    destruct (hash_key x) eqn:Hx; simpl; [|left; eexists; reflexivity].
    destruct (match x with JStr k => has_key k properties | _ => false end) eqn:Hin;
      cbn [bind].
    + destruct (IH errors) as [[e He]|(more & Hm & Hmissing)];
        [left; exists e; exact He|].
      right. exists more. split; [exact Hm|].
      intros name [->|Hname] Habsent; [congruence | apply Hmissing; assumption].
    + destruct (IH (errors ++ [missing_required py_str x]))
        as [[e He]|(more & Hm & Hmissing)]; [left; exists e; exact He|].
      right. exists (missing_required py_str x :: more). split.
      * rewrite Hm, <- app_assoc. reflexivity.
      * intros name [->|Hname] Habsent; [left; reflexivity|].
        right; apply Hmissing; assumption.
Qed.

Lemma py_contains_settles (container x : json) :
  (exists e, py_contains container x = Raise e) \/ exists b, py_contains container x = Ok b.
Proof.
  destruct container as [| | |s|l|d]; simpl;
    try (left; eexists; reflexivity); try (right; eexists; reflexivity).
  - destruct x; [left|left|left|right|left|left]; eexists; reflexivity.
  - destruct (hash_key x); [right|left]; eexists; reflexivity.
Qed.

Lemma py_index_settles (container : json) (k : string) :
  (exists e, py_index container k = Raise e) \/ exists v, py_index container k = Ok v.
Proof.
  destruct container as [| | |s|l|d]; simpl; try (left; eexists; reflexivity).
  destruct (dict_get k d); [right|left]; eexists; reflexivity.
Qed.

(** Whatever the schema, the check of one property raises or keeps the
    errors it was given. *)
Lemma check_property_any (sd : dict) (errors : list string) (item : string * json) :
  (exists e, check_property py_str sd errors item = Raise e)
  \/ exists more, check_property py_str sd errors item = Ok (errors ++ more).
Proof.
  assert (Hkeep : exists more, @Ok (list string) errors = Ok (errors ++ more))
    by (exists []; rewrite app_nil_r; reflexivity).
  unfold check_property.
  destruct (py_contains_settles (get_default "properties" sd (JObj [])) (JStr (fst item)))
    as [[e ->]|[declared ->]]; [left; eexists; reflexivity|]. cbn [bind].
  destruct declared; [|right; exact Hkeep].
  destruct (py_index_settles (JObj sd) "properties") as [[e ->]|[props ->]];
    [left; eexists; reflexivity|]. cbn [bind].
  destruct (py_index_settles props (fst item)) as [[e ->]|[prop_schema ->]];
    [left; eexists; reflexivity|]. cbn [bind].
  destruct (py_contains_settles prop_schema (JStr "enum")) as [[e ->]|[has_enum ->]];
    [left; eexists; reflexivity|]. cbn [bind].
  destruct has_enum; [|right; exact Hkeep].
  destruct (py_index_settles prop_schema "enum") as [[e ->]|[enum ->]];
    [left; eexists; reflexivity|]. cbn [bind].
  destruct (py_contains_settles enum (snd item)) as [[e ->]|[allowed ->]];
    [left; eexists; reflexivity|]. cbn [bind].
  destruct allowed; right; [exact Hkeep | eexists; reflexivity].
Qed.

Lemma check_properties_any (sd properties : dict) :
  forall errors,
    (exists e, foldM (check_property py_str sd) properties errors = Raise e)
    \/ exists more, foldM (check_property py_str sd) properties errors = Ok (errors ++ more).
Proof.
  induction properties as [|item properties IH]; simpl; intros errors.
  - right. exists []. rewrite app_nil_r. reflexivity.
  - destruct (check_property_any sd errors item) as [[e ->]|[more1 ->]];
      [left; eexists; reflexivity|]. cbn [bind].
    destruct (IH (errors ++ more1)) as [[e ->]|[more2 ->]];
      [left; eexists; reflexivity|].
    right. exists (more1 ++ more2). rewrite app_assoc. reflexivity.
Qed.

(** Whatever the schema, [_validate] raises or returns errors when a
    required name is absent from the properties. *)
Lemma validate_missing_required_any (mode : ValidationMode) (event : string)
      (properties sd : dict) (field : string) :
  mode <> DISABLED ->
  dict_get event schemas = Some (JObj sd) ->
  In (JStr field) (required_fields sd) ->
  has_key field properties = false ->
  (exists e, _validate py_str schemas mode event properties = Raise e)
  \/ exists error errors,
      _validate py_str schemas mode event properties = Ok (Some (error :: errors)).
Proof.
  intros Hmode Hget Hin Habsent. unfold required_fields in Hin.
  destruct (dict_get "required" sd) as [[| | | |names|]|] eqn:Hrequired;
    try contradiction.
  assert (Hbody :
            (exists e,
                (required <- py_iter (get_default "required" sd (JArr [])) ;;
                 errors <- foldM (check_required py_str properties) required [] ;;
                 errors <- foldM (check_property py_str sd) properties errors ;;
                 Ok (match errors with [] => None | _ => Some errors end))
                = Raise e)
            \/ exists error errors,
                (required <- py_iter (get_default "required" sd (JArr [])) ;;
                 errors <- foldM (check_required py_str properties) required [] ;;
                 errors <- foldM (check_property py_str sd) properties errors ;;
                 Ok (match errors with [] => None | _ => Some errors end))
                = Ok (Some (error :: errors))).
  { unfold get_default. rewrite Hrequired. simpl py_iter. cbn [bind].
    destruct (check_required_any properties names [])
      as [[e ->]|(more1 & -> & Hmissing)]; [left; eexists; reflexivity|].
    cbn [bind app]. specialize (Hmissing _ Hin Habsent).
    destruct more1 as [|error more1]; [contradiction|].
    destruct (check_properties_any sd properties (error :: more1))
      as [[e ->]|(more2 & ->)]; [left; eexists; reflexivity|].
    right. exists error, (more1 ++ more2). reflexivity. }
  unfold _validate. rewrite Hget, (dict_get_Some_truthy _ _ _ Hrequired).
  simpl negb. cbv iota.
  destruct mode; try exact Hbody. congruence.
Qed.

(** The loop over ['required'] when no property is given: it stops at a
    name that cannot be hashed, or records an error for every name. *)
Lemma check_required_no_properties (names : list json) :
  forall errors,
    (exists e, foldM (check_required py_str []) names errors = Raise e)
    \/ exists more,
        foldM (check_required py_str []) names errors = Ok (errors ++ more)
        /\ length more = length names.
Proof.
  induction names as [|x names IH]; intros errors; simpl.
  - right. exists []. rewrite app_nil_r. split; reflexivity.
  - unfold check_required at 1 3. simpl.
    destruct (hash_key x) eqn:Hx; simpl; [|left; eexists; reflexivity].
    assert (Hfalse : match x with JStr k => has_key k [] | _ => false end = false)
      by (destruct x; reflexivity).
    rewrite Hfalse. cbn [bind].
    destruct (IH (errors ++ [missing_required py_str x])) as [[e He]|(more & Hm & Hlen)].
    + left. exists e. exact He.
    + right. exists (missing_required py_str x :: more). split.
      * rewrite Hm, <- app_assoc. reflexivity.
      * simpl. rewrite Hlen. reflexivity.
Qed.

Lemma validate_no_properties (mode : ValidationMode) (event : string)
      (sd : dict) (name : json) (names : list json) :
  mode <> DISABLED ->
  dict_get event schemas = Some (JObj sd) ->
  dict_get "required" sd = Some (JArr (name :: names)) ->
  (exists e, _validate py_str schemas mode event [] = Raise e)
  \/ exists error errors,
      _validate py_str schemas mode event [] = Ok (Some (error :: errors)).
Proof.
  intros Hmode Hget Hrequired.
  assert (Hbody :
            (exists e,
                (required <- py_iter (get_default "required" sd (JArr [])) ;;
                 errors <- foldM (check_required py_str []) required [] ;;
                 errors <- foldM (check_property py_str sd) [] errors ;;
                 Ok (match errors with [] => None | _ => Some errors end))
                = Raise e)
            \/ exists error errors,
                (required <- py_iter (get_default "required" sd (JArr [])) ;;
                 errors <- foldM (check_required py_str []) required [] ;;
                 errors <- foldM (check_property py_str sd) [] errors ;;
                 Ok (match errors with [] => None | _ => Some errors end))
                = Ok (Some (error :: errors))).
  { unfold get_default. rewrite Hrequired. simpl py_iter. cbn [bind].
    destruct (check_required_no_properties (name :: names) [])
      as [[e He]|(more & Hm & Hlen)].
    - left. exists e. rewrite He. reflexivity.
    - right. rewrite Hm. simpl app. cbn [bind foldM].
      destruct more as [|error errors]; [discriminate|].
      exists error, errors. reflexivity. }
  unfold _validate. rewrite Hget, (dict_get_Some_truthy _ _ _ Hrequired).
  simpl negb. cbv iota.
  destruct mode; try exact Hbody. congruence.
Qed.

End Capture.

(** C2 (as amended): in [STRICT] mode, for an event whose schema is in the
    table, a call of [capture] whose properties lack a required field
    fails and leaves the world as it was, so the SDK receives no call;
    when the schema is well formed the failure is the [ValueError] whose
    message holds the event name and the list of errors, and that list
    names the absent field. *)
Theorem strict_blocks_missing_required
        (py_str : json -> string)
        (warn_raises : list string -> string -> option exn)
        (sdk_raises : list sdk_call -> sdk_call -> option exn)
        (schemas : dict) (w : world)
        (distinct_id event : string) (properties : option dict) (kwargs : dict)
        (sd : dict) (field : string) :
  dict_get event schemas = Some (JObj sd) ->
  In (JStr field) (required_fields sd) ->
  has_key field (match properties with Some p => p | None => [] end) = false ->
  (exists e,
      capture py_str warn_raises sdk_raises schemas STRICT w distinct_id event
              properties kwargs
      = (Raise e, w))
  /\ (well_formed_schema sd = true ->
      exists errors,
        In ("Missing required field: " ++ py_str (JStr field))%string errors
        /\ capture py_str warn_raises sdk_raises schemas STRICT w distinct_id event
                   properties kwargs
           = (Raise (PyValueError ("Validation failed for event '" ++ event ++ "': "
                                   ++ py_str (JArr (map JStr errors)))%string),
              w)).
Proof.
  intros Hget Hin Habsent. split.
  - destruct (validate_missing_required_any py_str schemas STRICT event
                (or_empty properties) sd field)
      as [[e He]|(error & errors & Hval)]; try assumption; try discriminate.
    + exists e. unfold capture. rewrite He. reflexivity.
    + eexists.
      rewrite (capture_errors py_str warn_raises sdk_raises schemas STRICT w distinct_id
                 event properties kwargs (error :: errors) Hval).
      reflexivity.
  - intros Hwf.
    destruct (validate_missing_required py_str schemas STRICT event
                (or_empty properties) sd field) as (errors & Hval & Herr);
      try assumption; try discriminate.
    exists errors. split; [exact Herr|].
    rewrite (capture_errors py_str warn_raises sdk_raises schemas STRICT w distinct_id
               event properties kwargs errors Hval).
    reflexivity.
Qed.

Lemma strict_blocks_missing_required_witness :
  exists errors,
    In "Missing required field: plan"%string errors
    /\ capture ex_py_str ex_default_filter ex_sdk ex_schemas STRICT ex_world "user-1"
               "plan_chosen" (Some [("seats", JNum 3)]) []
       = (Raise (PyValueError ("Validation failed for event 'plan_chosen': "
                               ++ ex_py_str (JArr (map JStr errors)))%string),
          ex_world).
Proof.
  apply (strict_blocks_missing_required ex_py_str ex_default_filter ex_sdk ex_schemas
           ex_world "user-1" "plan_chosen" (Some [("seats", JNum 3)]) []
           ex_plan_schema "plan").
  - reflexivity.
  - simpl. left. reflexivity.
  - reflexivity.
  - reflexivity.
Defined.

(** C2, as stated, fails on a schema that is in the table and is not well
    formed: the ['enum'] of [flag] is a string, the test [3 not in "ab"]
    raises [TypeError], and the failure of the call is that exception, not
    the validation error with the event name and the list of errors. *)
Lemma strict_failure_can_be_a_TypeError :
  dict_get "flag_set" ex_flag_schemas = Some (JObj ex_flag_schema)
  /\ In (JStr "plan") (required_fields ex_flag_schema)
  /\ has_key "plan" [("flag", JNum 3)] = false
  /\ capture ex_py_str ex_default_filter ex_sdk ex_flag_schemas STRICT ex_world "user-1"
             "flag_set" (Some [("flag", JNum 3)]) []
     = (Raise TypeError, ex_world).
Proof. repeat split. left. reflexivity. Qed.

(** C3 (as amended): in [WARNING] mode, when [_validate] returns a list of
    errors, [warnings.warn] returns and the SDK takes the diagnostic call,
    the SDK receives two calls after those it had: the
    ['$schema_validation_warning'] event with the event name, the errors
    and the properties, then the event itself with its distinct id, name,
    properties and keyword arguments; one warning is given, with the event
    name and the errors; and the call of [capture] ends as the second call
    of the SDK does. *)
Theorem warning_sends_diagnostic_then_event
        (py_str : json -> string)
        (warn_raises : list string -> string -> option exn)
        (sdk_raises : list sdk_call -> sdk_call -> option exn)
        (schemas : dict) (w : world)
        (distinct_id event : string) (properties : option dict) (kwargs : dict)
        (errors : list string) :
  let given := match properties with Some p => p | None => [] end in
  let error_msg := ("Validation failed for event '" ++ event ++ "': "
                    ++ py_str (JArr (map JStr errors)))%string in
  let diagnostic := {| c_distinct_id := distinct_id;
                       c_event := "$schema_validation_warning";
                       c_properties := JObj [("event", JStr event);
                                             ("errors", JArr (map JStr errors));
                                             ("properties", JObj given)]%string;
                       c_kwargs := [] |} in
  let forwarded := {| c_distinct_id := distinct_id; c_event := event;
                      c_properties := JObj given; c_kwargs := kwargs |} in
  _validate py_str schemas WARNING event given = Ok (Some errors) ->
  warn_raises (warned w) error_msg = None ->
  sdk_raises (sdk_calls w) diagnostic = None ->
  errors <> []
  /\ capture py_str warn_raises sdk_raises schemas WARNING w distinct_id event
             properties kwargs
     = (match sdk_raises (sdk_calls w ++ [diagnostic]) forwarded with
        | Some e => Raise e
        | None => Ok tt
        end,
        {| sdk_calls := sdk_calls w ++ [diagnostic; forwarded];
           warned := warned w ++ [error_msg] |}).
Proof.
  intros given error_msg diagnostic forwarded Hval Hwarn Hsdk.
  subst forwarded diagnostic error_msg given.
  change (match properties with Some p => p | None => [] end)
    with (or_empty properties) in *.
  split.
  - exact (validate_Some_nonempty py_str schemas _ _ _ _ Hval).
  - rewrite (capture_errors py_str warn_raises sdk_raises schemas WARNING w distinct_id
               event properties kwargs errors Hval).
    unfold and_then, warnings_warn, posthog_capture.
    rewrite Hwarn. cbn [sdk_calls warned]. rewrite Hsdk.
    rewrite <- app_assoc. reflexivity.
Qed.

Lemma warning_sends_diagnostic_then_event_witness :
  capture ex_py_str ex_default_filter ex_sdk ex_schemas WARNING ex_world "user-1"
          "plan_chosen" (Some [("plan", JStr "trial")]) [("timestamp", JNum 7)]
  = (Ok tt,
     {| sdk_calls :=
          [{| c_distinct_id := "user-1";
              c_event := "$schema_validation_warning";
              c_properties :=
                JObj [("event", JStr "plan_chosen");
                      ("errors", JArr [JStr "Invalid enum value for plan: trial"]);
                      ("properties", JObj [("plan", JStr "trial")])]%string;
              c_kwargs := [] |};
           {| c_distinct_id := "user-1";
              c_event := "plan_chosen";
              c_properties := JObj [("plan", JStr "trial")]%string;
              c_kwargs := [("timestamp", JNum 7)]%string |}];
        warned := ["Validation failed for event 'plan_chosen': ['Invalid enum value for plan: trial']"%string] |}).
Proof.
  apply (warning_sends_diagnostic_then_event ex_py_str ex_default_filter ex_sdk
           ex_schemas ex_world "user-1" "plan_chosen" (Some [("plan", JStr "trial")])
           [("timestamp", JNum 7)]%string
           ["Invalid enum value for plan: trial"%string]);
    reflexivity.
Defined.

(** C3, as stated, fails when the warnings filter has the action
    ['error']: [warnings.warn] raises the warning before either call of
    the SDK, the call of [capture] fails with it, and the SDK receives
    nothing. *)
Lemma warning_raised_as_error_sends_nothing :
  _validate ex_py_str ex_schemas WARNING "plan_chosen" [("plan", JStr "trial")]
  = Ok (Some ["Invalid enum value for plan: trial"%string])
  /\ capture ex_py_str ex_error_filter ex_sdk ex_schemas WARNING ex_world "user-1"
             "plan_chosen" (Some [("plan", JStr "trial")]) []
     = (Raise (UserWarning "Validation failed for event 'plan_chosen': ['Invalid enum value for plan: trial']"),
        {| sdk_calls := [];
           warned := ["Validation failed for event 'plan_chosen': ['Invalid enum value for plan: trial']"%string] |}).
Proof. split; reflexivity. Qed.

(** C10: a call of [capture] without properties is the call with an empty
    dict.  So in [STRICT] mode an event whose schema requires at least one
    field fails, and the SDK receives nothing; in [DISABLED] mode, and for
    an event that is not in the table, the SDK receives one call, the
    event with its distinct id, its name, the empty dict for its
    properties and its keyword arguments, and the call of [capture] ends
    as that call does. *)
Theorem capture_without_properties
        (py_str : json -> string)
        (warn_raises : list string -> string -> option exn)
        (sdk_raises : list sdk_call -> sdk_call -> option exn)
        (schemas : dict) (w : world)
        (distinct_id event : string) (kwargs : dict) :
  let forwarded := {| c_distinct_id := distinct_id; c_event := event;
                      c_properties := JObj []; c_kwargs := kwargs |} in
  let sent := (match sdk_raises (sdk_calls w) forwarded with
               | Some e => Raise e
               | None => Ok tt
               end,
               {| sdk_calls := sdk_calls w ++ [forwarded]; warned := warned w |}) in
  (forall mode,
      capture py_str warn_raises sdk_raises schemas mode w distinct_id event None kwargs
      = capture py_str warn_raises sdk_raises schemas mode w distinct_id event (Some [])
                kwargs)
  /\ (forall sd name names,
         dict_get event schemas = Some (JObj sd) ->
         dict_get "required" sd = Some (JArr (name :: names)) ->
         exists e,
           capture py_str warn_raises sdk_raises schemas STRICT w distinct_id event None
                   kwargs
           = (Raise e, w))
  /\ capture py_str warn_raises sdk_raises schemas DISABLED w distinct_id event None
             kwargs
     = sent
  /\ (forall mode,
         dict_get event schemas = None ->
         capture py_str warn_raises sdk_raises schemas mode w distinct_id event None
                 kwargs
         = sent).
Proof.
  intros forwarded sent. repeat split.
  - intros sd name names Hget Hrequired.
    destruct (validate_no_properties py_str schemas STRICT event sd name names)
      as [[e He]|(error & errors & Hval)]; try assumption; try discriminate.
    + exists e. unfold capture. simpl or_empty. rewrite He. reflexivity.
    + eexists.
      rewrite (capture_errors py_str warn_raises sdk_raises schemas STRICT w distinct_id
                 event None kwargs (error :: errors) Hval).
      reflexivity.
  - intros mode Hget.
    rewrite (capture_valid py_str warn_raises sdk_raises schemas mode w distinct_id
               event None kwargs); [reflexivity|].
    unfold _validate. rewrite Hget. destruct mode; reflexivity.
Qed.

Lemma capture_without_properties_witness :
  (exists e,
      capture ex_py_str ex_default_filter ex_sdk ex_schemas STRICT ex_world "user-1"
              "plan_chosen" None []
      = (Raise e, ex_world))
  /\ capture ex_py_str ex_default_filter ex_sdk ex_schemas WARNING ex_world "user-1"
             "page_viewed" None [("timestamp", JNum 7)]
     = (Ok tt,
        {| sdk_calls := [{| c_distinct_id := "user-1"; c_event := "page_viewed";
                            c_properties := JObj [];
                            c_kwargs := [("timestamp", JNum 7)]%string |}];
           warned := [] |}).
Proof.
  destruct (capture_without_properties ex_py_str ex_default_filter ex_sdk ex_schemas
              ex_world "user-1" "plan_chosen" []) as (_ & Hstrict & _).
  destruct (capture_without_properties ex_py_str ex_default_filter ex_sdk ex_schemas
              ex_world "user-1" "page_viewed" [("timestamp", JNum 7)]%string)
    as (_ & _ & _ & Hunknown).
  split.
  - apply (Hstrict ex_plan_schema (JStr "plan") []); reflexivity.
  - apply Hunknown. reflexivity.
Defined.

(* ================================================================== *)
(** * A reference to a whole file *)

(** C1: the event [signed_up] refers to a whole file, [./common.json], and
    that document uses a reference itself.  [load_schemas] stores the
    document as it was read: the ['$ref'] under [properties.user] is still
    there. *)
Theorem whole_file_ref_left_unresolved :
  forall fuel,
    exists ev,
      load_schemas ex_read_json ex_sibling ex_set_order ex_glob (S fuel)
                   "schemas/whole*.schema.json" = Ok [ev]
      /\ event_name ev = "signed_up"%string
      /\ schema ev = ex_common
      /\ ref_free (schema ev) = false.
Proof.
  intros fuel. eexists. split; [reflexivity|]. repeat split.
Qed.

(** The same document reached through a fragment is resolved. *)
Example fragment_ref_resolved :
  resolve_refs ex_read_json ex_sibling ex_set_order 5
               (JObj [("$ref", JStr "./common.json#/properties")]) (JObj [])
               "schemas/whole.schema.json"
  = Ok (JObj [("user", ex_string)]).
Proof. reflexivity. Qed.

(* ================================================================== *)
(** * What resolution leaves of the references it follows *)

Lemma dict_get_None_keys (k : string) (d : dict) :
  dict_get k d = None <-> Forall (fun kv => fst kv <> k) d.
Proof.
  induction d as [|[k' v] d IH]; simpl.
  - split; [constructor | reflexivity].
  - destruct (k' =? k)%string eqn:E.
    + apply String.eqb_eq in E; subst. split; [discriminate|].
      intros H; inversion H; subst; simpl in *; congruence.
    + apply String.eqb_neq in E. rewrite IH. split.
      * intros H; constructor; assumption.
      * intros H; inversion H; assumption.
Qed.

Lemma ref_free_obj (d : dict) :
  ref_free (JObj d) = true <-> Forall plain_entry d.
Proof.
  cbn [ref_free]. unfold has_key, plain_entry.
  rewrite !andb_true_iff, !negb_true_iff, forallb_forall, Forall_forall.
  split.
  - intros [[Href Hall] Hvals] kv Hkv.
    assert (Href' : dict_get "$ref" d = None) by (destruct (dict_get "$ref" d); congruence).
    assert (Hall' : dict_get "allOf" d = None) by (destruct (dict_get "allOf" d); congruence).
    rewrite dict_get_None_keys, Forall_forall in Href', Hall'.
    repeat split; auto.
  - intros H.
    assert (Href : dict_get "$ref" d = None).
    { apply dict_get_None_keys, Forall_forall. intros kv Hkv. apply H, Hkv. }
    assert (Hall : dict_get "allOf" d = None).
    { apply dict_get_None_keys, Forall_forall. intros kv Hkv. apply H, Hkv. }
    rewrite Href, Hall. repeat split. intros kv Hkv. apply H, Hkv.
Qed.

Lemma falsy_ref_free (j : json) : truthy j = false -> ref_free j = true.
Proof.
  destruct j as [| | | |[|x items]|[|kv d]]; simpl; intros H;
    try reflexivity; discriminate.
Qed.

Lemma is_keyword_false (k : string) :
  is_keyword k = false <-> k <> "$ref"%string /\ k <> "allOf"%string.
Proof.
  unfold is_keyword. rewrite orb_false_iff, !String.eqb_neq. reflexivity.
Qed.

Lemma tidy_iff (j : json) :
  tidy j = true <-> ref_free j = true /\ no_keyword_value j = true.
Proof. unfold tidy. apply andb_true_iff. Qed.

Lemma resolvable_iff (j : json) :
  resolvable j = true <-> refs_followed j = true /\ no_keyword_value j = true.
Proof. unfold resolvable. apply andb_true_iff. Qed.

Lemma tidy_obj (d : dict) : tidy (JObj d) = true <-> Forall tidy_entry d.
Proof.
  rewrite tidy_iff, ref_free_obj. cbn [no_keyword_value].
  rewrite forallb_forall, !Forall_forall. unfold tidy_entry, plain_entry. split.
  - intros [Hfree Hplain] kv Hkv. destruct (Hfree kv Hkv) as (Href & Hall & Hv).
    repeat split; try assumption. apply tidy_iff. split; [exact Hv | exact (Hplain kv Hkv)].
  - intros H. split; intros kv Hkv; destruct (H kv Hkv) as (Href & Hall & Hv);
      apply tidy_iff in Hv as [Hv Hw]; [repeat split; assumption | exact Hw].
Qed.

Lemma tidy_arr (items : list json) :
  tidy (JArr items) = true <-> Forall (fun x => tidy x = true) items.
Proof.
  rewrite tidy_iff. cbn [ref_free no_keyword_value].
  rewrite !forallb_forall, Forall_forall. split.
  - intros [Hfree Hplain] x Hx. apply tidy_iff. split; [apply Hfree | apply Hplain]; exact Hx.
  - intros H. split; intros x Hx; apply (proj1 (tidy_iff x) (H x Hx)).
Qed.

Lemma falsy_tidy (j : json) : truthy j = false -> tidy j = true.
Proof.
  destruct j as [| | |s|[|x items]|[|kv d]]; simpl; intros H;
    try reflexivity; try discriminate.
  apply negb_false_iff, String.eqb_eq in H. subst s. reflexivity.
Qed.

Lemma tidy_field (k : string) (d : dict) (v : json) :
  tidy (JObj d) = true -> dict_get k d = Some v -> tidy v = true.
Proof.
  rewrite tidy_obj, Forall_forall. intros H Hget.
  apply (H _ (dict_get_In _ _ _ Hget)).
Qed.

Lemma resolvable_field (k : string) (d : dict) (v : json) :
  resolvable (JObj d) = true -> dict_get k d = Some v -> resolvable v = true.
Proof.
  rewrite !resolvable_iff. cbn [refs_followed no_keyword_value]. intros [H Hplain] Hget.
  apply andb_prop in H as [_ H]. rewrite forallb_forall in H, Hplain.
  split; [exact (H _ (dict_get_In _ _ _ Hget)) | exact (Hplain _ (dict_get_In _ _ _ Hget))].
Qed.

Lemma walk_internal_resolvable (ref_path : list string) :
  forall root v,
    resolvable root = true ->
    walk_internal root ref_path = Ok v ->
    resolvable v = true.
Proof.
  induction ref_path as [|part rest IH]; simpl; intros root v Hroot H.
  - inversion H; subst; exact Hroot.
  - destruct root as [| | | | |d]; try discriminate.
    destruct (dict_get part d) as [w|] eqn:Hget.
    + pose proof (resolvable_field _ _ _ Hroot Hget) as Hw.
      destruct w; try (inversion H; subst; reflexivity); eapply IH; eauto.
    + inversion H; subst; reflexivity.
Qed.

Lemma walk_external_resolvable (ref_fragment : list string) :
  forall root v,
    resolvable root = true ->
    walk_external root ref_fragment = Ok v ->
    resolvable v = true.
Proof.
  induction ref_fragment as [|part rest IH]; simpl; intros root v Hroot H.
  - inversion H; subst; exact Hroot.
  - destruct root as [| | | | |d]; try discriminate.
    apply (IH _ _) in H; [exact H|].
    destruct (dict_get part d) as [w|] eqn:Hget; [|reflexivity].
    exact (resolvable_field _ _ _ Hroot Hget).
Qed.

(** The members of an ['allOf']: the items of a list; for a dict its keys
    and for a string its characters, which are strings. *)
Lemma py_iter_members (v : json) (items : list json) :
  resolvable v = true -> py_iter v = Ok items ->
  Forall (fun x => resolvable x = true \/ exists s, x = JStr s) items.
Proof.
  destruct v as [| | |s|l|d]; simpl; intros Hv H; try discriminate;
    inversion H; subst; apply Forall_forall; intros x Hx.
  - apply in_map_iff in Hx as (c & <- & _). right. eexists; reflexivity.
  - left. apply resolvable_iff in Hv as [Hf Hp]. cbn [refs_followed no_keyword_value] in Hf, Hp.
    rewrite forallb_forall in Hf, Hp. apply resolvable_iff. split; [apply Hf | apply Hp]; exact Hx.
  - apply in_map_iff in Hx as (kv & <- & _). right. eexists; reflexivity.
Qed.

(** A character is neither keyword. *)
Lemma chars_tidy (s : string) (x : string) : In x (chars s) -> tidy (JStr x) = true.
Proof.
  induction s as [|a s IH]; simpl; [intros []|].
  intros [<-|Hx]; [|exact (IH Hx)].
  unfold tidy, is_keyword. cbn [ref_free no_keyword_value andb String.eqb].
  unfold is_keyword. cbn [String.eqb].
  destruct (Ascii.eqb a "$"); destruct (Ascii.eqb a "a"); reflexivity.
Qed.

(** What a loop over a value without references yields has none. *)
Lemma py_iter_tidy (v : json) (items : list json) :
  tidy v = true -> py_iter v = Ok items ->
  Forall (fun x => tidy x = true) items.
Proof.
  destruct v as [| | |s|l|d]; simpl; intros Hv H; try discriminate;
    inversion H; subst.
  - apply Forall_forall. intros x Hx. apply in_map_iff in Hx as (c & <- & Hc).
    exact (chars_tidy s c Hc).
  - apply tidy_arr. exact Hv.
  - apply tidy_obj in Hv. rewrite Forall_forall in Hv.
    apply Forall_forall. intros x Hx. apply in_map_iff in Hx as (kv & <- & Hkv).
    destruct (Hv kv Hkv) as (Href & Hall & _).
    apply tidy_iff. split; [reflexivity|]. cbn [no_keyword_value].
    apply negb_true_iff, is_keyword_false. split; assumption.
Qed.

(** The pairs that [dict.update] takes from such a value are entries a
    dict without references can hold. *)
Lemma update_pair_tidy (i : nat) (element : json) (kv : string * json) :
  tidy element = true -> update_pair i element = Ok kv -> tidy_entry kv.
Proof.
  unfold update_pair. intros Helement H.
  apply bind_Ok_inv in H as (pair & Hpair & H).
  pose proof (py_iter_tidy _ _ Helement Hpair) as Htidy.
  destruct pair as [|key [|value [|x pair]]]; try discriminate.
  inversion Htidy as [|? ? Hkey Hrest]; subst.
  inversion Hrest as [|? ? Hvalue _]; subst.
  destruct key as [| | |k| |]; try discriminate. inversion H; subst kv.
  apply tidy_iff in Hkey as [_ Hkey]. cbn [no_keyword_value] in Hkey.
  apply negb_true_iff, is_keyword_false in Hkey as [Href Hall].
  repeat split; assumption.
Qed.

Lemma update_pairs_tidy (elements : list json) :
  forall i kvs,
    Forall (fun x => tidy x = true) elements ->
    update_pairs i elements = Ok kvs ->
    Forall tidy_entry kvs.
Proof.
  induction elements as [|element rest IH]; simpl; intros i kvs Hall H.
  - inversion H; constructor.
  - inversion Hall as [|? ? Helement Hrest]; subst.
    apply bind_Ok_inv in H as (kv & Hkv & H).
    apply bind_Ok_inv in H as (kvs' & Hkvs & H). inversion H; subst kvs.
    constructor; [exact (update_pair_tidy _ _ _ Helement Hkv) | exact (IH _ _ Hrest Hkvs)].
Qed.

Lemma update_items_tidy (v : json) (ps : dict) :
  tidy v = true -> update_items v = Ok ps -> Forall tidy_entry ps.
Proof.
  intros Hv H.
  assert (Hpairs : forall elements,
             py_iter v = Ok elements -> update_pairs 0 elements = Ok ps ->
             Forall tidy_entry ps).
  { intros elements Hiter Hps.
    exact (update_pairs_tidy _ _ _ (py_iter_tidy _ _ Hv Hiter) Hps). }
  destruct v as [| | |s|l|e]; simpl in H; try discriminate.
  - exact (Hpairs _ eq_refl H).
  - exact (Hpairs _ eq_refl H).
  - inversion H; subst. apply tidy_obj. exact Hv.
Qed.

Lemma dict_set_Forall (P : string * json -> Prop) (k : string) (v : json) (d : dict) :
  P (k, v) -> Forall P d -> Forall P (dict_set k v d).
Proof.
  intros Hkv. induction 1 as [|[k' v'] d Hx Hd IH]; simpl.
  - constructor; [exact Hkv | constructor].
  - destruct (k' =? k)%string; constructor; assumption.
Qed.

Lemma dict_update_Forall (P : string * json -> Prop) (e d : dict) :
  Forall P e -> Forall P d -> Forall P (dict_update d e).
Proof.
  unfold dict_update. intros He. revert d.
  induction He as [|[k v] e Hkv He IH]; simpl; intros d Hd; [exact Hd|].
  apply IH, dict_set_Forall; assumption.
Qed.

Lemma merge_member_tidy (m m' : merged) (r : json) :
  (forall d, r = JObj d -> tidy r = true) ->
  merged_tidy m -> merge_member m r = Ok m' -> merged_tidy m'.
Proof.
  intros Hr (Hp & Hq & Ha) H.
  destruct r as [| | | | |d]; simpl in H; try (inversion H; subst; repeat split; assumption).
  specialize (Hr d eq_refl).
  apply bind_Ok_inv in H as (ps & Hps & H).
  apply bind_Ok_inv in H as (rs & Hrs & H).
  inversion H; subst m'; clear H. unfold get_default in *. repeat split; simpl.
  - apply dict_update_Forall; [|exact Hp].
    apply (update_items_tidy _ _) in Hps; [exact Hps|].
    destruct (dict_get "properties" d) as [v|] eqn:Hget; [|reflexivity].
    exact (tidy_field _ _ _ Hr Hget).
  - apply Forall_app; split; [exact Hq|].
    apply (py_iter_tidy _ _) in Hrs; [exact Hrs|].
    destruct (dict_get "required" d) as [v|] eqn:Hget; [|reflexivity].
    exact (tidy_field _ _ _ Hr Hget).
  - intros a. destruct (dict_get "additionalProperties" d) as [v|] eqn:Hget.
    + intros Hv; inversion Hv; subst. exact (tidy_field _ _ _ Hr Hget).
    + apply Ha.
Qed.

Lemma merged_json_tidy (m : merged) (R : list json) :
  merged_tidy m -> Forall (fun x => tidy x = true) R ->
  tidy (merged_json m R) = true.
Proof.
  intros (Hp & _ & Ha) HR. unfold merged_json. apply tidy_obj.
  apply tidy_obj in Hp. apply tidy_arr in HR.
  repeat (constructor; [repeat split; try discriminate; assumption|]).
  destruct (m_additional m) as [a|]; [|constructor].
  repeat constructor; try discriminate. simpl. apply Ha; reflexivity.
Qed.

Section FollowedReferences.

Variable read_json : string -> option json.
Variable sibling : string -> string -> string.
Variable set_order : list json -> list json.

Hypothesis set_order_perm : forall l, Permutation (set_order l) l.

(** Every document that can be read uses references of the two kinds only,
    and holds neither keyword as a string value. *)
Hypothesis files_resolvable :
  forall p doc, read_json p = Some doc ->
                refs_followed doc = true /\ no_keyword_value doc = true.

Local Abbreviation resolve := (resolve_refs read_json sibling set_order).

Lemma resolve_items_tidy (rec : json -> outcome json) (items items' : list json) :
  (forall x y, resolvable x = true -> rec x = Ok y -> tidy y = true) ->
  Forall (fun x => resolvable x = true) items ->
  mapM rec items = Ok items' ->
  Forall (fun y => tidy y = true) items'.
Proof.
  intros Hrec Hitems H. apply mapM_Ok_inv in H.
  induction H as [|x y xs ys Hxy _ IH]; [constructor|].
  inversion Hitems; subst. constructor; [eapply Hrec; eassumption | apply IH; assumption].
Qed.

Lemma resolve_fields_tidy (rec : json -> outcome json) (d fields : dict) :
  (forall x y, resolvable x = true -> rec x = Ok y -> tidy y = true) ->
  Forall (fun kv => resolvable (snd kv) = true) d ->
  Forall (fun kv => fst kv <> "$ref"%string) d ->
  Forall (fun kv => fst kv <> "allOf"%string) d ->
  mapM (fun kv => v <- rec (snd kv) ;; Ok (fst kv, v)) d = Ok fields ->
  Forall tidy_entry fields.
Proof.
  intros Hrec Hd Href Hall H. apply mapM_Ok_inv in H.
  induction H as [|kv kv' xs ys Hkv _ IH]; [constructor|].
  inversion Hd; inversion Href; inversion Hall; subst.
  apply bind_Ok_inv in Hkv as (v & Hv & Hkv). inversion Hkv; subst kv'.
  constructor; [|apply IH; assumption].
  repeat split; simpl; try assumption. eapply Hrec; eassumption.
Qed.

Lemma resolve_members_tidy (rec : json -> outcome json) (subs : list json) :
  (forall x y, resolvable x = true -> rec x = Ok y -> tidy y = true) ->
  (forall s y, rec (JStr s) = Ok y -> y = JStr s) ->
  Forall (fun x => resolvable x = true \/ exists s, x = JStr s) subs ->
  forall m0 m,
    merged_tidy m0 ->
    foldM (fun m sub_schema => resolved <- rec sub_schema ;; merge_member m resolved)
          subs m0 = Ok m ->
    merged_tidy m.
Proof.
  intros Hrec Hstr Hsubs. induction Hsubs as [|x xs Hx _ IH]; simpl; intros m0 m Hm0 H.
  - inversion H; subst; exact Hm0.
  - apply bind_Ok_inv in H as (m1 & H1 & H).
    apply bind_Ok_inv in H1 as (r & Hr & H1).
    apply (IH m1 m); [|exact H].
    apply (merge_member_tidy m0 m1 r); [|exact Hm0 | exact H1].
    intros d Hd. destruct Hx as [Hx|[s Hs]].
    + exact (Hrec x r Hx Hr).
    + subst x. apply Hstr in Hr. congruence.
Qed.

(** What [resolve_refs] returns on such documents has no reference, and
    holds neither keyword as a string value. *)
Lemma resolve_refs_tidy (fuel : nat) :
  forall schema root_schema file_path r,
    resolvable root_schema = true ->
    resolvable schema = true ->
    resolve fuel schema root_schema file_path = Ok r ->
    tidy r = true.
Proof.
  induction fuel as [|fuel IH]; intros schema root_schema file_path r Hroot Hschema H;
    [discriminate|].
  cbn [resolve_refs] in H.
  destruct (negb (truthy schema)) eqn:Htruthy.
  { inversion H; subst. apply falsy_tidy. apply negb_true_iff; exact Htruthy. }
  assert (Hrec : forall x y, resolvable x = true ->
                             resolve fuel x root_schema file_path = Ok y ->
                             tidy y = true)
    by (intros x y Hx Hy; exact (IH x root_schema file_path y Hroot Hx Hy)).
  assert (Hscalar : forall x, resolvable x = true -> ref_free x = true -> tidy x = true).
  { intros x Hx Hfree. apply resolvable_iff in Hx as [_ Hx]. apply tidy_iff.
    split; assumption. }
  destruct schema as [| | | |items|d];
    try (inversion H; subst; apply Hscalar; [exact Hschema | reflexivity]).
  - apply bind_Ok_inv in H as (items' & Hitems & H). inversion H; subst r.
    apply tidy_arr.
    eapply resolve_items_tidy; [exact Hrec | | exact Hitems].
    apply resolvable_iff in Hschema as [Hf Hp].
    cbn [refs_followed no_keyword_value] in Hf, Hp. rewrite forallb_forall in Hf, Hp.
    apply Forall_forall. intros x Hx. apply resolvable_iff.
    split; [apply Hf | apply Hp]; exact Hx.
  - assert (Hfields : Forall (fun kv => resolvable (snd kv) = true) d).
    { pose proof (proj1 (resolvable_iff _) Hschema) as [Hf Hp].
      cbn [refs_followed no_keyword_value] in Hf, Hp.
      apply andb_prop in Hf as [_ Hf]. rewrite forallb_forall in Hf, Hp.
      apply Forall_forall. intros kv Hkv. apply resolvable_iff.
      split; [apply Hf | apply Hp]; exact Hkv. }
    destruct (dict_get "$ref" d) as [[| | |ref| |]|] eqn:Href; try discriminate.
    + assert (Hkind : followed_ref ref = true).
      { pose proof (proj1 (resolvable_iff _) Hschema) as [Hf _].
        cbn [refs_followed] in Hf. rewrite Href in Hf.
        apply andb_prop in Hf as [Hk _]. exact Hk. }
      unfold followed_ref in Hkind.
      destruct (startswith "#/" ref).
      * apply bind_Ok_inv in H as (resolved & Hwalk & H).
        apply (IH _ _ _ _ Hroot (walk_internal_resolvable _ _ _ Hroot Hwalk) H).
      * simpl in Hkind. apply andb_prop in Hkind as [Hext Hfrag]. rewrite Hext in H.
        destruct (read_json (sibling file_path (hd ""%string (split "#" ref))))
          as [ref_content|] eqn:Hread; [|discriminate].
        assert (Hcontent : resolvable ref_content = true)
          by (apply resolvable_iff; exact (files_resolvable _ _ Hread)).
        destruct (split "#" ref) as [|p0 [|[|c frag] ps]]; try discriminate.
        apply bind_Ok_inv in H as (resolved & Hwalk & H).
        apply (IH _ _ _ _ Hcontent (walk_external_resolvable _ _ _ Hcontent Hwalk) H).
    + destruct (dict_get "allOf" d) as [members|] eqn:Hall.
      * apply bind_Ok_inv in H as (subs & Hsubs & H).
        apply bind_Ok_inv in H as (m & Hm & H).
        apply bind_Ok_inv in H as (R & HR & H). inversion H; subst r.
        assert (Htidy : merged_tidy m).
        { eapply resolve_members_tidy; [exact Hrec | | | | exact Hm].
          - intros s y Hy. destruct fuel; [discriminate|]. cbn [resolve_refs] in Hy.
            destruct (negb (truthy (JStr s))); inversion Hy; reflexivity.
          - apply (py_iter_members members); [|exact Hsubs].
            exact (resolvable_field _ _ _ Hschema Hall).
          - repeat split; try constructor. discriminate. }
        apply merged_json_tidy; [exact Htidy|].
        destruct (list_set_spec set_order set_order_perm _ _ HR) as (_ & Hsub & _).
        destruct Htidy as (_ & Hreq & _). rewrite Forall_forall in Hreq.
        apply Forall_forall. intros x Hx. apply Hreq, Hsub, Hx.
      * apply bind_Ok_inv in H as (fields & Hmap & H). inversion H; subst r.
        apply tidy_obj.
        eapply resolve_fields_tidy; [exact Hrec | exact Hfields | | | exact Hmap];
          apply dict_get_None_keys; assumption.
Qed.

(** X9: when every reference in the fragment, in the root document and in
    the files is an internal pointer or a file with a fragment, and none
    of these documents holds ['$ref'] or ['allOf'] as a string value,
    whatever [resolve_refs] returns has no ['$ref'] and no ['allOf'] key
    left. *)
Lemma resolve_refs_eliminates_followed_refs (fuel : nat) :
  forall schema root_schema file_path r,
    refs_followed root_schema = true ->
    no_keyword_value root_schema = true ->
    refs_followed schema = true ->
    no_keyword_value schema = true ->
    resolve fuel schema root_schema file_path = Ok r ->
    ref_free r = true.
Proof.
  intros schema root_schema file_path r Hroot Hroot' Hschema Hschema' H.
  apply (tidy_iff r).
  apply (resolve_refs_tidy fuel schema root_schema file_path r); [| |exact H];
    apply resolvable_iff; split; assumption.
Qed.

End FollowedReferences.

(* ================================================================== *)
(** * The type projector *)

Section ProjectorFacts.

Variable py_str : json -> string.

Local Abbreviation project := (json_schema_to_python_type py_str).

(** The inner loop of the array case is the call on
    [schema.get('items', {})]. *)
Lemma items_of_get_default (d : dict) :
  (fix items_of (fields : dict) : outcome string :=
     match fields with
     | [] => Ok "Any"%string
     | (k, v) :: fields' =>
         if (k =? "items")%string then project v else items_of fields'
     end) d
  = project (get_default "items" d (JObj [])).
Proof.
  unfold get_default. induction d as [|[k v] d IH]; [reflexivity|].
  cbn [dict_get]. destruct (k =? "items")%string; [reflexivity | exact IH].
Qed.

Lemma project_object (d : dict) :
  project (JObj d)
  = if negb (truthy (JObj d)) then Ok "Any"%string else
      let schema_type := get_default "type" d JNull in
      if py_eq schema_type (JStr "string") then
        if truthy (get_default "enum" d JNull) then
          values <- py_iter (get_default "enum" d JNull) ;;
          Ok ("Literal[" ++ String.concat ", " (map (quoted py_str) values) ++ "]")%string
        else Ok "str"%string
      else if py_eq schema_type (JStr "number") then Ok "float"%string
      else if py_eq schema_type (JStr "integer") then Ok "int"%string
      else if py_eq schema_type (JStr "boolean") then Ok "bool"%string
      else if py_eq schema_type (JStr "array") then
        items_type <- project (get_default "items" d (JObj [])) ;;
        Ok ("List[" ++ items_type ++ "]")%string
      else if py_eq schema_type (JStr "object") then Ok "Dict[str, Any]"%string
      else Ok "Any"%string.
Proof.
  rewrite <- items_of_get_default. cbn [json_schema_to_python_type].
  destruct (negb (truthy (JObj d))); [reflexivity|]. cbv zeta.
  repeat (match goal with
          | |- context [if ?c then _ else _] => destruct c; try reflexivity
          end).
Qed.

Lemma project_not_object (schema : json) :
  (forall d, schema <> JObj d) ->
  project schema = if negb (truthy schema) then Ok "Any"%string else Raise AttributeError.
Proof.
  intros H. destruct schema; try reflexivity. exfalso; eapply H; reflexivity.
Qed.

Lemma depth_items (d : dict) (v : json) :
  dict_get "items" d = Some v -> depth v < depth (JObj d).
Proof.
  intros Hget.
  pose proof (depth_field _ _ (dict_get_In _ _ _ Hget)) as H. simpl in *. lia.
Qed.

(** The members of a literal type are the quoted values of the ['enum']. *)
Lemma project_grammar (n : nat) :
  forall schema t,
    depth schema <= n ->
    project schema = Ok t ->
    type_hint (fun members => exists values, members = map (quoted py_str) values) t.
Proof.
  induction n as [|n IH]; intros schema t Hdepth H.
  { destruct schema; simpl in Hdepth; lia. }
  destruct schema as [| | | | |d];
    try (rewrite project_not_object in H by discriminate;
         destruct (negb (truthy _)); inversion H; constructor).
  rewrite project_object in H.
  destruct (negb (truthy (JObj d))); [inversion H; constructor|]. cbv zeta in H.
  destruct (py_eq (get_default "type" d JNull) (JStr "string")).
  { destruct (truthy (get_default "enum" d JNull)); [|inversion H; constructor].
    apply bind_Ok_inv in H as (values & _ & H). inversion H.
    constructor. exists values; reflexivity. }
  destruct (py_eq (get_default "type" d JNull) (JStr "number")); [inversion H; constructor|].
  destruct (py_eq (get_default "type" d JNull) (JStr "integer")); [inversion H; constructor|].
  destruct (py_eq (get_default "type" d JNull) (JStr "boolean")); [inversion H; constructor|].
  destruct (py_eq (get_default "type" d JNull) (JStr "array")).
  { apply bind_Ok_inv in H as (items_type & Hitems & H). inversion H.
    constructor. unfold get_default in Hitems.
    destruct (dict_get "items" d) as [v|] eqn:Hget.
    - apply (IH v); [|exact Hitems]. pose proof (depth_items d v Hget). lia.
    - simpl in Hitems. inversion Hitems. constructor. }
  destruct (py_eq (get_default "type" d JNull) (JStr "object")); inversion H; constructor.
Qed.

Lemma projectable_object (d : dict) :
  projectable (JObj d)
  = negb (truthy (JObj d))
    || (match dict_get "enum" d with
        | None | Some (JArr _) => true
        | Some _ => false
        end
        && projectable (get_default "items" d (JObj []))).
Proof.
  cbn [projectable]. f_equal. f_equal. unfold get_default.
  induction d as [|[k v] d IH]; [reflexivity|].
  cbn [dict_get]. destruct (k =? "items")%string; [reflexivity | exact IH].
Qed.

Lemma project_total (n : nat) :
  forall schema,
    depth schema <= n ->
    projectable schema = true ->
    exists t, project schema = Ok t.
Proof.
  induction n as [|n IH]; intros schema Hdepth H.
  { destruct schema; simpl in Hdepth; lia. }
  destruct schema as [| | | | |d];
    try (rewrite project_not_object by discriminate; cbn [projectable] in H;
         rewrite orb_false_r in H; rewrite H; eexists; reflexivity).
  rewrite project_object. rewrite projectable_object in H.
  destruct (negb (truthy (JObj d))); [eexists; reflexivity|]. cbv zeta.
  simpl in H. apply andb_prop in H as [Henum Hitems].
  destruct (py_eq (get_default "type" d JNull) (JStr "string")).
  { unfold get_default.
    destruct (dict_get "enum" d) as [[| | | |[|value values]|]|]; try discriminate;
      simpl; eexists; reflexivity. }
  destruct (py_eq (get_default "type" d JNull) (JStr "number")); [eexists; reflexivity|].
  destruct (py_eq (get_default "type" d JNull) (JStr "integer")); [eexists; reflexivity|].
  destruct (py_eq (get_default "type" d JNull) (JStr "boolean")); [eexists; reflexivity|].
  destruct (py_eq (get_default "type" d JNull) (JStr "array")).
  { unfold get_default in *.
    destruct (dict_get "items" d) as [v|] eqn:Hget.
    - destruct (IH v) as [t ->]; [pose proof (depth_items d v Hget); lia | exact Hitems |].
      eexists; reflexivity.
    - eexists; reflexivity. }
  destruct (py_eq (get_default "type" d JNull) (JStr "object")); eexists; reflexivity.
Qed.

End ProjectorFacts.

(** X1: every type hint that [json_schema_to_python_type] returns is
    ['Any'], ['str'], ['float'], ['int'], ['bool'], ['Dict[str, Any]'], a
    ['Literal[...]'] of the quoted values of an ['enum'], or ['List[T]'] for
    such a hint [T]: an object is never expanded into its properties. *)
Theorem projected_type_is_a_type_hint
        (py_str : json -> string) (schema : json) (t : string) :
  json_schema_to_python_type py_str schema = Ok t ->
  type_hint (fun members => exists values, members = map (quoted py_str) values) t.
Proof. intros H. exact (project_grammar py_str (depth schema) schema t (le_n _) H). Qed.

(** X2: [json_schema_to_python_type] returns a type hint, and raises
    nothing, on every schema that is falsy or an object whose ['enum'], if
    any, is an array and whose ['items'], if any, is such a schema again. *)
Theorem projectable_schema_has_a_type
        (py_str : json -> string) (schema : json) :
  projectable schema = true ->
  exists t, json_schema_to_python_type py_str schema = Ok t.
Proof. intros H. exact (project_total py_str (depth schema) schema (le_n _) H). Qed.

(* ================================================================== *)
(** * The typed-dict section *)

Lemma mapM_total {A B} (f : A -> outcome B) (l : list A) :
  Forall (fun x => exists y, f x = Ok y) l -> exists ys, mapM f l = Ok ys.
Proof.
  induction 1 as [|x xs [y Hy] _ [ys Hys]]; simpl.
  - eexists; reflexivity.
  - rewrite Hy. simpl. rewrite Hys. simpl. eexists; reflexivity.
Qed.

Lemma all_or_one_missing (keys names : list string) :
  incl keys names \/ exists k, In k keys /\ ~ In k names.
Proof.
  induction keys as [|k keys [IH|(k' & Hk' & Hnot)]].
  - left. intros k [].
  - destruct (in_dec string_dec k names) as [Hin|Hnot].
    + left. intros k' [<-|Hk']; [exact Hin | apply IH, Hk'].
    + right. exists k. split; [left; reflexivity | exact Hnot].
  - right. exists k'. split; [right; exact Hk' | exact Hnot].
Qed.

Lemma typed_dict_field_object (py_str : json -> string) (required : json)
      (item : string * json) (lines : string) :
  typed_dict_field py_str required item = Ok lines -> exists p, snd item = JObj p.
Proof.
  unfold typed_dict_field. intros H.
  apply bind_Ok_inv in H as (is_required & _ & H).
  apply bind_Ok_inv in H as (prop_type & _ & H).
  apply bind_Ok_inv in H as (description & Hd & _).
  destruct (snd item) as [| | | | |p]; try discriminate. exists p; reflexivity.
Qed.

Lemma typed_dict_class_objects (py_str : json -> string) (ev : ResolvedEvent)
      (text : string) :
  typed_dict_class py_str ev = Ok text -> property_schemas_are_objects ev.
Proof.
  unfold typed_dict_class. intros H props Hprops.
  apply bind_Ok_inv in H as (optional & _ & H). rewrite Hprops in H.
  destruct (negb (truthy (JObj props))) eqn:Hfalsy.
  - destruct props; [constructor | discriminate].
  - apply bind_Ok_inv in H as (lines & Hlines & _). apply mapM_Ok_inv in Hlines.
    clear Hprops Hfalsy.
    induction Hlines as [|item line items ls Hitem _ IH]; [constructor|].
    constructor; [exact (typed_dict_field_object _ _ _ _ Hitem) | exact IH].
Qed.

Lemma typed_dict_class_total (py_str : json -> string) (ev : ResolvedEvent) :
  emittable ev -> exists text, typed_dict_class py_str ev = Ok text.
Proof.
  intros (props & names & Hprops & Hnames & Hall).
  unfold typed_dict_class, has_optional. rewrite Hprops, Hnames. cbn [bind py_len].
  destruct (negb (truthy (JObj props))); [eexists; reflexivity|].
  destruct (mapM_total (typed_dict_field py_str (JArr names)) props) as [lines ->];
    [|eexists; reflexivity].
  eapply Forall_impl; [|exact Hall].
  intros [prop_name prop_schema] [[p Hp] Hproj]. simpl in Hp, Hproj. subst prop_schema.
  unfold typed_dict_field. cbn [fst snd py_contains bind].
  destruct (project_total py_str _ _ (le_n _) Hproj) as [t ->]. cbn [bind].
  eexists; reflexivity.
Qed.

(** The test [len(schema['properties']) > len(schema['required'])] when
    the required names are distinct property names: it holds exactly when
    some property is not required. *)
Lemma has_optional_iff (ev : ResolvedEvent) (props : dict) (names : list string) :
  properties ev = JObj props ->
  required ev = JArr (map JStr names) ->
  NoDup (map fst props) ->
  NoDup names ->
  incl names (map fst props) ->
  exists optional,
    has_optional ev = Ok optional
    /\ (optional = true <-> exists k, In k (map fst props) /\ ~ In k names).
Proof.
  intros Hprops Hreq Hkeys Hnames Hincl.
  unfold has_optional. rewrite Hprops, Hreq. simpl. rewrite length_map.
  eexists. split; [reflexivity|]. rewrite Nat.ltb_lt. split.
  - intros Hlt. destruct (all_or_one_missing (map fst props) names) as [Hall|Hone];
      [|exact Hone].
    pose proof (NoDup_incl_length Hkeys Hall) as Hle. rewrite length_map in Hle. lia.
  - intros (k & Hk & Hnot).
    assert (Hsub : incl names (remove string_dec k (map fst props))).
    { intros n Hn. apply in_in_remove; [intros ->; contradiction | apply Hincl, Hn]. }
    pose proof (NoDup_incl_length Hnames Hsub) as Hle.
    pose proof (remove_length_lt string_dec (map fst props) k Hk) as Hlt.
    rewrite length_map in Hlt. lia.
Qed.

(** The first line of the class. *)
Lemma typed_dict_class_header (py_str : json -> string) (ev : ResolvedEvent)
      (optional : bool) (text : string) :
  has_optional ev = Ok optional ->
  typed_dict_class py_str ev = Ok text ->
  exists body,
    text = (("class " ++ type_name ev ++ "(TypedDict"
             ++ (if optional then ", total=False" else "") ++ "):" ++ nl) ++ body)%string.
Proof.
  unfold typed_dict_class. intros -> H. cbn [bind] in H.
  destruct (negb (truthy (properties ev))).
  - inversion H. eexists; reflexivity.
  - destruct (properties ev) as [| | | | |props]; try discriminate.
    apply bind_Ok_inv in H as (lines & _ & H). inversion H. eexists; reflexivity.
Qed.

(** X3: for an event the emitter can write whose required names are
    distinct property names, the first line of the class is
    [class <type name>(TypedDict, total=False):] when some property is not
    required, and [class <type name>(TypedDict):] when every property is
    required. *)
Theorem total_false_iff_some_property_is_optional
        (py_str : json -> string) (ev : ResolvedEvent) (props : dict)
        (names : list string) :
  properties ev = JObj props ->
  required ev = JArr (map JStr names) ->
  NoDup (map fst props) ->
  NoDup names ->
  incl names (map fst props) ->
  Forall (fun kv => (exists p, snd kv = JObj p) /\ projectable (snd kv) = true) props ->
  ((exists k, In k (map fst props) /\ ~ In k names) ->
   exists body,
     typed_dict_class py_str ev
     = Ok (("class " ++ type_name ev ++ "(TypedDict, total=False):" ++ nl) ++ body)%string)
  /\ ((forall k, In k (map fst props) -> In k names) ->
      exists body,
        typed_dict_class py_str ev
        = Ok (("class " ++ type_name ev ++ "(TypedDict):" ++ nl) ++ body)%string).
Proof.
  intros Hprops Hreq Hkeys Hnames Hincl Hschemas.
  destruct (has_optional_iff ev props names Hprops Hreq Hkeys Hnames Hincl)
    as (optional & Hoptional & Hiff).
  destruct (typed_dict_class_total py_str ev) as [text Htext].
  { exists props, (map JStr names). repeat split; assumption. }
  destruct (typed_dict_class_header py_str ev optional text Hoptional Htext)
    as [body ->].
  split.
  - intros Hsome. apply Hiff in Hsome. subst optional. exists body. exact Htext.
  - intros Hall. destruct optional.
    + destruct (proj1 Hiff eq_refl) as (k & Hk & Hnot). contradiction (Hnot (Hall k Hk)).
    + exists body. exact Htext.
Qed.

(** X4: when [typed_dicts] returns the text of the classes, the schema of
    every property of every event is an object: a property that a missing
    reference left as [None], or any other value, makes the emitter raise. *)
Theorem typed_dicts_needs_object_schemas
        (py_str : json -> string) (schemas : list ResolvedEvent) (text : string) :
  typed_dicts py_str schemas = Ok text ->
  Forall property_schemas_are_objects schemas.
Proof.
  unfold typed_dicts. intros H.
  apply bind_Ok_inv in H as (classes & Hclasses & _). apply mapM_Ok_inv in Hclasses.
  induction Hclasses as [|ev class evs cs Hev _ IH]; [constructor|].
  constructor; [exact (typed_dict_class_objects _ _ _ Hev) | exact IH].
Qed.

(** X5: [typed_dicts] returns a text, and raises nothing, when the
    properties of every event are an object of projectable object schemas
    and its required names are an array. *)
Theorem typed_dicts_of_emittable_events
        (py_str : json -> string) (schemas : list ResolvedEvent) :
  Forall emittable schemas ->
  exists text, typed_dicts py_str schemas = Ok text.
Proof.
  intros Hall. unfold typed_dicts.
  destruct (mapM_total (typed_dict_class py_str) schemas) as [classes ->];
    [|eexists; reflexivity].
  eapply Forall_impl; [|exact Hall].
  intros ev Hev. exact (typed_dict_class_total py_str ev Hev).
Qed.

(* ================================================================== *)
(** * The type name of an event *)

Lemma string_app_empty_r (s : string) : (s ++ "")%string = s.
Proof. induction s as [|a s IH]; simpl; [reflexivity | rewrite IH; reflexivity]. Qed.

Lemma string_app_assoc (a b c : string) :
  ((a ++ b) ++ c)%string = (a ++ b ++ c)%string.
Proof. induction a as [|x a IH]; simpl; [reflexivity | rewrite IH; reflexivity]. Qed.

Lemma map_string_app (f : ascii -> ascii) (a b : string) :
  map_string f (a ++ b) = (map_string f a ++ map_string f b)%string.
Proof. induction a as [|x a IH]; simpl; [reflexivity | rewrite IH; reflexivity]. Qed.

Lemma split_not_nil (c : ascii) (s : string) : split c s <> [].
Proof.
  induction s as [|a s IH]; simpl; [discriminate|].
  destruct (Ascii.eqb a c); [discriminate|].
  destruct (split c s); [contradiction | discriminate].
Qed.

(** Splitting a text around a separator splits both sides. *)
Lemma split_app_sep (c : ascii) (a b : string) :
  split c (a ++ String c b) = split c a ++ split c b.
Proof.
  induction a as [|x a IH]; simpl.
  - rewrite Ascii.eqb_refl. reflexivity.
  - rewrite IH. destruct (Ascii.eqb x c); [reflexivity|].
    pose proof (split_not_nil c a) as Hne.
    destruct (split c a); [contradiction | reflexivity].
Qed.

Lemma join_cons (x : string) (l : list string) :
  String.concat "" (x :: l) = (x ++ String.concat "" l)%string.
Proof.
  destruct l; simpl; [rewrite string_app_empty_r; reflexivity | reflexivity].
Qed.

Lemma join_app (l1 l2 : list string) :
  String.concat "" (l1 ++ l2) = (String.concat "" l1 ++ String.concat "" l2)%string.
Proof.
  induction l1 as [|x l1 IH]; [reflexivity|].
  rewrite <- app_comm_cons, !join_cons, IH, string_app_assoc. reflexivity.
Qed.

Lemma occurs_app (c : ascii) (a b : string) :
  occurs c (a ++ b) = occurs c a || occurs c b.
Proof.
  induction a as [|x a IH]; simpl; [reflexivity|].
  rewrite IH, orb_assoc. reflexivity.
Qed.

Lemma occurs_join (c : ascii) (l : list string) :
  Forall (fun w => occurs c w = false) l -> occurs c (String.concat "" l) = false.
Proof.
  induction 1 as [|w l Hw _ IH]; [reflexivity|].
  rewrite join_cons, occurs_app, Hw, IH. reflexivity.
Qed.

(** The words of a split hold no separator, and no character that the text
    does not hold. *)
Lemma split_words (c x : ascii) (s : string) :
  (Ascii.eqb x c = true \/ occurs x s = false) ->
  Forall (fun w => occurs x w = false) (split c s).
Proof.
  intros Hx. induction s as [|a s IH]; simpl.
  - repeat constructor.
  - assert (IH' : Forall (fun w => occurs x w = false) (split c s)).
    { apply IH. destruct Hx as [Hx|Hx]; [left; exact Hx|].
      right. simpl in Hx. apply orb_false_elim in Hx as [_ Hx]. exact Hx. }
    destruct (Ascii.eqb a c) eqn:Hac.
    + constructor; [reflexivity | exact IH'].
    + destruct (split c s) as [|w ws]; [repeat constructor|].
      * simpl. rewrite orb_false_r.
        destruct Hx as [Hx|Hx].
        -- apply Ascii.eqb_eq in Hx; subst x. exact Hac.
        -- simpl in Hx. apply orb_false_elim in Hx as [Hx _]. exact Hx.
      * inversion IH' as [|? ? Hw Hws]; subst. constructor; [|exact Hws].
        simpl. rewrite Hw, orb_false_r.
        destruct Hx as [Hx|Hx].
        -- apply Ascii.eqb_eq in Hx; subst x. exact Hac.
        -- simpl in Hx. apply orb_false_elim in Hx as [Hx _]. exact Hx.
Qed.

Lemma upper_keeps_separators (a c : ascii) :
  c = "_"%char \/ c = "-"%char -> Ascii.eqb (upper a) c = Ascii.eqb a c.
Proof.
  intros [->| ->]; destruct a as [[] [] [] [] [] [] [] []]; reflexivity.
Qed.

Lemma lower_keeps_separators (a c : ascii) :
  c = "_"%char \/ c = "-"%char -> Ascii.eqb (lower a) c = Ascii.eqb a c.
Proof.
  intros [->| ->]; destruct a as [[] [] [] [] [] [] [] []]; reflexivity.
Qed.

Lemma occurs_map_string (f : ascii -> ascii) (c : ascii) (s : string) :
  (forall a, Ascii.eqb (f a) c = Ascii.eqb a c) ->
  occurs c (map_string f s) = occurs c s.
Proof.
  intros Hf. induction s as [|a s IH]; simpl; [reflexivity|].
  rewrite Hf, IH. reflexivity.
Qed.

Lemma occurs_capitalize (c : ascii) (w : string) :
  c = "_"%char \/ c = "-"%char -> occurs c (capitalize w) = occurs c w.
Proof.
  intros Hc. destruct w as [|a w]; [reflexivity|]. simpl.
  rewrite (upper_keeps_separators a c Hc).
  rewrite (occurs_map_string lower c w (fun x => lower_keeps_separators x c Hc)).
  reflexivity.
Qed.

Lemma no_hyphen_after_replace (s : string) :
  occurs "-" (map_string (fun c => if Ascii.eqb c "-" then "_"%char else c) s) = false.
Proof.
  induction s as [|a s IH]; simpl; [reflexivity|]. rewrite IH, orb_false_r.
  destruct (Ascii.eqb a "-") eqn:E; [reflexivity | exact E].
Qed.

Lemma pascal_case_clean (c : ascii) (name : string) :
  c = "_"%char \/ c = "-"%char -> occurs c (pascal_case name) = false.
Proof.
  intros Hc. unfold pascal_case. apply occurs_join.
  apply Forall_map.
  eapply Forall_impl; [intros w Hw; rewrite (occurs_capitalize c w Hc); exact Hw|].
  apply split_words. destruct Hc as [->| ->].
  - left; reflexivity.
  - right; apply no_hyphen_after_replace.
Qed.

Lemma pascal_case_sep (sep : ascii) (a b : string) :
  sep = "_"%char \/ sep = "-"%char ->
  pascal_case (a ++ String sep b) = (pascal_case a ++ pascal_case b)%string.
Proof.
  intros Hsep. unfold pascal_case. rewrite map_string_app. cbn [map_string].
  assert (Hnorm : (if Ascii.eqb sep "-" then "_"%char else sep) = "_"%char)
    by (destruct Hsep as [->| ->]; reflexivity).
  rewrite Hnorm, split_app_sep, map_app, join_app. reflexivity.
Qed.

(** A map of the characters that keeps the separators in place commutes
    with the split. *)
Lemma split_map_string (f : ascii -> ascii) (c : ascii) (s : string) :
  (forall a, Ascii.eqb (f a) c = Ascii.eqb a c) ->
  split c (map_string f s) = map (map_string f) (split c s).
Proof.
  intros Hf. induction s as [|a s IH]; simpl; [reflexivity|].
  rewrite Hf, IH. destruct (Ascii.eqb a c); [reflexivity|].
  destruct (split c s); reflexivity.
Qed.

Lemma map_string_ext (f g : ascii -> ascii) (s : string) :
  (forall a, f a = g a) -> map_string f s = map_string g s.
Proof.
  intros H. induction s as [|a s IH]; simpl; [reflexivity | rewrite H, IH; reflexivity].
Qed.

Lemma map_string_compose (f g : ascii -> ascii) (s : string) :
  map_string f (map_string g s) = map_string (fun a => f (g a)) s.
Proof. induction s as [|a s IH]; simpl; [reflexivity | rewrite IH; reflexivity]. Qed.

Lemma capitalize_recased (f : ascii -> ascii) (w : string) :
  (forall a, upper (f a) = upper a) ->
  (forall a, lower (f a) = lower a) ->
  capitalize (map_string f w) = capitalize w.
Proof.
  intros Hup Hlo. destruct w as [|a w]; [reflexivity|]. simpl.
  rewrite Hup, map_string_compose, (map_string_ext _ lower w Hlo). reflexivity.
Qed.

(** The type name does not see a change of case that the capitalization
    undoes. *)
Lemma pascal_case_recased (f : ascii -> ascii) (name : string) :
  (forall a, Ascii.eqb (f a) "_" = Ascii.eqb a "_") ->
  (forall a, Ascii.eqb (f a) "-" = Ascii.eqb a "-") ->
  (forall a, upper (f a) = upper a) ->
  (forall a, lower (f a) = lower a) ->
  pascal_case (map_string f name) = pascal_case name.
Proof.
  intros Hus Hhy Hup Hlo. unfold pascal_case.
  assert (Hfix : f "_"%char = "_"%char).
  { apply Ascii.eqb_eq. rewrite Hus. reflexivity. }
  assert (Hnorm : map_string (fun c => if Ascii.eqb c "-" then "_"%char else c)
                             (map_string f name)
                  = map_string f
                      (map_string (fun c => if Ascii.eqb c "-" then "_"%char else c) name)).
  { rewrite !map_string_compose. apply map_string_ext. intros a. rewrite Hhy.
    destruct (Ascii.eqb a "-"); [symmetry; exact Hfix | reflexivity]. }
  rewrite Hnorm, (split_map_string f "_" _ Hus), map_map.
  f_equal. apply map_ext. intros w. apply capitalize_recased; assumption.
Qed.

Lemma lower_recases (a : ascii) :
  Ascii.eqb (lower a) "_" = Ascii.eqb a "_"
  /\ Ascii.eqb (lower a) "-" = Ascii.eqb a "-"
  /\ upper (lower a) = upper a
  /\ lower (lower a) = lower a.
Proof. destruct a as [[] [] [] [] [] [] [] []]; repeat split. Qed.

Lemma upper_recases (a : ascii) :
  Ascii.eqb (upper a) "_" = Ascii.eqb a "_"
  /\ Ascii.eqb (upper a) "-" = Ascii.eqb a "-"
  /\ upper (upper a) = upper a
  /\ lower (upper a) = lower a.
Proof. destruct a as [[] [] [] [] [] [] [] []]; repeat split. Qed.

(** X6: the type name of an ASCII event name is built word by word: for
    two names joined by ['_'] or by ['-'] it is the capitalized words of
    the first followed by the type name of the second. *)
Theorem event_name_to_type_joins_words (sep : ascii) (a b : string) :
  is_ascii a = true ->
  is_ascii b = true ->
  sep = "_"%char \/ sep = "-"%char ->
  event_name_to_type (a ++ String sep b) = (pascal_case a ++ event_name_to_type b)%string.
Proof.
  intros _ _ Hsep.
  change (event_name_to_type (a ++ String sep b))
    with (pascal_case (a ++ String sep b) ++ "Properties")%string.
  change (event_name_to_type b) with (pascal_case b ++ "Properties")%string.
  rewrite (pascal_case_sep sep a b Hsep), string_app_assoc. reflexivity.
Qed.

(** X7: the type name of an ASCII event name holds no ['_'] and no ['-']. *)
Theorem event_name_to_type_drops_separators (name : string) :
  is_ascii name = true ->
  occurs "_" (event_name_to_type name) = false
  /\ occurs "-" (event_name_to_type name) = false.
Proof.
  intros _.
  change (event_name_to_type name) with (pascal_case name ++ "Properties")%string.
  rewrite !occurs_app.
  rewrite (pascal_case_clean "_" name (or_introl eq_refl)).
  rewrite (pascal_case_clean "-" name (or_intror eq_refl)).
  split; reflexivity.
Qed.

(** X8: the type name of an ASCII event name does not depend on the case of
    its letters: the name in lower case and the name in upper case have the
    type name of the name itself. *)
Theorem event_name_to_type_ignores_case (name : string) :
  is_ascii name = true ->
  event_name_to_type (map_string lower name) = event_name_to_type name
  /\ event_name_to_type (map_string upper name) = event_name_to_type name.
Proof.
  intros _.
  change (event_name_to_type name) with (pascal_case name ++ "Properties")%string.
  change (event_name_to_type (map_string lower name))
    with (pascal_case (map_string lower name) ++ "Properties")%string.
  change (event_name_to_type (map_string upper name))
    with (pascal_case (map_string upper name) ++ "Properties")%string.
  rewrite (pascal_case_recased lower name), (pascal_case_recased upper name);
    try (intros a; apply (lower_recases a));
    try (intros a; apply (upper_recases a)).
  split; reflexivity.
Qed.

(* ================================================================== *)
(** * More on the resolver *)

(** X10: references chain: when [k] references lead from a fragment to a
    target, resolving the fragment with [k] more levels of recursion is
    resolving the target, against the document and the file the last
    reference belongs to. *)
Theorem resolve_refs_follows_chain
        (read_json : string -> option json) (sibling : string -> string -> string)
        (set_order : list json -> list json)
        (k : nat) (schema root_schema : json) (file_path : string)
        (target target_root : json) (target_file : string) :
  ref_steps read_json sibling k (schema, root_schema, file_path)
  = Some (target, target_root, target_file) ->
  forall fuel,
    resolve_refs read_json sibling set_order (k + fuel) schema root_schema file_path
    = resolve_refs read_json sibling set_order fuel target target_root target_file.
Proof.
  revert schema root_schema file_path.
  induction k as [|k IH]; intros schema root_schema file_path H fuel.
  - simpl in H. inversion H; subst. reflexivity.
  - cbn [ref_steps] in H.
    destruct (ref_step read_json sibling (schema, root_schema, file_path))
      as [[[s1 r1] p1]|] eqn:Hstep; [|discriminate].
    cbn [plus Nat.add].
    rewrite (resolve_refs_ref_step read_json sibling set_order _ _ _ _ (k + fuel) Hstep).
    simpl. apply IH. exact H.
Qed.

Lemma mapM_length {A B} (f : A -> outcome B) (l : list A) (r : list B) :
  mapM f l = Ok r -> length r = length l.
Proof.
  intros H. apply mapM_Ok_inv in H.
  induction H; simpl; [reflexivity | f_equal; assumption].
Qed.

Lemma mapM_fields_keys (f : json -> outcome json) (d fields : dict) :
  mapM (fun kv => v <- f (snd kv) ;; Ok (fst kv, v)) d = Ok fields ->
  map fst fields = map fst d
  /\ Forall2 (fun kv kv' => f (snd kv) = Ok (snd kv')) d fields.
Proof.
  intros H. apply mapM_Ok_inv in H.
  induction H as [|kv kv' d fields Hkv _ [IHk IHv]]; [split; constructor|].
  apply bind_Ok_inv in Hkv as (v & Hv & Hkv). inversion Hkv; subst kv'.
  split; [simpl; f_equal; exact IHk | constructor; [exact Hv | exact IHv]].
Qed.

(** X11: what is not a reference or a composition keeps its shape: a scalar
    is returned as it is, a list as a list of the same length whose items
    are the resolved items, and an object without ['$ref'] and ['allOf'] as
    an object with the same keys in the same order whose values are the
    resolved values. *)
Theorem resolve_refs_keeps_shape
        (read_json : string -> option json) (sibling : string -> string -> string)
        (set_order : list json -> list json)
        (fuel : nat) (schema root_schema : json) (file_path : string) (r : json) :
  resolve_refs read_json sibling set_order (S fuel) schema root_schema file_path = Ok r ->
  match schema with
  | JArr items =>
      exists items',
        r = JArr items'
        /\ length items' = length items
        /\ Forall2 (fun x y => resolve_refs read_json sibling set_order fuel x
                                            root_schema file_path = Ok y)
                   items items'
  | JObj d =>
      dict_get "$ref" d = None ->
      dict_get "allOf" d = None ->
      exists fields,
        r = JObj fields
        /\ map fst fields = map fst d
        /\ Forall2 (fun kv kv' => resolve_refs read_json sibling set_order fuel (snd kv)
                                               root_schema file_path = Ok (snd kv'))
                   d fields
  | _ => r = schema
  end.
Proof.
  cbn [resolve_refs]. intros H.
  destruct schema as [|b|n|s|items|d]; cbn [truthy] in H.
  - inversion H; reflexivity.
  - destruct (negb b); inversion H; reflexivity.
  - destruct (negb _); inversion H; reflexivity.
  - destruct (negb _); inversion H; reflexivity.
  - destruct items as [|x items]; cbn [negb] in H.
    + inversion H. exists []. repeat split. constructor.
    + apply bind_Ok_inv in H as (items' & Hitems & H). inversion H.
      exists items'. repeat split.
      * exact (mapM_length _ _ _ Hitems).
      * exact (mapM_Ok_inv _ _ _ Hitems).
  - intros Href Hall. rewrite Href, Hall in H.
    destruct d as [|kv d]; cbn [negb] in H.
    + inversion H. exists []. repeat split. constructor.
    + apply bind_Ok_inv in H as (fields & Hfields & H). inversion H.
      destruct (mapM_fields_keys
                  (fun x => resolve_refs read_json sibling set_order fuel x
                                         root_schema file_path)
                  _ _ Hfields) as [Hkeys Hvals].
      exists fields. repeat split; assumption.
Qed.

(* ================================================================== *)
(** * More on the loader *)

Lemma ltb_irrefl (a : string) : String.ltb a a = false.
Proof.
  rewrite ltb_leb. destruct (String.leb_total a a) as [H|H]; rewrite H; reflexivity.
Qed.

(** The sort is stable: the elements with any one key keep their order. *)
Lemma insert_by_stable {A} (key : A -> string) (reverse : bool) (k : string)
      (x : A) (l : list A) :
  filter (fun y => key y =? k)%string (insert_by key reverse x l)
  = filter (fun y => key y =? k)%string (x :: l).
Proof.
  induction l as [|y ys IH]; [reflexivity|].
  cbn [insert_by].
  destruct (if reverse then String.ltb (key x) (key y) else String.ltb (key y) (key x))
    eqn:Htest; [|reflexivity].
  cbn [filter] in *. rewrite IH.
  destruct (key x =? k)%string eqn:Hx; destruct (key y =? k)%string eqn:Hy;
    try reflexivity.
  apply String.eqb_eq in Hx, Hy. rewrite Hx, Hy in Htest.
  rewrite ltb_irrefl in Htest. destruct reverse; discriminate.
Qed.

Lemma sorted_stable {A} (key : A -> string) (reverse : bool) (k : string) (l : list A) :
  filter (fun y => key y =? k)%string (sorted key reverse l)
  = filter (fun y => key y =? k)%string l.
Proof.
  induction l as [|x xs IH]; [reflexivity|].
  cbn [sorted]. rewrite insert_by_stable. cbn [filter]. rewrite IH. reflexivity.
Qed.

Section LoaderFacts.

Variable read_json : string -> option json.
Variable sibling : string -> string -> string.
Variable set_order : list json -> list json.

Local Abbreviation load_one := (load_file read_json sibling set_order).

Lemma load_event_derived (fuel : nat) (content : json) (file_path : string)
      (item : string * json) (ev : ResolvedEvent) :
  load_event read_json sibling set_order fuel content file_path item = Ok ev ->
  event_name ev = fst item /\ derived_from_schema ev.
Proof.
  unfold load_event. intros H. apply bind_Ok_inv in H as (resolved & _ & H).
  destruct resolved as [| | | | |r]; try discriminate. inversion H; subst ev.
  split; [reflexivity|]. split; [reflexivity|].
  exists r. repeat split.
Qed.

Lemma load_file_events (fuel : nat) (file_path : string) (evs : list ResolvedEvent) :
  load_one fuel file_path = Ok evs ->
  map event_name evs = file_event_names read_json file_path
  /\ Forall derived_from_schema evs.
Proof.
  unfold load_file, file_event_names. intros H.
  destruct (read_json file_path) as [content|]; [|discriminate].
  apply bind_Ok_inv in H as (events & Hevents & H). rewrite Hevents.
  apply mapM_Ok_inv in H.
  clear Hevents.
  induction H as [|item ev items evs Hev _ [IHn IHd]];
    [split; [reflexivity | constructor]|].
  apply load_event_derived in Hev as [Hname Hderived].
  split; [simpl; rewrite Hname, IHn; reflexivity | constructor; assumption].
Qed.

Lemma load_files_events (fuel : nat) (files : list string)
      (per_file : list (list ResolvedEvent)) :
  mapM (load_one fuel) files = Ok per_file ->
  map event_name (concat per_file) = flat_map (file_event_names read_json) files
  /\ Forall derived_from_schema (concat per_file).
Proof.
  intros H. apply mapM_Ok_inv in H.
  induction H as [|f evs files per_file Hf _ [IHn IHd]];
    [split; [reflexivity | constructor]|].
  apply load_file_events in Hf as [Hnames Hderived].
  cbn [concat flat_map]. rewrite map_app, Hnames, IHn.
  split; [reflexivity | apply Forall_app; split; assumption].
Qed.

End LoaderFacts.

(** X12: [load_schemas] loses no event and invents none: the names of the
    events it returns are, up to their order, the names under ['events'] of
    the matched files; an event that two files define is returned twice. *)
Theorem load_schemas_returns_every_event
        (read_json : string -> option json) (sibling : string -> string -> string)
        (set_order : list json -> list json) (glob : string -> list string)
        (fuel : nat) (pattern : string) (events : list ResolvedEvent) :
  load_schemas read_json sibling set_order glob fuel pattern = Ok events ->
  Permutation (map event_name events)
              (flat_map (file_event_names read_json) (glob pattern)).
Proof.
  unfold load_schemas. intros H.
  apply bind_Ok_inv in H as (per_file & Hfiles & H). inversion H; subst events.
  apply load_files_events in Hfiles as [Hnames _].
  rewrite (Permutation_map event_name (sorted_perm event_name true (concat per_file))).
  rewrite Hnames. apply Permutation_flat_map. apply sorted_perm.
Qed.

(** X13: every event that [load_schemas] returns has a dict for its schema,
    the type name of its event name, and the ['properties'] and
    ['required'] of that schema, or [{}] and [[]] where the schema has
    none. *)
Theorem load_schemas_events_are_derived
        (read_json : string -> option json) (sibling : string -> string -> string)
        (set_order : list json -> list json) (glob : string -> list string)
        (fuel : nat) (pattern : string) (events : list ResolvedEvent) :
  load_schemas read_json sibling set_order glob fuel pattern = Ok events ->
  Forall derived_from_schema events.
Proof.
  unfold load_schemas. intros H.
  apply bind_Ok_inv in H as (per_file & Hfiles & H). inversion H; subst events.
  apply load_files_events in Hfiles as [_ Hderived].
  apply (Permutation_Forall
           (Permutation_sym (sorted_perm event_name true (concat per_file)))).
  exact Hderived.
Qed.

(** X14: the events of one name come in the order they were loaded: the
    files in the order of their paths, and the events of a file in the
    order of the document. *)
Theorem load_schemas_keeps_load_order
        (read_json : string -> option json) (sibling : string -> string -> string)
        (set_order : list json -> list json) (glob : string -> list string)
        (fuel : nat) (pattern : string) (events : list ResolvedEvent) :
  load_schemas read_json sibling set_order glob fuel pattern = Ok events ->
  exists per_file,
    Forall2 (fun file_path evs =>
               load_file read_json sibling set_order fuel file_path = Ok evs)
            (sorted (fun p => p) false (glob pattern)) per_file
    /\ forall name,
        filter (fun ev => event_name ev =? name)%string events
        = filter (fun ev => event_name ev =? name)%string (concat per_file).
Proof.
  unfold load_schemas. intros H.
  apply bind_Ok_inv in H as (per_file & Hfiles & H). inversion H; subst events.
  exists per_file. split; [exact (mapM_Ok_inv _ _ _ Hfiles)|].
  intros name. apply sorted_stable.
Qed.

(* ================================================================== *)
(** * More on the wrapper's validation *)

Lemma has_key_app (k : string) (d e : dict) :
  has_key k (d ++ e) = has_key k d || has_key k e.
Proof.
  unfold has_key. induction d as [|[k' v] d IH]; simpl; [destruct (dict_get k e); reflexivity|].
  destruct (k' =? k)%string; [reflexivity | exact IH].
Qed.

Lemma filter_none {A} (f : A -> bool) (l : list A) :
  (forall x, In x l -> f x = false) -> filter f l = [].
Proof.
  induction l as [|x l IH]; intros H; [reflexivity|]. simpl.
  rewrite (H x (or_introl eq_refl)). apply IH. intros y Hy. apply H. right; exact Hy.
Qed.

Section ValidationFacts.

Variable py_str : json -> string.
Variable schemas : dict.

Lemma check_required_expected (properties : dict) (names : list json) :
  forallb is_name names = true ->
  forall errors,
    foldM (check_required py_str properties) names errors
    = Ok (errors ++ map (missing_required py_str) (filter (is_absent properties) names)).
Proof.
  induction names as [|x names IH]; simpl; intros Hnames errors.
  - rewrite app_nil_r. reflexivity.
  - apply andb_prop in Hnames as [Hx Hnames].
    destruct x as [| | |name| |]; try discriminate.
    unfold check_required at 1. cbn [py_contains hash_key bind is_absent].
    destruct (has_key name properties); cbn [negb bind].
    + apply IH; exact Hnames.
    + rewrite (IH Hnames). cbn [map]. rewrite <- app_assoc. reflexivity.
Qed.

Lemma check_property_expected (sd : dict) (errors : list string) (item : string * json) :
  well_formed_schema sd = true ->
  check_property py_str sd errors item
  = Ok (errors ++ if outside_enum sd item
                  then [invalid_enum py_str (fst item) (snd item)]
                  else []).
Proof.
  intros Hwf. unfold well_formed_schema in Hwf.
  apply andb_prop in Hwf as [_ Hprops].
  unfold check_property, outside_enum, enum_of, get_default.
  destruct (dict_get "properties" sd) as [[| | | | |props]|] eqn:Hget;
    try discriminate.
  - cbn [py_contains hash_key bind]. unfold has_key at 1.
    destruct (dict_get (fst item) props) as [prop_schema|] eqn:Hfield; cbn [bind].
    + unfold py_index at 1. rewrite Hget. cbn [bind].
      unfold py_index at 1. rewrite Hfield. cbn [bind].
      rewrite forallb_forall in Hprops.
      specialize (Hprops _ (dict_get_In _ _ _ Hfield)). cbn [snd] in Hprops.
      destruct prop_schema as [| | | | |p]; try discriminate.
      cbn [py_contains hash_key bind]. unfold has_key, py_index.
      cbn [property_schema_ok] in Hprops.
      destruct (dict_get "enum" p) as [[| | | |allowed|]|]; try discriminate;
        cbn [bind py_contains].
      * destruct (existsb (py_eq (snd item)) allowed); cbn [negb];
          [rewrite app_nil_r|]; reflexivity.
      * rewrite app_nil_r; reflexivity.
    + rewrite app_nil_r; reflexivity.
  - cbn [py_contains hash_key bind has_key dict_get]. rewrite app_nil_r; reflexivity.
Qed.

Lemma check_properties_expected (sd properties : dict) :
  well_formed_schema sd = true ->
  forall errors,
    foldM (check_property py_str sd) properties errors
    = Ok (errors ++ map (fun item => invalid_enum py_str (fst item) (snd item))
                        (filter (outside_enum sd) properties)).
Proof.
  intros Hwf. induction properties as [|item properties IH]; intros errors.
  - simpl. rewrite app_nil_r. reflexivity.
  - cbn [foldM filter]. rewrite (check_property_expected sd errors item Hwf). cbn [bind].
    rewrite IH. destruct (outside_enum sd item); cbn [map];
      rewrite <- app_assoc; reflexivity.
Qed.

(** [_validate] on a well-formed schema. *)
Lemma validate_expected (mode : ValidationMode) (event : string) (sd properties : dict) :
  mode <> DISABLED ->
  dict_get event schemas = Some (JObj sd) ->
  well_formed_schema sd = true ->
  _validate py_str schemas mode event properties
  = Ok (errors_or_None (expected_errors py_str sd properties)).
Proof.
  intros Hmode Hget Hwf.
  assert (Hbody :
            (if negb (truthy (JObj sd)) then Ok None else
               required <- py_iter (get_default "required" sd (JArr [])) ;;
               errors <- foldM (check_required py_str properties) required [] ;;
               errors <- foldM (check_property py_str sd) properties errors ;;
               Ok (match errors with [] => None | _ => Some errors end))
            = Ok (errors_or_None (expected_errors py_str sd properties))).
  { destruct sd as [|kv sd'] eqn:Hsd.
    - cbn [truthy negb]. unfold expected_errors, required_fields. cbn [dict_get filter map app].
      rewrite filter_none; [reflexivity|].
      intros item _. reflexivity.
    - rewrite <- Hsd in *. assert (Htruthy : negb (truthy (JObj sd)) = false)
        by (rewrite Hsd; reflexivity).
      rewrite Htruthy.
      assert (Hwf' := Hwf). unfold well_formed_schema in Hwf'.
      apply andb_prop in Hwf' as [Hreq _].
      unfold expected_errors, required_fields, get_default.
      destruct (dict_get "required" sd) as [[| | | |names|]|]; try discriminate;
        cbn [py_iter bind].
      + rewrite (check_required_expected properties names Hreq []). cbn [bind app].
        rewrite (check_properties_expected sd properties Hwf). cbn [bind].
        unfold errors_or_None. reflexivity.
      + cbn [foldM bind filter map app].
        rewrite (check_properties_expected sd properties Hwf []). cbn [bind app].
        unfold errors_or_None. reflexivity. }
  unfold _validate. rewrite Hget. destruct mode; try exact Hbody. congruence.
Qed.

(** [_validate] returns or raises; it does not recurse. *)
Lemma validate_settles (mode : ValidationMode) (event : string) (properties : dict) :
  (exists e, _validate py_str schemas mode event properties = Raise e)
  \/ exists errors, _validate py_str schemas mode event properties = Ok errors.
Proof.
  assert (Hbody : forall schema,
             (exists e,
                 (if negb (truthy schema) then Ok None else
                    match schema with
                    | JObj sd =>
                        required <- py_iter (get_default "required" sd (JArr [])) ;;
                        errors <- foldM (check_required py_str properties) required [] ;;
                        errors <- foldM (check_property py_str sd) properties errors ;;
                        Ok (match errors with [] => None | _ => Some errors end)
                    | _ => Raise AttributeError
                    end) = Raise e)
             \/ exists errors,
                 (if negb (truthy schema) then Ok None else
                    match schema with
                    | JObj sd =>
                        required <- py_iter (get_default "required" sd (JArr [])) ;;
                        errors <- foldM (check_required py_str properties) required [] ;;
                        errors <- foldM (check_property py_str sd) properties errors ;;
                        Ok (match errors with [] => None | _ => Some errors end)
                    | _ => Raise AttributeError
                    end) = Ok errors).
  { intros schema. destruct (negb (truthy schema)); [right; eexists; reflexivity|].
    destruct schema as [| | | | |sd]; try (left; eexists; reflexivity).
    destruct (py_iter (get_default "required" sd (JArr []))) as [required| |] eqn:Hiter;
      cbn [bind].
    - destruct (check_required_any py_str properties required [])
        as [[e ->]|(more1 & -> & _)]; [left; eexists; reflexivity|]. cbn [bind].
      destruct (check_properties_any py_str sd properties ([] ++ more1))
        as [[e ->]|(more2 & ->)]; [left; eexists; reflexivity|].
      right; eexists; reflexivity.
    - left; eexists; reflexivity.
    - destruct (get_default "required" sd (JArr [])); discriminate. }
  unfold _validate.
  destruct mode; try (right; eexists; reflexivity);
    (destruct (dict_get event schemas) as [schema|];
     [apply Hbody | right; eexists; reflexivity]).
Qed.

End ValidationFacts.

(** X15: for a well-formed schema [_validate] returns exactly these errors,
    in this order: one for each required name that is not a key of the
    properties, in the order of ['required'], then one for each property
    whose value is outside the ['enum'] of its schema, in the order of the
    properties; and [None] when there is none. *)
Theorem validate_reports_expected_errors
        (py_str : json -> string) (schemas : dict) (mode : ValidationMode)
        (event : string) (sd properties : dict) :
  mode <> DISABLED ->
  dict_get event schemas = Some (JObj sd) ->
  well_formed_schema sd = true ->
  _validate py_str schemas mode event properties
  = Ok (errors_or_None (expected_errors py_str sd properties)).
Proof. intros Hmode Hget Hwf. apply validate_expected; assumption. Qed.

Lemma required_fields_are_names (sd : dict) (x : json) :
  well_formed_schema sd = true -> In x (required_fields sd) -> exists name, x = JStr name.
Proof.
  unfold well_formed_schema, required_fields. intros Hwf Hin.
  apply andb_prop in Hwf as [Hreq _].
  destruct (dict_get "required" sd) as [[| | | |names|]|]; try contradiction.
  rewrite forallb_forall in Hreq. specialize (Hreq x Hin).
  destruct x; try discriminate. eexists; reflexivity.
Qed.

(** X16: in every mode, an event whose properties hold every required name
    and no value outside an ['enum'] of its well-formed schema is forwarded
    to the SDK once, with its distinct id, its name, its properties and
    its keyword arguments, without a warning and without a diagnostic
    event; the call of [capture] ends as that call of the SDK does. *)
Theorem valid_event_is_forwarded_once
        (py_str : json -> string)
        (warn_raises : list string -> string -> option exn)
        (sdk_raises : list sdk_call -> sdk_call -> option exn)
        (schemas : dict) (mode : ValidationMode) (w : world)
        (distinct_id event : string) (properties : option dict) (kwargs sd : dict) :
  let given := match properties with Some p => p | None => [] end in
  let forwarded := {| c_distinct_id := distinct_id; c_event := event;
                      c_properties := JObj given; c_kwargs := kwargs |} in
  dict_get event schemas = Some (JObj sd) ->
  well_formed_schema sd = true ->
  (forall name, In (JStr name) (required_fields sd) -> has_key name given = true) ->
  (forall item, In item given -> outside_enum sd item = false) ->
  capture py_str warn_raises sdk_raises schemas mode w distinct_id event properties kwargs
  = (match sdk_raises (sdk_calls w) forwarded with
     | Some e => Raise e
     | None => Ok tt
     end,
     {| sdk_calls := sdk_calls w ++ [forwarded]; warned := warned w |}).
Proof.
  intros given forwarded Hget Hwf Hrequired Henum. subst forwarded given.
  change (match properties with Some p => p | None => [] end)
    with (or_empty properties) in *.
  rewrite capture_valid; [reflexivity|].
  destruct mode; try reflexivity;
    (rewrite (validate_expected py_str schemas _ event sd (or_empty properties))
      by (try discriminate; assumption);
     unfold expected_errors;
     rewrite (filter_none (outside_enum sd) _ Henum);
     rewrite filter_none; [reflexivity|];
     intros x Hx;
     destruct (required_fields_are_names sd x Hwf Hx) as [name ->];
     cbn [is_absent]; rewrite (Hrequired name Hx); reflexivity).
Qed.

(** X17: a property whose schema declares no ['enum'], or that the schema
    does not declare at all, is never rejected, whatever its value: adding
    it to the properties does not change what [_validate] returns, unless
    its name is required. *)
Theorem property_without_enum_is_not_checked
        (py_str : json -> string) (schemas : dict) (mode : ValidationMode)
        (event : string) (sd properties : dict) (k : string) (v : json) :
  dict_get event schemas = Some (JObj sd) ->
  well_formed_schema sd = true ->
  has_key k properties = false ->
  enum_of sd k = None ->
  ~ In (JStr k) (required_fields sd) ->
  _validate py_str schemas mode event (properties ++ [(k, v)])
  = _validate py_str schemas mode event properties.
Proof.
  intros Hget Hwf _ Hno_enum Hnot_required.
  destruct mode; try reflexivity;
    (rewrite !(validate_expected py_str schemas _ event sd)
      by (try discriminate; assumption);
     unfold expected_errors;
     rewrite filter_app; cbn [filter]; unfold outside_enum at 2; cbn [fst];
     rewrite Hno_enum, app_nil_r;
     rewrite (filter_ext_in (is_absent (properties ++ [(k, v)])) (is_absent properties));
     [reflexivity|];
     intros x Hx;
     destruct (required_fields_are_names sd x Hwf Hx) as [name ->];
     cbn [is_absent]; rewrite has_key_app; f_equal;
     unfold has_key; cbn [dict_get];
     destruct (k =? name)%string eqn:E; [|rewrite orb_false_r; reflexivity];
     apply String.eqb_eq in E; subst name; contradiction).
Qed.

(** X18: whatever the schema table, the mode and the collaborators do, a
    call of [capture] gives the SDK nothing but the event and, in
    [WARNING] mode, one diagnostic event before it.  When the call returns,
    the event was the last call the SDK received; when the SDK received
    no call, the call of [capture] raised; and outside [WARNING] mode no
    warning is given. *)
Theorem capture_sends_event_last
        (py_str : json -> string)
        (warn_raises : list string -> string -> option exn)
        (sdk_raises : list sdk_call -> sdk_call -> option exn)
        (schemas : dict) (mode : ValidationMode) (w : world)
        (distinct_id event : string) (properties : option dict) (kwargs : dict) :
  let given := match properties with Some p => p | None => [] end in
  let forwarded := {| c_distinct_id := distinct_id; c_event := event;
                      c_properties := JObj given; c_kwargs := kwargs |} in
  let diagnostic := fun errors : list string =>
                      {| c_distinct_id := distinct_id;
                         c_event := "$schema_validation_warning";
                         c_properties := JObj [("event", JStr event);
                                               ("errors", JArr (map JStr errors));
                                               ("properties", JObj given)]%string;
                         c_kwargs := [] |} in
  let result := capture py_str warn_raises sdk_raises schemas mode w distinct_id event
                        properties kwargs in
  exists new,
    sdk_calls (snd result) = sdk_calls w ++ new
    /\ (new = [] \/ new = [forwarded]
        \/ (mode = WARNING
            /\ exists errors,
                new = [diagnostic errors] \/ new = [diagnostic errors; forwarded]))
    /\ (fst result = Ok tt -> exists diagnostics, new = diagnostics ++ [forwarded])
    /\ (new = [] -> exists e, fst result = Raise e)
    /\ (mode <> WARNING -> warned (snd result) = warned w).
Proof.
  intros given forwarded diagnostic result. subst result diagnostic forwarded given.
  change (match properties with Some p => p | None => [] end)
    with (or_empty properties) in *.
  unfold capture.
  destruct (validate_settles py_str schemas mode event (or_empty properties))
    as [[e ->]|[[[|error errors]|] ->]].
  - exists []. cbn [fst snd]. rewrite app_nil_r.
    repeat split; auto; try (intros; discriminate). intros _; exists e; reflexivity.
  - exists [{| c_distinct_id := distinct_id; c_event := event;
               c_properties := JObj (or_empty properties); c_kwargs := kwargs |}].
    unfold and_then, posthog_capture. cbn [fst snd sdk_calls warned].
    repeat split; auto; try (intros; discriminate). intros _; exists []; reflexivity.
  - destruct mode; unfold and_then, warnings_warn, posthog_capture.
    + exists []. cbn [fst snd]. rewrite app_nil_r.
      repeat split; auto; try (intros; discriminate).
      intros _; eexists; reflexivity.
    + destruct (warn_raises (warned w) _) as [e|].
      * exists []. cbn [fst snd sdk_calls]. rewrite app_nil_r.
        repeat split; auto; try (intros; discriminate); try congruence.
        intros _; exists e; reflexivity.
      * cbn [sdk_calls warned].
        destruct (sdk_raises (sdk_calls w) _) as [e|].
        -- eexists [_]. cbn [fst snd sdk_calls].
           repeat split; try (intros; discriminate); try congruence.
           right. right. split; [reflexivity|].
           exists (error :: errors). left. reflexivity.
        -- eexists [_; _]. cbn [fst snd sdk_calls]. rewrite <- app_assoc.
           repeat split; try (intros; discriminate); try congruence.
           ++ right. right. split; [reflexivity|].
              exists (error :: errors). right. reflexivity.
           ++ intros _. eexists [_]. reflexivity.
    + eexists [_]. cbn [fst snd sdk_calls warned].
      repeat split; try (intros; discriminate).
      * right. left. reflexivity.
      * intros _; exists []; reflexivity.
  - exists [{| c_distinct_id := distinct_id; c_event := event;
               c_properties := JObj (or_empty properties); c_kwargs := kwargs |}].
    unfold and_then, posthog_capture. cbn [fst snd sdk_calls warned].
    repeat split; auto; try (intros; discriminate). intros _; exists []; reflexivity.
Qed.

(** X20: validation errors do not block an event in [WARNING] mode: for a
    well-formed schema, when [warnings.warn] and the SDK return, the call
    of [capture] returns, whatever the properties, and the event is the
    last call the SDK received. *)
Theorem warning_mode_never_blocks
        (py_str : json -> string)
        (warn_raises : list string -> string -> option exn)
        (sdk_raises : list sdk_call -> sdk_call -> option exn)
        (schemas : dict) (w : world)
        (distinct_id event : string) (properties : option dict) (kwargs sd : dict) :
  let given := match properties with Some p => p | None => [] end in
  let forwarded := {| c_distinct_id := distinct_id; c_event := event;
                      c_properties := JObj given; c_kwargs := kwargs |} in
  let result := capture py_str warn_raises sdk_raises schemas WARNING w distinct_id event
                        properties kwargs in
  dict_get event schemas = Some (JObj sd) ->
  well_formed_schema sd = true ->
  (forall given_before msg, warn_raises given_before msg = None) ->
  (forall received c, sdk_raises received c = None) ->
  exists diagnostics,
    fst result = Ok tt
    /\ sdk_calls (snd result) = sdk_calls w ++ diagnostics ++ [forwarded].
Proof.
  intros given forwarded result Hget Hwf Hwarn Hsdk. subst result forwarded given.
  change (match properties with Some p => p | None => [] end)
    with (or_empty properties) in *.
  pose proof (validate_expected py_str schemas WARNING event sd (or_empty properties))
    as Hval.
  unfold capture. rewrite Hval by (try discriminate; assumption).
  unfold and_then, warnings_warn, posthog_capture.
  destruct (expected_errors py_str sd (or_empty properties)) as [|error errors];
    cbn [errors_or_None].
  - rewrite Hsdk. exists []. split; reflexivity.
  - rewrite Hwarn. cbn [sdk_calls warned]. rewrite !Hsdk. eexists [_].
    cbn [fst snd sdk_calls]. rewrite <- app_assoc. split; reflexivity.
Qed.

(* ================================================================== *)
(** * Documents without references to files *)

Lemma mapM_ext_in {A B} (f g : A -> outcome B) (l : list A) :
  (forall x, In x l -> f x = g x) -> mapM f l = mapM g l.
Proof.
  induction l as [|x xs IH]; intros H; [reflexivity|]. simpl.
  rewrite (H x (or_introl eq_refl)), IH; [reflexivity|].
  intros y Hy. apply H. right; exact Hy.
Qed.

Lemma foldM_ext_in {A S} (f g : S -> A -> outcome S) (l : list A) :
  (forall s x, In x l -> f s x = g s x) -> forall s, foldM f l s = foldM g l s.
Proof.
  induction l as [|x xs IH]; intros H s; [reflexivity|]. simpl.
  rewrite (H s x (or_introl eq_refl)).
  destruct (g s x); try reflexivity. simpl. apply IH.
  intros s' y Hy. apply H. right; exact Hy.
Qed.

Lemma no_file_ref_field (k : string) (d : dict) (v : json) :
  no_file_ref (JObj d) = true -> dict_get k d = Some v -> no_file_ref v = true.
Proof.
  cbn [no_file_ref]. intros H Hget.
  apply andb_prop in H as [_ H]. rewrite forallb_forall in H.
  exact (H _ (dict_get_In _ _ _ Hget)).
Qed.

Lemma walk_internal_no_file_ref (ref_path : list string) :
  forall root v,
    no_file_ref root = true ->
    walk_internal root ref_path = Ok v ->
    no_file_ref v = true.
Proof.
  induction ref_path as [|part rest IH]; simpl; intros root v Hroot H.
  - inversion H; subst; exact Hroot.
  - destruct root as [| | | | |d]; try discriminate.
    destruct (dict_get part d) as [w|] eqn:Hget.
    + pose proof (no_file_ref_field _ _ _ Hroot Hget) as Hw.
      destruct w; try (inversion H; subst; reflexivity); eapply IH; eauto.
    + inversion H; subst; reflexivity.
Qed.

Lemma py_iter_no_file_ref (v : json) (items : list json) :
  no_file_ref v = true -> py_iter v = Ok items ->
  forall x, In x items -> no_file_ref x = true.
Proof.
  destruct v as [| | |s|l|d]; simpl; intros Hv H; try discriminate;
    inversion H; subst; intros x Hx.
  - apply in_map_iff in Hx as (c & <- & _). reflexivity.
  - rewrite forallb_forall in Hv. exact (Hv x Hx).
  - apply in_map_iff in Hx as (kv & <- & _). reflexivity.
Qed.

(** X21: when no reference in the fragment and in the root document names
    a file, [resolve_refs] reads no file and makes no use of the path of
    the current file: the outcome is the same on every file system and for
    every path. *)
Theorem resolve_refs_without_file_refs
        (read_json read_json' : string -> option json)
        (sibling sibling' : string -> string -> string)
        (set_order : list json -> list json)
        (fuel : nat) (schema root_schema : json) (file_path file_path' : string) :
  no_file_ref root_schema = true ->
  no_file_ref schema = true ->
  resolve_refs read_json sibling set_order fuel schema root_schema file_path
  = resolve_refs read_json' sibling' set_order fuel schema root_schema file_path'.
Proof.
  intros Hroot. revert schema.
  induction fuel as [|fuel IH]; intros schema Hschema; [reflexivity|].
  cbn [resolve_refs]. destruct (negb (truthy schema)); [reflexivity|].
  destruct schema as [| | | |items|d]; try reflexivity.
  - cbn [no_file_ref] in Hschema. rewrite forallb_forall in Hschema.
    rewrite (mapM_ext_in _ (fun item => resolve_refs read_json' sibling' set_order fuel
                                                     item root_schema file_path'));
      [reflexivity|].
    intros x Hx. apply IH, Hschema, Hx.
  - assert (Hfields : forall kv, In kv d -> no_file_ref (snd kv) = true).
    { cbn [no_file_ref] in Hschema. apply andb_prop in Hschema as [_ Hd].
      rewrite forallb_forall in Hd. exact Hd. }
    destruct (dict_get "$ref" d) as [[| | |ref| |]|] eqn:Href; try reflexivity.
    + assert (Hkind : startswith "#/" ref || negb (startswith "./" ref) = true).
      { cbn [no_file_ref] in Hschema. rewrite Href in Hschema.
        apply andb_prop in Hschema as [Hk _]. exact Hk. }
      destruct (startswith "#/" ref).
      * destruct (walk_internal root_schema (split "/" (drop 2 ref)))
          as [resolved| |] eqn:Hwalk; try reflexivity.
        cbn [bind]. apply IH. exact (walk_internal_no_file_ref _ _ _ Hroot Hwalk).
      * simpl in Hkind. apply negb_true_iff in Hkind. rewrite Hkind. reflexivity.
    + destruct (dict_get "allOf" d) as [members|] eqn:Hall.
      * destruct (py_iter members) as [subs| |] eqn:Hsubs; try reflexivity.
        cbn [bind].
        rewrite (foldM_ext_in _ (fun m sub_schema =>
                                   resolved <- resolve_refs read_json' sibling' set_order
                                                            fuel sub_schema root_schema
                                                            file_path' ;;
                                   merge_member m resolved));
          [reflexivity|].
        intros m x Hx. rewrite (IH x); [reflexivity|].
        apply (py_iter_no_file_ref members subs); [|exact Hsubs | exact Hx].
        exact (no_file_ref_field _ _ _ Hschema Hall).
      * rewrite (mapM_ext_in _ (fun kv =>
                                  v <- resolve_refs read_json' sibling' set_order fuel
                                                    (snd kv) root_schema file_path' ;;
                                  Ok (fst kv, v)));
          [reflexivity|].
        intros kv Hkv. rewrite (IH (snd kv) (Hfields kv Hkv)). reflexivity.
Qed.

(* ================================================================== *)
(** * The properties above on the example documents *)

Lemma projected_type_is_a_type_hint_witness :
  exists t,
    json_schema_to_python_type ex_py_str ex_tag_lists = Ok t
    /\ type_hint (fun members => exists values, members = map (quoted ex_py_str) values) t.
Proof.
  eexists. split; [reflexivity|].
  apply (projected_type_is_a_type_hint ex_py_str ex_tag_lists). reflexivity.
Defined.

Lemma projectable_schema_has_a_type_witness :
  exists t, json_schema_to_python_type ex_py_str ex_tag_lists = Ok t.
Proof.
  apply (projectable_schema_has_a_type ex_py_str ex_tag_lists). reflexivity.
Defined.

Lemma total_false_iff_some_property_is_optional_witness :
  exists body,
    typed_dict_class ex_py_str ex_plan_event
    = Ok (("class PlanChosenProperties(TypedDict, total=False):" ++ nl) ++ body)%string.
Proof.
  apply (total_false_iff_some_property_is_optional ex_py_str ex_plan_event
           [("plan", JObj [("type", JStr "string");
                           ("enum", JArr [JStr "free"; JStr "paid"])]);
            ("seats", JObj [("type", JStr "integer")])]%string
           ["plan"%string]).
  - reflexivity.
  - reflexivity.
  - constructor; [simpl; intros [H|[]]; discriminate|].
    constructor; [intros [] | constructor].
  - constructor; [intros [] | constructor].
  - intros k [<-|[]]. left; reflexivity.
  - constructor; [split; [eexists; reflexivity | reflexivity]|].
    constructor; [split; [eexists; reflexivity | reflexivity]|].
    constructor.
  - exists "seats"%string. split; [right; left; reflexivity|].
    intros [H|[]]. discriminate.
Defined.

Lemma typed_dicts_needs_object_schemas_witness :
  Forall property_schemas_are_objects [ex_plan_event].
Proof.
  exact (typed_dicts_needs_object_schemas ex_py_str [ex_plan_event] _ eq_refl).
Defined.

Lemma typed_dicts_of_emittable_events_witness :
  exists text, typed_dicts ex_py_str [ex_plan_event] = Ok text.
Proof.
  apply (typed_dicts_of_emittable_events ex_py_str [ex_plan_event]).
  constructor; [|constructor].
  eexists; eexists. split; [reflexivity|]. split; [reflexivity|].
  constructor; [split; [eexists; reflexivity | reflexivity]|].
  constructor; [split; [eexists; reflexivity | reflexivity]|].
  constructor.
Defined.

Lemma event_name_to_type_joins_words_witness :
  event_name_to_type ("user" ++ String "_" "signed-up")
  = (pascal_case "user" ++ event_name_to_type "signed-up")%string.
Proof.
  apply (event_name_to_type_joins_words "_" "user" "signed-up");
    [reflexivity | reflexivity | left; reflexivity].
Defined.

Lemma event_name_to_type_drops_separators_witness :
  occurs "_" (event_name_to_type "user_signed-up") = false
  /\ occurs "-" (event_name_to_type "user_signed-up") = false.
Proof.
  apply (event_name_to_type_drops_separators "user_signed-up"). reflexivity.
Defined.

Lemma event_name_to_type_ignores_case_witness :
  event_name_to_type (map_string lower "User_Signed_UP")
  = event_name_to_type "User_Signed_UP"
  /\ event_name_to_type (map_string upper "User_Signed_UP")
     = event_name_to_type "User_Signed_UP".
Proof.
  apply (event_name_to_type_ignores_case "User_Signed_UP"). reflexivity.
Defined.

Lemma resolve_refs_eliminates_followed_refs_witness :
  exists r,
    resolve_refs ex_read_common ex_sibling ex_set_order 5
                 (JObj [("$ref", JStr "./common.json#/properties")]) (JObj [])
                 "schemas/whole.schema.json"
    = Ok r
    /\ ref_free r = true.
Proof.
  eexists. split; [reflexivity|].
  apply (resolve_refs_eliminates_followed_refs ex_read_common ex_sibling ex_set_order
           (fun l => Permutation_refl l))
    with (fuel := 5) (schema := JObj [("$ref", JStr "./common.json#/properties")])
         (root_schema := JObj []) (file_path := "schemas/whole.schema.json"%string).
  - intros p doc H. unfold ex_read_common in H.
    destruct (p =? "schemas/common.json")%string; inversion H; split; reflexivity.
  - reflexivity.
  - reflexivity.
  - reflexivity.
  - reflexivity.
  - reflexivity.
Defined.

Lemma resolve_refs_follows_chain_witness :
  resolve_refs ex_read_json ex_sibling ex_set_order (2 + 2) ex_ref_A ex_chain
               "schemas/chain.schema.json"
  = resolve_refs ex_read_json ex_sibling ex_set_order 2 ex_string ex_chain
                 "schemas/chain.schema.json".
Proof.
  apply (resolve_refs_follows_chain ex_read_json ex_sibling ex_set_order 2
           ex_ref_A ex_chain "schemas/chain.schema.json"
           ex_string ex_chain "schemas/chain.schema.json").
  reflexivity.
Defined.

Lemma resolve_refs_keeps_shape_witness :
  exists fields,
    JObj ex_plan_schema = JObj fields
    /\ map fst fields = ["type"; "properties"; "required"]%string.
Proof.
  destruct (resolve_refs_keeps_shape ex_read_json ex_sibling ex_set_order 4
              (JObj ex_plan_schema) (JObj []) "schemas/plans.schema.json"
              (JObj ex_plan_schema) eq_refl eq_refl eq_refl)
    as (fields & Hr & Hkeys & _).
  exists fields. split; assumption.
Defined.

Lemma load_schemas_returns_every_event_witness :
  exists events,
    load_schemas ex_read_json ex_sibling ex_set_order ex_glob 3
                 "schemas/events/*.schema.json" = Ok events
    /\ Permutation (map event_name events)
                   (flat_map (file_event_names ex_read_json)
                             (ex_glob "schemas/events/*.schema.json")).
Proof.
  eexists. split; [reflexivity|].
  apply (load_schemas_returns_every_event ex_read_json ex_sibling ex_set_order ex_glob 3
           "schemas/events/*.schema.json").
  reflexivity.
Defined.

Lemma load_schemas_events_are_derived_witness :
  exists events,
    load_schemas ex_read_json ex_sibling ex_set_order ex_glob 3
                 "schemas/events/*.schema.json" = Ok events
    /\ Forall derived_from_schema events.
Proof.
  eexists. split; [reflexivity|].
  apply (load_schemas_events_are_derived ex_read_json ex_sibling ex_set_order ex_glob 3
           "schemas/events/*.schema.json").
  reflexivity.
Defined.

Lemma load_schemas_keeps_load_order_witness :
  exists events per_file,
    load_schemas ex_read_json ex_sibling ex_set_order ex_glob 3
                 "schemas/events/*.schema.json" = Ok events
    /\ forall name,
        filter (fun ev => event_name ev =? name)%string events
        = filter (fun ev => event_name ev =? name)%string (concat per_file).
Proof.
  destruct (load_schemas_keeps_load_order ex_read_json ex_sibling ex_set_order ex_glob 3
              "schemas/events/*.schema.json" _ eq_refl) as (per_file & _ & Horder).
  eexists. exists per_file. split; [reflexivity | exact Horder].
Defined.

Lemma validate_reports_expected_errors_witness :
  _validate ex_py_str ex_schemas STRICT "plan_chosen" [("plan", JStr "trial")]
  = Ok (Some ["Invalid enum value for plan: trial"%string]).
Proof.
  apply (validate_reports_expected_errors ex_py_str ex_schemas STRICT "plan_chosen"
           ex_plan_schema [("plan", JStr "trial")]).
  - discriminate.
  - reflexivity.
  - reflexivity.
Defined.

Lemma valid_event_is_forwarded_once_witness :
  capture ex_py_str ex_default_filter ex_sdk ex_schemas STRICT ex_world "user-1"
          "plan_chosen" (Some [("plan", JStr "paid")]) [("timestamp", JNum 7)]
  = (Ok tt,
     {| sdk_calls := [{| c_distinct_id := "user-1"; c_event := "plan_chosen";
                         c_properties := JObj [("plan", JStr "paid")]%string;
                         c_kwargs := [("timestamp", JNum 7)]%string |}];
        warned := [] |}).
Proof.
  apply (valid_event_is_forwarded_once ex_py_str ex_default_filter ex_sdk ex_schemas
           STRICT ex_world "user-1" "plan_chosen" (Some [("plan", JStr "paid")])
           [("timestamp", JNum 7)]%string ex_plan_schema).
  - reflexivity.
  - reflexivity.
  - intros name [H|[]]. inversion H. reflexivity.
  - intros item [<-|[]]. reflexivity.
Defined.

Lemma property_without_enum_is_not_checked_witness :
  _validate ex_py_str ex_schemas STRICT "plan_chosen"
            ([("plan", JStr "paid")] ++ [("seats", JStr "many")])
  = _validate ex_py_str ex_schemas STRICT "plan_chosen" [("plan", JStr "paid")].
Proof.
  apply (property_without_enum_is_not_checked ex_py_str ex_schemas STRICT "plan_chosen"
           ex_plan_schema [("plan", JStr "paid")] "seats" (JStr "many")).
  - reflexivity.
  - reflexivity.
  - reflexivity.
  - reflexivity.
  - intros [H|[]]. discriminate.
Defined.

Lemma warning_mode_never_blocks_witness :
  exists diagnostics,
    fst (capture ex_py_str ex_default_filter ex_sdk ex_schemas WARNING ex_world "user-1"
                 "plan_chosen" (Some [("plan", JStr "trial")]) [])
    = Ok tt
    /\ sdk_calls (snd (capture ex_py_str ex_default_filter ex_sdk ex_schemas WARNING
                               ex_world "user-1" "plan_chosen"
                               (Some [("plan", JStr "trial")]) []))
       = [] ++ diagnostics
         ++ [{| c_distinct_id := "user-1"; c_event := "plan_chosen";
                c_properties := JObj [("plan", JStr "trial")]%string;
                c_kwargs := [] |}].
Proof.
  apply (warning_mode_never_blocks ex_py_str ex_default_filter ex_sdk ex_schemas
           ex_world "user-1" "plan_chosen" (Some [("plan", JStr "trial")]) []
           ex_plan_schema); reflexivity.
Defined.

Lemma resolve_refs_without_file_refs_witness :
  resolve_refs ex_read_json ex_sibling ex_set_order 4 ex_ref_A ex_chain
               "schemas/chain.schema.json"
  = resolve_refs (fun _ => None) (fun _ rel => rel) ex_set_order 4 ex_ref_A ex_chain
                 "elsewhere/chain.schema.json".
Proof.
  apply (resolve_refs_without_file_refs ex_read_json (fun _ => None)
           ex_sibling (fun _ rel => rel) ex_set_order 4 ex_ref_A ex_chain
           "schemas/chain.schema.json" "elsewhere/chain.schema.json");
    reflexivity.
Defined.
